(** * JavaScript-in-Depth: verification of the course's utility classes

    A shallow embedding of the small data structures and helpers that the
    tutorial files define (LRUCache, the event emitters, TestRunner,
    Assertions.assertThrows, the two CircularBuffer classes, circuitBreaker,
    the retry helpers and the export guards), followed by the properties
    established about them. *)

From stdpp Require Import base option list gmap strings.
From Stdlib Require Import ZArith Lia SpecFloat.

Open Scope Z_scope.

(** ** JavaScript values

    The primitives that the modelled code stores, compares and returns.
    [VRef] stands for an object or function identified by reference;
    [VError msg] for [new Error(msg)].  The numbers held as values are whole.
    Where the code computes or compares with a number that its caller may
    pass as a fraction or an infinity (a capacity, a number of attempts) or
    that may leave the range in which whole numbers are exact (an index, a
    loop counter), the number is a [JSNumber.number] below; the only NaN that
    the other code can produce (a pointer of a zero-sized buffer) is
    represented where it arises. *)
Inductive val : Type :=
| VUndefined
| VNull
| VBool (b : bool)
| VNum (n : Z)
| VStr (s : string)
| VRef (r : nat)
| VError (msg : string).

#[global] Instance val_eq_dec : EqDecision val.
Proof. solve_decision. Defined.

(** Outcome of running a piece of code that may throw. *)
Inductive outcome (A : Type) : Type :=
| Return (a : A)
| Throw (e : val).
Arguments Return {A} a.
Arguments Throw {A} e.

(** ** Code that runs in a world

    Callbacks, test bodies, hooks, operations and the functions handed to
    the helpers are arbitrary closures.  Such a closure is a function from
    the state of everything it can touch (the world) to the new state and
    its outcome; an [await]ed call runs to its completion before the caller
    continues.  Closures that never return are not represented. *)
Definition closure (W : Type) : Type := W → W * outcome val.

(** ** JavaScript numbers

    A number is an IEEE 754 double: NaN, an infinity, or a finite value
    [m × 2^e] whose significand has at most 53 bits.  [Finite m e] stands for
    [m × 2^e]; two pairs may stand for the same value, so numbers are
    compared with [compare], never with [=].  Zero has no sign here: none of
    the operations below tells the two zeros apart. *)
Module JSNumber.

Inductive number : Type :=
| Finite (m e : Z)
| Infinity (negative : bool)
| NaN.

(** A whole number; every one of at most [2^53] in size is a double. *)
Definition of_Z (z : Z) : number := Finite z 0.

(** [Number.MAX_SAFE_INTEGER] *)
Definition MAX_SAFE_INTEGER : Z := 2 ^ 53 - 1.

(** The order of two numbers; none when one of them is NaN. *)
Definition compare (x y : number) : option comparison :=
  match x, y with
  | NaN, _ | _, NaN => None
  | Finite m1 e1, Finite m2 e2 =>
      let e := Z.min e1 e2 in
      Some (m1 * 2 ^ (e1 - e) ?= m2 * 2 ^ (e2 - e))
  | Infinity s1, Infinity s2 =>
      Some (if eqb s1 s2 then Eq else if s1 then Lt else Gt)
  | Infinity s, Finite _ _ => Some (if s then Lt else Gt)
  | Finite _ _, Infinity s => Some (if s then Gt else Lt)
  end.

(** [x < y], [x <= y], [x >= y] and [x === y]: false when NaN is involved. *)
Definition lt (x y : number) : bool :=
  match compare x y with Some Lt => true | _ => false end.

Definition le (x y : number) : bool :=
  match compare x y with Some Lt | Some Eq => true | _ => false end.

Definition ge (x y : number) : bool := le y x.

Definition strict_eq (x y : number) : bool :=
  match compare x y with Some Eq => true | _ => false end.

(** The whole number nearest to [m / d], the even one of the two when
    [m / d] lies half way. *)
Definition round_half_even (m d : Z) : Z :=
  let q := m / d in
  let r := m mod d in
  if 2 * r <? d then q
  else if d <? 2 * r then q + 1
  else if Z.even q then q else q + 1.

(** The double nearest to [m × 2^e]: the significand is cut to 53 bits.
    The exponent range is left aside: adding or subtracting 1, the only
    arithmetic done below, cannot overflow, and its results under the normal
    range are exact. *)
Definition round53 (m e : Z) : number :=
  let k := Z.log2 (Z.abs m) - 52 in
  if k <=? 0 then Finite m e else Finite (round_half_even m (2 ^ k)) (e + k).

(** The same rounding, of a whole number to a whole number. *)
Definition round_whole (z : Z) : Z :=
  let k := Z.log2 (Z.abs z) - 52 in
  if k <=? 0 then z else round_half_even z (2 ^ k) * 2 ^ k.

(** A finite number as a fraction over a power of two:
    [Finite m e = numerator m e / denominator e]. *)
Definition denominator (e : Z) : Z := 2 ^ (0 - Z.min 0 e).
Definition numerator (m e : Z) : Z := m * 2 ^ (e - Z.min 0 e).

(** One and a half: [3 × 2^-1]. *)
Definition one_and_a_half : number := Finite 3 (-1).

(** The numbers that are whole. *)
Definition is_whole (x : number) : Prop := ∃ n, strict_eq x (of_Z n) = true.

(** [x - 1], rounded to a double as every sum of doubles is. *)
Definition sub1 (x : number) : number :=
  match x with
  | Finite m e =>
      let e' := Z.min e 0 in
      round53 (m * 2 ^ (e - e') - 2 ^ (0 - e')) e'
  | Infinity s => Infinity s
  | NaN => NaN
  end.

(** The Standard Library's IEEE 754 numbers, read as numbers of this
    model; [double m e] and [double_sub] are its rounding of [m × 2^e] to
    a double and its subtraction of doubles. *)
Definition of_spec_float (f : spec_float) : number :=
  match f with
  | S754_zero _ => Finite 0 0
  | S754_infinity s => Infinity s
  | S754_nan => NaN
  | S754_finite s m e => Finite (if s then Z.neg m else Z.pos m) e
  end.

Definition double (m e : Z) : spec_float := binary_normalize 53 1024 m e false.

Definition double_sub (x y : spec_float) : spec_float := SFsub 53 1024 x y.

(** Inputs on which the rounding above is set against the library's:
    around [2^53], half way cases of both parities, negative numbers,
    fractions and large exponents. *)
Definition rounding_samples : list (Z * Z) :=
  [(2 ^ 53 - 1, 0); (2 ^ 53, 0); (2 ^ 53 + 1, 0); (2 ^ 53 + 2, 0);
   (2 ^ 53 + 3, 0); (2 ^ 54 - 1, 0); (2 ^ 54 + 2, 0); (2 ^ 54 + 6, 0);
   (- (2 ^ 53 + 1), 0); (- (2 ^ 53 + 3), 0); (2 ^ 60 + 2 ^ 7, 0);
   (2 ^ 60 + 2 ^ 7 + 1, 0); (2 ^ 60 + 3 * 2 ^ 7, 0); (2 ^ 54 - 1, -54);
   (3, -1); (12345, 77); (2 ^ 100 - 1, 0); (- (2 ^ 100 - 1), -30);
   (2 ^ 200 + 2 ^ 147, 300); (1, -1000)].

Definition subtraction_samples : list (Z * Z) :=
  [(1, 0); (2, 0); (3, -1); (1, -1); (1, -60); (2 ^ 53, 0); (2 ^ 52 + 1, 1);
   (2 ^ 52 + 1, -52); (2 ^ 53 - 1, -53); (0, 0); (-7, 3); (1, 900)].

End JSNumber.

(** ** The built-in [Map]

    A JavaScript [Map] iterates in insertion order and holds each key once,
    so it is an association list without duplicate keys.  [set] on a key that
    is present replaces the value where the entry stands; on an absent key it
    appends. *)
Section JSMap.
Context {K V : Type} `{EqDecision K}.

Definition jsmap_keys (m : list (K * V)) : list K := m.*1.

Definition jsmap_has (k : K) (m : list (K * V)) : bool :=
  bool_decide (k ∈ jsmap_keys m).

Fixpoint jsmap_get (k : K) (m : list (K * V)) : option V :=
  match m with
  | [] => None
  | (k', v) :: rest => if decide (k = k') then Some v else jsmap_get k rest
  end.

Definition jsmap_delete (k : K) (m : list (K * V)) : list (K * V) :=
  filter (λ p, p.1 ≠ k) m.

Fixpoint jsmap_set (k : K) (v : V) (m : list (K * V)) : list (K * V) :=
  match m with
  | [] => [(k, v)]
  | (k', v') :: rest =>
      if decide (k = k') then (k, v) :: rest else (k', v') :: jsmap_set k v rest
  end.

Definition jsmap_size (m : list (K * V)) : nat := length m.

(** [m.keys().next().value]: the oldest key, if any. *)
Definition jsmap_first_key (m : list (K * V)) : option K := head (jsmap_keys m).

Definition jsmap_wf (m : list (K * V)) : Prop := NoDup (jsmap_keys m).
End JSMap.

(** The array or Set that a Map from events holds for [event]; empty when
    the event has no entry. *)
Definition slot {A} (event : val) (m : list (val * list A)) : list A :=
  default [] (jsmap_get event m).

(** ** LRUCache (15_Memory_Management.js) *)
Module LRUCache.

(** [capacity] is a number of entries, hence whole. *)
Record t : Type := mk { capacity : Z; cache : list (val * val) }.

Definition new (capacity : Z) : t := {| capacity := capacity; cache := [] |}.

(** [get(key)]: the value returned and the cache afterwards. *)
Definition get (key : val) (c : t) : val * t :=
  if negb (jsmap_has key (cache c)) then (VNum (-1), c)
  else
    let value := default VUndefined (jsmap_get key (cache c)) in
    let m1 := jsmap_delete key (cache c) in
    let m2 := jsmap_set key value m1 in
    (value, {| capacity := capacity c; cache := m2 |}).

Definition put (key value : val) (c : t) : t :=
  let m1 :=
    if jsmap_has key (cache c) then jsmap_delete key (cache c)
    else if bool_decide (capacity c ≤ Z.of_nat (jsmap_size (cache c))) then
      match jsmap_first_key (cache c) with
      | Some firstKey => jsmap_delete firstKey (cache c)
      | None => cache c   (* delete(undefined) on an empty Map *)
      end
    else cache c in
  {| capacity := capacity c; cache := jsmap_set key value m1 |}.

Inductive op : Type :=
| Get (key : val)
| Put (key value : val).

Definition step (c : t) (o : op) : t :=
  match o with
  | Get key => (get key c).2
  | Put key value => put key value c
  end.

Definition run (ops : list op) (c : t) : t := foldl step c ops.

(** The caches that a program can hold: built by the constructor and
    then only touched through [get] and [put]. *)
Definition reachable (cap : Z) (c : t) : Prop :=
  ∃ ops, c = run ops (new cap).

(** The cache's Map viewed from its most recent end. *)
Definition most_recent (c : t) : option val := last (jsmap_keys (cache c)).

(** What every operation preserves. *)
Definition invariant (cap : Z) (c : t) : Prop :=
  capacity c = cap ∧ jsmap_wf (cache c) ∧ Z.of_nat (jsmap_size (cache c)) ≤ cap.

(** A full cache of capacity 2 holding keys 1 and 2. *)
Definition two_entries : t :=
  run [Put (VNum 1) (VStr "a"); Put (VNum 2) (VStr "b")] (new 2).

End LRUCache.

(** *** The capacity as any number

    The constructor stores the number it is given and [put] only compares
    it with the size of the Map.  [LRUCache] above takes the capacity to be
    the whole number of entries that it is meant to be; here it is any
    number, fraction and infinity included. *)
Module LRUCacheAnyCapacity.
Import JSNumber.

Record t : Type := mk { capacity : number; cache : list (val * val) }.

Definition new (capacity : number) : t := {| capacity := capacity; cache := [] |}.

Definition get (key : val) (c : t) : val * t :=
  if negb (jsmap_has key (cache c)) then (VNum (-1), c)
  else
    let value := default VUndefined (jsmap_get key (cache c)) in
    let m1 := jsmap_delete key (cache c) in
    let m2 := jsmap_set key value m1 in
    (value, {| capacity := capacity c; cache := m2 |}).

Definition put (key value : val) (c : t) : t :=
  let m1 :=
    if jsmap_has key (cache c) then jsmap_delete key (cache c)
    else if ge (of_Z (Z.of_nat (jsmap_size (cache c)))) (capacity c) then
      match jsmap_first_key (cache c) with
      | Some firstKey => jsmap_delete firstKey (cache c)
      | None => cache c   (* delete(undefined) on an empty Map *)
      end
    else cache c in
  {| capacity := capacity c; cache := jsmap_set key value m1 |}.

Definition step (c : t) (o : LRUCache.op) : t :=
  match o with
  | LRUCache.Get key => (get key c).2
  | LRUCache.Put key value => put key value c
  end.

Definition run (ops : list LRUCache.op) (c : t) : t := foldl step c ops.

(** [this.cache.size] *)
Definition size (c : t) : Z := Z.of_nat (jsmap_size (cache c)).

(** A cache of [LRUCache], whose capacity is whole. *)
Definition of_whole (c : LRUCache.t) : t :=
  {| capacity := of_Z (LRUCache.capacity c); cache := LRUCache.cache c |}.

End LRUCacheAnyCapacity.

(** ** Event emitters

    The emitters store callbacks and call them; they never look inside one.
    A callback is therefore modelled by its reference, and what a call of it
    does is given by [body]: the function behind each reference, which runs
    in the world and returns or throws.  [emit] reports the calls it makes,
    in order and each with the arguments passed, the emitter and the world
    it leaves, and how it completes: none of the emitters catches what a
    callback throws.  Callbacks are taken not to call back into the emitter
    that is dispatching them. *)
Definition callback : Type := nat.
Definition call : Type := callback * list val.

Record emitted (E W : Type) : Type := Emitted {
  calls_made : list call;
  emitter_after : E;
  world_after : W;
  completion : outcome val
}.
Arguments Emitted {E W} calls_made emitter_after world_after completion.
Arguments calls_made {E W} _.
Arguments emitter_after {E W} _.
Arguments world_after {E W} _.
Arguments completion {E W} _.

Section Dispatch.
Context {W : Type}.
Variable body : callback → list val → closure W.

(** [callbacks.forEach(callback => callback(...args))], on an array or on a
    Set of callbacks: a throw ends the loop and is passed on. *)
Fixpoint call_each (args : list val) (callbacks : list callback) (w : W)
  : list call * W * outcome val :=
  match callbacks with
  | [] => ([], w, Return VUndefined)
  | cb :: rest =>
      match body cb args w with
      | (w1, Return _) =>
          let '(calls, w2, o) := call_each args rest w1 in
          ((cb, args) :: calls, w2, o)
      | (w1, Throw error) => ([(cb, args)], w1, Throw error)
      end
  end.

End Dispatch.

(** *** EventEmitter (unnamed/part_004): an array of callbacks per event *)
Module EventEmitter.

Record t : Type := mk { events : list (val * list callback) }.

Definition new : t := {| events := [] |}.

(** [push] mutates the array that the Map entry refers to, so the entry
    keeps its place. *)
Definition on (event : val) (cb : callback) (e : t) : t :=
  let m :=
    if negb (jsmap_has event (events e)) then jsmap_set event [] (events e)
    else events e in
  let arr := default [] (jsmap_get event m) in
  {| events := jsmap_set event (arr ++ [cb]) m |}.

Definition emit {W} (body : callback → list val → closure W)
    (event data : val) (e : t) (w : W) : emitted t W :=
  if jsmap_has event (events e) then
    let arr := default [] (jsmap_get event (events e)) in
    let '(calls, w1, o) := call_each body [data] arr w in
    Emitted calls e w1 o
  else Emitted [] e w (Return VUndefined).

End EventEmitter.

(** *** EventSystem (11_Events.js): a Set of listener objects per event *)
Module EventSystem.

(** Only the truthiness of [options.once] is read. *)
Record options : Type := mk_options { once : bool }.
Definition default_options : options := {| once := false |}.

Record listener : Type :=
  mk_listener { l_callback : callback; l_options : options }.

#[global] Instance options_eq_dec : EqDecision options.
Proof. solve_decision. Defined.
#[global] Instance listener_eq_dec : EqDecision listener.
Proof. solve_decision. Defined.

(** Every [on] allocates a fresh listener object, so the Set never merges
    two registrations: it is the list of listeners in insertion order. *)
Record t : Type := mk { listeners : list (val * list listener) }.

Definition new : t := {| listeners := [] |}.

Definition on (event : val) (cb : callback) (opts : options) (e : t) : t :=
  let m :=
    if negb (jsmap_has event (listeners e)) then jsmap_set event [] (listeners e)
    else listeners e in
  let set := default [] (jsmap_get event m) in
  {| listeners := jsmap_set event (set ++ [mk_listener cb opts]) m |}.

Definition off (event : val) (cb : callback) (e : t) : t :=
  if negb (jsmap_has event (listeners e)) then e
  else
    let set := default [] (jsmap_get event (listeners e)) in
    {| listeners :=
         jsmap_set event (filter (λ l, l_callback l ≠ cb) set) (listeners e) |}.

(** The loop of [emit] over the listeners still to visit.
    [Set.prototype.forEach] skips an entry that was deleted before the
    iteration reached it; [off] deletes every listener of a callback, so a
    pending listener is still to be visited exactly when it is still in
    the Set.  A listener registered with [once] is taken off before its
    callback is called; a callback that throws ends the loop. *)
Fixpoint emit_each {W} (body : callback → list val → closure W)
    (event data : val) (pending : list listener) (e : t) (w : W) : emitted t W :=
  match pending with
  | [] => Emitted [] e w (Return VUndefined)
  | l :: rest =>
      if bool_decide (l ∈ default [] (jsmap_get event (listeners e))) then
        let e1 := if once (l_options l) then off event (l_callback l) e else e in
        match body (l_callback l) [data] w with
        | (w1, Return _) =>
            let r := emit_each body event data rest e1 w1 in
            Emitted ((l_callback l, [data]) :: calls_made r)
                    (emitter_after r) (world_after r) (completion r)
        | (w1, Throw error) => Emitted [(l_callback l, [data])] e1 w1 (Throw error)
        end
      else emit_each body event data rest e w
  end.

Definition emit {W} (body : callback → list val → closure W)
    (event data : val) (e : t) (w : W) : emitted t W :=
  if negb (jsmap_has event (listeners e)) then Emitted [] e w (Return VUndefined)
  else emit_each body event data (default [] (jsmap_get event (listeners e))) e w.

End EventSystem.

(** *** MemoryEfficientEmitter (15_Memory_Management.js): a Set of callbacks *)
Module MemoryEfficientEmitter.

(** [Set.prototype.add] of a function that is already a member changes
    nothing; a new member goes last. *)
Definition set_add (cb : callback) (s : list callback) : list callback :=
  if bool_decide (cb ∈ s) then s else s ++ [cb].

Definition set_delete (cb : callback) (s : list callback) : list callback :=
  filter (λ c, c ≠ cb) s.

Record t : Type := mk { events : list (val * list callback) }.

Definition new : t := {| events := [] |}.

Definition off (event : val) (cb : callback) (e : t) : t :=
  match jsmap_get event (events e) with
  | Some callbacks =>
      let callbacks' := set_delete cb callbacks in
      if bool_decide (length callbacks' = 0%nat) then
        {| events := jsmap_delete event (events e) |}
      else {| events := jsmap_set event callbacks' (events e) |}
  | None => e
  end.

(** [on] also returns the closure [() => this.off(event, callback)]; it is
    [off event cb] and is not part of the state. *)
Definition on (event : val) (cb : callback) (e : t) : t :=
  let m :=
    if negb (jsmap_has event (events e)) then jsmap_set event [] (events e)
    else events e in
  let set := default [] (jsmap_get event m) in
  {| events := jsmap_set event (set_add cb set) m |}.

Definition emit {W} (body : callback → list val → closure W)
    (event : val) (args : list val) (e : t) (w : W) : emitted t W :=
  match jsmap_get event (events e) with
  | Some callbacks =>
      let '(calls, w1, o) := call_each body args callbacks w in
      Emitted calls e w1 o
  | None => Emitted [] e w (Return VUndefined)
  end.

End MemoryEfficientEmitter.

(** *** The three variants behind one interface *)
Module Emitter.

Inductive t : Type :=
| OfEventEmitter (e : EventEmitter.t)
| OfEventSystem (e : EventSystem.t)
| OfMemoryEfficientEmitter (e : MemoryEfficientEmitter.t).

Inductive variant : Type :=
| IsEventEmitter | IsEventSystem | IsMemoryEfficientEmitter.

Definition new (v : variant) : t :=
  match v with
  | IsEventEmitter => OfEventEmitter EventEmitter.new
  | IsEventSystem => OfEventSystem EventSystem.new
  | IsMemoryEfficientEmitter => OfMemoryEfficientEmitter MemoryEfficientEmitter.new
  end.

(** [on(event, callback)]: two arguments, so EventSystem takes its
    default [options = {}]. *)
Definition on (event : val) (cb : callback) (em : t) : t :=
  match em with
  | OfEventEmitter e => OfEventEmitter (EventEmitter.on event cb e)
  | OfEventSystem e =>
      OfEventSystem (EventSystem.on event cb EventSystem.default_options e)
  | OfMemoryEfficientEmitter e =>
      OfMemoryEfficientEmitter (MemoryEfficientEmitter.on event cb e)
  end.

Definition lift {E W} (inj : E → t) (r : emitted E W) : emitted t W :=
  Emitted (calls_made r) (inj (emitter_after r)) (world_after r) (completion r).

Definition emit {W} (body : callback → list val → closure W)
    (event data : val) (em : t) (w : W) : emitted t W :=
  match em with
  | OfEventEmitter e => lift OfEventEmitter (EventEmitter.emit body event data e w)
  | OfEventSystem e => lift OfEventSystem (EventSystem.emit body event data e w)
  | OfMemoryEfficientEmitter e =>
      lift OfMemoryEfficientEmitter (MemoryEfficientEmitter.emit body event [data] e w)
  end.



(** The distinct callbacks of a list, each at its first occurrence. *)
Fixpoint first_occurrences (l : list callback) : list callback :=
  match l with
  | [] => []
  | cb :: rest => cb :: filter (λ c, c ≠ cb) (first_occurrences rest)
  end.



Section Callbacks.
Context {W : Type}.
Variable body : callback → list val → closure W.

(** Called one after the other with [args] from the world [w], each of
    the callbacks returns. *)
Fixpoint all_return (args : list val) (cbs : list callback) (w : W) : Prop :=
  match cbs with
  | [] => True
  | cb :: rest =>
      ∃ w1 r, body cb args w = (w1, Return r) ∧ all_return args rest w1
  end.


(** None of the callbacks throws, whatever the world it is called in. *)
Definition never_throw (args : list val) (cbs : list callback) : Prop :=
  ∀ cb w, cb ∈ cbs → ∃ w1 r, body cb args w = (w1, Return r).



End Callbacks.

(** *** Callbacks that leave a trace

    The world is the list of the callbacks that have run.  [logging]
    callbacks return; with [failing bad], callback [bad] throws. *)
Definition logging : callback → list val → closure (list callback) :=
  λ cb _ w, (w ++ [cb], Return VUndefined).

Definition failing (bad : callback) : callback → list val → closure (list callback) :=
  λ cb _ w,
    (w ++ [cb],
     if decide (cb = bad) then Throw (VError "listener failed") else Return VUndefined).

End Emitter.

(** ** TestRunner (unnamed/part_000) *)
Module TestRunner.
Section WithWorld.
Context {W : Type}.

Record t : Type := mk {
  tests : list (val * closure W);
  beforeEach : option (closure W);   (* [None] is the initial [null] *)
  afterEach : option (closure W)
}.

Definition new : t := {| tests := []; beforeEach := None; afterEach := None |}.

Definition test (name : val) (testFn : closure W) (r : t) : t :=
  {| tests := jsmap_set name testFn (tests r);
     beforeEach := beforeEach r; afterEach := afterEach r |}.

Definition before (fn : closure W) (r : t) : t :=
  {| tests := tests r; beforeEach := Some fn; afterEach := afterEach r |}.

Definition after (fn : closure W) (r : t) : t :=
  {| tests := tests r; beforeEach := beforeEach r; afterEach := Some fn |}.

Record results : Type := mk_results {
  passed : Z;
  failed : Z;
  total : Z;
  failures : list (val * val)       (* [{ name, error }] *)
}.

(** What a run does, in order. *)
Inductive event : Type :=
| RanBeforeEach
| RanTest (name : val)
| RanAfterEach
| LoggedPass (name : val)
| LoggedFail (name error : val).



(** Statements of the runner: they thread the world, append to the
    trace and stop at the first throw. *)
Definition M (A : Type) : Type := W → W * list event * outcome A.

Definition ret {A} (a : A) : M A := λ w, (w, [], Return a).

Definition bind {A B} (m : M A) (k : A → M B) : M B :=
  λ w,
    match m w with
    | (w1, tr1, Return a) =>
        let '(w2, tr2, o) := k a w1 in (w2, tr1 ++ tr2, o)
    | (w1, tr1, Throw e) => (w1, tr1, Throw e)
    end.

Notation "m1 >> m2" := (bind m1 (λ _, m2)) (at level 65, right associativity).

(** [await f()], recorded as [ev]. *)
Definition await_call (f : closure W) (ev : event) : M unit :=
  λ w,
    match f w with
    | (w1, Return _) => (w1, [ev], Return tt)
    | (w1, Throw e) => (w1, [ev], Throw e)
    end.

(** [if (hook) await hook()] *)
Definition await_hook (hook : option (closure W)) (ev : event) : M unit :=
  match hook with
  | Some f => await_call f ev
  | None => ret tt
  end.

(** The [try] block up to the first statement that cannot throw. *)
Definition try_block (r : t) (name : val) (testFn : closure W) : M unit :=
  await_hook (beforeEach r) RanBeforeEach >>
  await_call testFn (RanTest name) >>
  await_hook (afterEach r) RanAfterEach.

(** [error.message]: reading a property of [undefined] or [null] throws a
    TypeError. *)
Definition error_message (error : val) : outcome val :=
  match error with
  | VUndefined | VNull => Throw (VError "TypeError")
  | VError msg => Return (VStr msg)
  | _ => Return VUndefined
  end.

Fixpoint run_each (r : t) (entries : list (val * closure W)) (res : results)
  : M results :=
  match entries with
  | [] => ret res
  | (name, testFn) :: rest =>
      λ w,
        match try_block r name testFn w with
        | (w1, tr1, Return _) =>
            let res1 := {| passed := passed res + 1; failed := failed res;
                           total := total res; failures := failures res |} in
            let '(w2, tr2, o) := run_each r rest res1 w1 in
            (w2, tr1 ++ LoggedPass name :: tr2, o)
        | (w1, tr1, Throw error) =>
            let res1 := {| passed := passed res; failed := failed res + 1;
                           total := total res;
                           failures := failures res ++ [(name, error)] |} in
            match error_message error with
            | Throw type_error => (w1, tr1, Throw type_error)
            | Return _ =>
                let '(w2, tr2, o) := run_each r rest res1 w1 in
                (w2, tr1 ++ LoggedFail name error :: tr2, o)
            end
        end
  end.

Definition runTests (r : t) : M results :=
  run_each r (tests r)
    {| passed := 0; failed := 0;
       total := Z.of_nat (jsmap_size (tests r)); failures := [] |}.

End WithWorld.
Arguments t : clear implicits.

(** *** A failing test and a cleanup hook

    The world is the log of what ran. *)
Definition log_and (line : string) (o : outcome val) : closure (list string) :=
  λ w, (w ++ [line], o).

Definition failing_suite : t (list string) :=
  test (VStr "breaks") (log_and "breaks" (Throw (VError "boom")))
    (after (log_and "cleanup" (Return VUndefined))
      (before (log_and "setup" (Return VUndefined)) new)).

Definition passing_suite : t (list string) :=
  test (VStr "works") (log_and "works" (Return VUndefined))
    (after (log_and "cleanup" (Return VUndefined))
      (before (log_and "setup" (Return VUndefined)) new)).

End TestRunner.

(** ** Assertions.assertThrows (unnamed/part_000) *)
Module Assertions.
Section WithWorld.
Context {W : Type}.

(** The [try] block: [fn(); throw new Error('Expected function to throw')]. *)
Definition assertThrows_try (fn : closure W) (w : W) : W * outcome val :=
  match fn w with
  | (w1, Return _) => (w1, Throw (VError "Expected function to throw"))
  | (w1, Throw e) => (w1, Throw e)
  end.

(** [catch (error) { return error; }] around it. *)
Definition assertThrows (fn : closure W) (w : W) : W * outcome val :=
  match assertThrows_try fn w with
  | (w1, Throw error) => (w1, Return error)
  | (w1, Return _) => (w1, Return VUndefined)
  end.

End WithWorld.

(** The values made by [new Error(msg)].  JavaScript throws any value:
    [throw undefined] and [throw 'bad'] are statements like any other. *)
Definition is_Error (v : val) : Prop := ∃ msg, v = VError msg.

(** The reading under which a call of assertThrows always hands back an
    Error. *)
Definition returns_an_Error {W} (fn : closure W) (w : W) : Prop :=
  ∃ error, (assertThrows fn w).2 = Return error ∧ is_Error error.

End Assertions.

(** ** CircularBuffer

    Two classes of this name: unnamed/part_005 keeps a [count], unnamed/part_006
    does not. *)

(** The array behind a buffer.  [new Array(size)] has [size] holes, and a
    hole reads as [undefined].  The pointers are indices, except that
    [x % 0] is NaN: a buffer of size 0 ends up indexing its array with NaN,
    which reads and writes the property named "NaN". *)
Module JSArray.

Inductive index : Type :=
| Idx (n : nat)
| NaN.

#[global] Instance index_eq_dec : EqDecision index.
Proof. solve_decision. Defined.

(** [(p + 1) % size] *)
Definition next (p : index) (size : nat) : index :=
  match p with
  | Idx n => if bool_decide (size = 0%nat) then NaN else Idx ((n + 1) `mod` size)%nat
  | NaN => NaN
  end.

Record t : Type := mk { cells : list val; nan_slot : val }.

(** [new Array(size)] *)
Definition new (size : nat) : t :=
  {| cells := replicate size VUndefined; nan_slot := VUndefined |}.

(** [a[p]] *)
Definition get (a : t) (p : index) : val :=
  match p with
  | Idx n => default VUndefined (cells a !! n)
  | NaN => nan_slot a
  end.

(** [a[p] = v]; an index past the end grows the array. *)
Definition set (a : t) (p : index) (v : val) : t :=
  match p with
  | Idx n =>
      if bool_decide (n < length (cells a))%nat then
        {| cells := <[n := v]> (cells a); nan_slot := nan_slot a |}
      else
        {| cells := cells a ++ replicate (n - length (cells a)) VUndefined ++ [v];
           nan_slot := nan_slot a |}
  | NaN => {| cells := cells a; nan_slot := v |}
  end.

End JSArray.

Module CircularBuffer.

Inductive op : Type :=
| Write (value : val)
| Read.

(** *** unnamed/part_005: with a count *)
Module Counted.

Record t : Type := mk {
  size : nat;
  buffer : JSArray.t;
  writePtr : JSArray.index;
  readPtr : JSArray.index;
  count : Z
}.

Definition new (size : nat) : t :=
  {| size := size; buffer := JSArray.new size;
     writePtr := JSArray.Idx 0; readPtr := JSArray.Idx 0; count := 0 |}.

Definition write (value : val) (b : t) : t :=
  {| size := size b;
     buffer := JSArray.set (buffer b) (writePtr b) value;
     writePtr := JSArray.next (writePtr b) (size b);
     readPtr := readPtr b;
     count := Z.min (count b + 1) (Z.of_nat (size b)) |}.

Definition read (b : t) : val * t :=
  if bool_decide (count b = 0) then (VNull, b)
  else
    let value := JSArray.get (buffer b) (readPtr b) in
    (value,
     {| size := size b; buffer := buffer b; writePtr := writePtr b;
        readPtr := JSArray.next (readPtr b) (size b);
        count := count b - 1 |}).

(** The values returned by the reads of [ops], and the buffer after. *)
Fixpoint run (ops : list op) (b : t) : list val * t :=
  match ops with
  | [] => ([], b)
  | Write value :: rest => run rest (write value b)
  | Read :: rest =>
      let '(value, b1) := read b in
      let '(values, b2) := run rest b1 in
      (value :: values, b2)
  end.

(** No read of [ops] finds the buffer empty. *)
Fixpoint reads_nonempty (ops : list op) (b : t) : bool :=
  match ops with
  | [] => true
  | Write value :: rest => reads_nonempty rest (write value b)
  | Read :: rest => negb (bool_decide (count b = 0)) && reads_nonempty rest (read b).2
  end.

End Counted.

(** *** unnamed/part_006: pointers only *)
Module Plain.

Record t : Type := mk {
  buffer : JSArray.t;
  size : nat;
  writePtr : JSArray.index;
  readPtr : JSArray.index
}.

Definition new (size : nat) : t :=
  {| buffer := JSArray.new size; size := size;
     writePtr := JSArray.Idx 0; readPtr := JSArray.Idx 0 |}.

Definition write (data : val) (b : t) : t :=
  {| buffer := JSArray.set (buffer b) (writePtr b) data;
     size := size b;
     writePtr := JSArray.next (writePtr b) (size b);
     readPtr := readPtr b |}.

Definition read (b : t) : val * t :=
  let data := JSArray.get (buffer b) (readPtr b) in
  (data,
   {| buffer := buffer b; size := size b; writePtr := writePtr b;
      readPtr := JSArray.next (readPtr b) (size b) |}).

Fixpoint run (ops : list op) (b : t) : list val * t :=
  match ops with
  | [] => ([], b)
  | Write data :: rest => run rest (write data b)
  | Read :: rest =>
      let '(data, b1) := read b in
      let '(values, b2) := run rest b1 in
      (data :: values, b2)
  end.

End Plain.

(** The classes named CircularBuffer in the sources, by file. *)
Inductive implementation : Type := CountedImpl | PlainImpl.

Definition implementations : list (string * implementation) :=
  [("unnamed/part_005", CountedImpl); ("unnamed/part_006", PlainImpl)].

(** What the two classes have in common: size, array and pointers. *)
Definition same_state (c : Counted.t) (p : Plain.t) : Prop :=
  Counted.size c = Plain.size p ∧
  Counted.buffer c = Plain.buffer p ∧
  Counted.writePtr c = Plain.writePtr p ∧
  Counted.readPtr c = Plain.readPtr p.

(** The count of a counted buffer is within its bounds. *)
Definition count_in_range (b : Counted.t) : Prop :=
  0 ≤ Counted.count b ≤ Z.of_nat (Counted.size b).

(** Three implementations, all behaving alike: the two halves of that
    statement. *)
Definition three_implementations : Prop := length implementations = 3%nat.

Definition identical_behaviour : Prop :=
  ∀ size ops,
    (Counted.run ops (Counted.new size)).1 = (Plain.run ops (Plain.new size)).1 ∧
    same_state (Counted.run ops (Counted.new size)).2 (Plain.run ops (Plain.new size)).2.

(** Two writes, then reads interleaved with a third write. *)
Definition fill_and_drain : list op :=
  [Write (VNum 1); Write (VNum 2); Read; Write (VNum 3); Read; Read].

End CircularBuffer.

(** ** circuitBreaker (08_Error_Handling.js) *)
Module AdvancedErrorHandling.
Section CircuitBreaker.
Context {W : Type}.
Variable now : W → Z.                        (* [Date.now()] *)
Variable operation : list val → closure W.
Variable threshold : Z.

(** The two variables that the returned closure captures. *)
Record state : Type := mk { failures : Z; lastFailure : option Z }.

Definition initial : state := {| failures := 0; lastFailure := None |}.

(** [lastFailure] is [null] until the first failure, and [n - null] is [n]. *)
Definition to_number (t : option Z) : Z := default 0 t.

(** One call: the captured state and the world afterwards, the outcome,
    and the argument lists with which [operation] was invoked. *)
Definition call_result : Type := state * W * outcome val * list (list val).

(** [try { return await operation(...args) } catch (error) { ... }] *)
Definition try_operation (args : list val) (s : state) (w : W) : call_result :=
  match operation args w with
  | (w1, Return r) => (s, w1, Return r, [args])
  | (w1, Throw error) =>
      ({| failures := failures s + 1; lastFailure := Some (now w1) |},
       w1, Throw error, [args])
  end.

(** The closure that [circuitBreaker(operation, threshold)] returns, applied
    to [args] with the captured variables in state [s]. *)
Definition circuitBreaker (args : list val) (s : state) (w : W) : call_result :=
  if bool_decide (threshold ≤ failures s) then
    let timeSinceLastFailure := now w - to_number (lastFailure s) in
    if bool_decide (timeSinceLastFailure < 60000) then
      (s, w, Throw (VError "Circuit breaker open"), [])
    else
      try_operation args {| failures := 0; lastFailure := lastFailure s |} w
  else try_operation args s w.

End CircuitBreaker.

(** *** A service that is down

    The world is the clock; the operation takes 10 ms and fails. *)
Definition down : list val → closure Z :=
  λ _ t, (t + 10, Throw (VError "service down")).

Definition tripped : state := {| failures := 2; lastFailure := Some 1000 |}.

End AdvancedErrorHandling.

(** ** The retry helpers

    The number of attempts is whatever number the caller passes, and the
    loop counter is a number that the loop increments.  A loop whose
    condition never fails and whose operation never succeeds does not end,
    so the loops take fuel: one unit for each evaluation of the loop
    condition, and the answer is [None] when it runs out. *)

(** What a retry helper does, in order. *)
Inductive retry_event : Type :=
| Invoked (result : outcome val)        (* one call of the operation *)
| Waited (delay : Z)                   (* [setTimeout(resolve, delay)] *)
| Warned (attempt : Z) (maxAttempts : JSNumber.number).    (* [console.warn] *)

(** *** retry (unnamed/part_004) *)
Section Retry.
Import JSNumber.
Context {W : Type}.
Variable sleep : Z → W → W.   (* the world once the timer has fired *)

(** [for (...; i < attempts; i++)] from the test of the condition on. *)
Fixpoint retry_loop (fuel : nat) (fn : closure W) (attempts : number) (delay : Z)
    (i : Z) (w : W) : option (W * list retry_event * outcome val) :=
  match fuel with
  | O => None
  | S fuel =>
      if lt (of_Z i) attempts then
        match fn w with
        | (w1, Return r) => Some (w1, [Invoked (Return r)], Return r)
        | (w1, Throw error) =>
            if strict_eq (of_Z i) (sub1 attempts) then
              Some (w1, [Invoked (Throw error)], Throw error)
            else
              match retry_loop fuel fn attempts delay (round_whole (i + 1))
                               (sleep delay w1) with
              | Some (w2, tr, o) =>
                  Some (w2, Invoked (Throw error) :: Waited delay :: tr, o)
              | None => None
              end
        end
      else Some (w, [], Return VUndefined)
  end.

(** [let i = 0] *)
Definition retry (fuel : nat) (fn : closure W) (attempts : number) (delay : Z) (w : W)
  : option (W * list retry_event * outcome val) :=
  retry_loop fuel fn attempts delay 0 w.

End Retry.

(** *** RetryMechanism.retry (01_JS_Introduction.js) *)
Module RetryMechanism.
Section Retry.
Import JSNumber.
Context {W : Type}.
Variable sleep : Z → W → W.

(** [for (...; attempt <= maxAttempts; attempt++)] from the test of the
    condition on. *)
Fixpoint retry_loop (fuel : nat) (operation : closure W) (maxAttempts : number)
    (delay : Z) (attempt : Z) (w : W)
  : option (W * list retry_event * outcome val) :=
  match fuel with
  | O => None
  | S fuel =>
      if le (of_Z attempt) maxAttempts then
        match operation w with
        | (w1, Return r) => Some (w1, [Invoked (Return r)], Return r)
        | (w1, Throw error) =>
            if strict_eq (of_Z attempt) maxAttempts then
              Some (w1, [Invoked (Throw error)], Throw error)
            else
              match retry_loop fuel operation maxAttempts delay
                               (round_whole (attempt + 1)) (sleep delay w1) with
              | Some (w2, tr, o) =>
                  Some (w2,
                        Invoked (Throw error) :: Waited delay ::
                          Warned attempt maxAttempts :: tr,
                        o)
              | None => None
              end
        end
      else Some (w, [], Return VUndefined)
  end.

(** [let attempt = 1] *)
Definition retry (fuel : nat) (operation : closure W) (maxAttempts : number)
    (delay : Z) (w : W) : option (W * list retry_event * outcome val) :=
  retry_loop fuel operation maxAttempts delay 1 w.

End Retry.
End RetryMechanism.

(** *** ErrorPatterns.retryOperation (08_Error_Handling.js) *)
Module ErrorPatterns.
Section Retry.
Import JSNumber.
Context {W : Type}.
Variable sleep : Z → W → W.

Fixpoint retryOperation_loop (fuel : nat) (operation : closure W)
    (maxAttempts : number) (delay : Z) (attempt : Z) (w : W)
  : option (W * list retry_event * outcome val) :=
  match fuel with
  | O => None
  | S fuel =>
      if le (of_Z attempt) maxAttempts then
        match operation w with
        | (w1, Return r) => Some (w1, [Invoked (Return r)], Return r)
        | (w1, Throw error) =>
            if strict_eq (of_Z attempt) maxAttempts then
              Some (w1, [Invoked (Throw error)], Throw error)
            else
              match retryOperation_loop fuel operation maxAttempts delay
                                        (round_whole (attempt + 1)) (sleep delay w1) with
              | Some (w2, tr, o) =>
                  Some (w2,
                        Invoked (Throw error) :: Waited delay ::
                          Warned attempt maxAttempts :: tr,
                        o)
              | None => None
              end
        end
      else Some (w, [], Return VUndefined)
  end.

Definition retryOperation (fuel : nat) (operation : closure W) (maxAttempts : number)
    (delay : Z) (w : W) : option (W * list retry_event * outcome val) :=
  retryOperation_loop fuel operation maxAttempts delay 1 w.

End Retry.
End ErrorPatterns.

(** *** The three helpers behind one interface *)
Module RetryHelpers.
Import JSNumber.

Inductive helper : Type :=
| TheRetryFunction                 (* retry, unnamed/part_004 *)
| TheRetryMechanism                (* RetryMechanism.retry *)
| TheRetryOperation.               (* ErrorPatterns.retryOperation *)

Definition run_helper {W} (sleep : Z → W → W) (fuel : nat) (h : helper)
    (fn : closure W) (attempts : number) (delay : Z) (w : W)
  : option (W * list retry_event * outcome val) :=
  match h with
  | TheRetryFunction => retry sleep fuel fn attempts delay w
  | TheRetryMechanism => RetryMechanism.retry sleep fuel fn attempts delay w
  | TheRetryOperation => ErrorPatterns.retryOperation sleep fuel fn attempts delay w
  end.

(** The two class methods warn on the console after each wait. *)
Definition warns (h : helper) : bool :=
  match h with TheRetryFunction => false | _ => true end.

(** From the world [w] the operation fails time after time, with
    [errors], the helper waiting [delay] after each failure; [w'] is the
    world after the last of these waits. *)
Inductive failed_from {W} (sleep : Z → W → W) (fn : closure W) (delay : Z)
  : W → list val → W → Prop :=
| failed_nil w : failed_from sleep fn delay w [] w
| failed_cons w w1 error errors w' :
    fn w = (w1, Throw error) →
    failed_from sleep fn delay (sleep delay w1) errors w' →
    failed_from sleep fn delay w (error :: errors) w'.

(** What the helper does about these failures, the first of them being
    attempt number [attempt]: each invocation is followed by one wait of
    [delay] and, in the class methods, by a warning. *)
Fixpoint failed_attempts (h : helper) (maxAttempts : number) (delay : Z)
    (attempt : Z) (errors : list val) : list retry_event :=
  match errors with
  | [] => []
  | error :: rest =>
      Invoked (Throw error) :: Waited delay ::
        (if warns h then [Warned attempt maxAttempts] else []) ++
        failed_attempts h maxAttempts delay (attempt + 1) rest
  end.

(** *** An operation that fails twice, then succeeds

    The world counts the invocations; waiting does not change it. *)
Definition flaky : closure nat :=
  λ n, (S n, if bool_decide (n < 2)%nat then Throw (VError "flaky")
             else Return (VNum (Z.of_nat n))).

(** *** An operation that never succeeds *)
Definition hopeless : closure nat := λ n, (S n, Throw (VError "hopeless")).

Definition no_sleep : Z → nat → nat := λ _ n, n.

End RetryHelpers.

(** ** Export guards

    Each file ends its CommonJS exports with
    [if (typeof module !== 'undefined') { module.exports = { ... }; }].
    The statements that take part are modelled as syntax and run against the
    identifiers bound at top level. *)
Module Exports.
#[local] Open Scope string_scope.

Inductive expr : Type :=
| Typeof (ident : string)              (* [typeof ident] *)
| Str (s : string)                     (* a string literal *)
| StrictNotEq (a b : expr).            (* [a !== b] *)

#[local] Unset Elimination Schemes.
Inductive stmt : Type :=
| AssignModuleExports (names : list string)   (* [module.exports = { names };] *)
| IfStmt (cond : expr) (body : list stmt).
#[local] Set Elimination Schemes.

#[global] Instance expr_eq_dec : EqDecision expr.
Proof. solve_decision. Defined.

(** The identifiers in scope, each with what [typeof] answers for it.
    [None] is an identifier that is not bound at all. *)
Definition env : Type := string → option string.

(** [typeof] of an unbound identifier is ["undefined"]; it does not throw. *)
Fixpoint eval (ρ : env) (e : expr) : val :=
  match e with
  | Typeof ident => VStr (default "undefined" (ρ ident))
  | Str s => VStr s
  | StrictNotEq a b => VBool (negb (bool_decide (eval ρ a = eval ρ b)))
  end.

Definition truthy (v : val) : bool :=
  match v with
  | VBool b => b
  | VUndefined | VNull => false
  | VNum n => negb (bool_decide (n = 0))
  | VStr s => negb (bool_decide (s = ""))
  | VRef _ | VError _ => true
  end.

Definition reference_error (ident : string) : val :=
  VError (ident ++ " is not defined").

(** Resolving an unbound identifier throws a ReferenceError. *)
Fixpoint resolve_all (ρ : env) (idents : list string) : outcome unit :=
  match idents with
  | [] => Return tt
  | x :: rest =>
      match ρ x with
      | Some _ => resolve_all ρ rest
      | None => Throw (reference_error x)
      end
  end.

Fixpoint exec (ρ : env) (s : stmt) : outcome unit :=
  match s with
  | AssignModuleExports names => resolve_all ρ ("module" :: names)
  | IfStmt cond body =>
      if truthy (eval ρ cond) then
        (fix exec_all (l : list stmt) : outcome unit :=
           match l with
           | [] => Return tt
           | s1 :: rest =>
               match exec ρ s1 with
               | Return _ => exec_all rest
               | Throw e => Throw e
               end
           end) body
      else Return tt
  end.

Fixpoint exec_all (ρ : env) (l : list stmt) : outcome unit :=
  match l with
  | [] => Return tt
  | s1 :: rest =>
      match exec ρ s1 with
      | Return _ => exec_all ρ rest
      | Throw e => Throw e
      end
  end.

Definition guard : expr := StrictNotEq (Typeof "module") (Str "undefined").

Definition guarded_exports (names : list string) : stmt :=
  IfStmt guard [AssignModuleExports names].

(** Every export assignment of [s] stands under the guard. *)
Fixpoint assigns_guarded (under_guard : bool) (s : stmt) : bool :=
  match s with
  | AssignModuleExports _ => under_guard
  | IfStmt cond body =>
      forallb (assigns_guarded (under_guard || bool_decide (cond = guard))) body
  end.

(** The export statements of every source file, in file order.  A file
    with [[]] assigns no exports ([unnamed/part_001] uses [export]
    declarations instead). *)
Definition source_files : list (string * list stmt) :=
[
  ("01_JS_Introduction.js",
    [
     guarded_exports
       ["helloWorld"; "detectEnvironment"; "safeOperation"];
     guarded_exports
       ["CallbackBasics"; "PromiseExamples"; "AsyncAwaitExamples";
        "AdvancedAsyncPatterns"; "AsyncErrorHandling";
        "RetryMechanism"; "RateLimiter"; "AsyncQueue"]
    ]);
  ("03_Operators_ControlFlow.js",
    [
     guarded_exports
       ["OperatorExamples"; "ControlFlowExamples";
        "AdvancedControlFlow"; "InterviewQuestions"; "customForEach";
        "safeNavigate"; "patternMatch"]
    ]);
  ("03_conversionOperation.js", []);
  ("04_comparision.js", []);
  ("05_Objects_OOP.js",
    [
     guarded_exports
       ["PropertyExamples"; "InheritanceExamples"; "DesignPatterns";
        "InterviewQuestions"; "ObjectPool"; "Calculator";
        "createValidatedObject"]
    ]);
  ("05_dataTypesInterviewPrep.js",
    [
     guarded_exports
       ["DateBasics"; "DateManipulation"; "DateFormatting";
        "TimezoneHandling"; "DateUtility"; "DateRange";
        "CalendarBuilder"]
    ]);
  ("07_stringsGuide.js", []);
  ("08_Error_Handling.js",
    [
     guarded_exports
       ["ErrorBasics"; "ErrorHandling"; "DebuggingTechniques";
        "ErrorPatterns"; "AdvancedErrorHandling"; "ApiCaller";
        "withErrorBoundary"; "DebugUtility"];
     guarded_exports
       ["TypeConversion"; "InterviewQuestions"; "identifyType";
        "safeTypeConversion"; "deepFreeze"]
    ]);
  ("08_nums_and_math.js", []);
  ("10_Arrays.js", []);
  ("10_DOM_Manipulation.js",
    [
     guarded_exports
       ["DOMBasics"; "ElementManipulation"; "EventHandling";
        "AdvancedDOM"; "DOMPerformance"; "ListManager";
        "InfiniteScroll"; "FormValidator"]
    ]);
  ("11_Events.js",
    [
     guarded_exports
       ["EventBasics"; "EventObjectExplorer"; "EventPropagation";
        "EventPatterns"; "AdvancedEventHandling"; "InfiniteScroll";
        "EventSystem"; "FormValidator"]
    ]);
  ("13_ES6_Features.js",
    [
     guarded_exports
       ["VariableDeclarations"; "ArrowFunctions"; "TemplateLiterals";
        "Destructuring"; "SpreadAndRest"; "ModernClass";
        "ClassFeatures"; "ModernDataStructures";
        "IteratorsAndGenerators"]
    ]);
  ("15_Memory_Management.js",
    [
     guarded_exports
       ["MemoryLifecycle"; "MemoryLeaks"; "MemoryOptimization";
        "GarbageCollection"; "MemoryMonitoring"; "LRUCache";
        "MemoryEfficientEmitter"; "MemoryMonitor"]
    ]);
  ("16_Security.js",
    [
     guarded_exports
       ["InputValidation"; "XSSPrevention"; "CSRFProtection";
        "SecureStorage"; "APISecurityPractices"; "SecureCoding";
        "SecureFormHandler"; "SecureAPIClient"; "SecureStorageManager"]
    ]);
  ("18_Performance.js",
    [
     guarded_exports
       ["CodeOptimization"; "DOMPerformance"; "ResourceOptimization";
        "RenderingOptimization"; "MemoryOptimization";
        "PerformanceMonitoring"]
    ]);
  ("21_PWA.js",
    [
     guarded_exports
       ["ManifestGenerator"; "PWAServiceWorker"; "OfflineManager";
        "PushManager"; "InstallationHandler"; "PWAInstallUI";
        "OfflineSync"; "serviceWorkerSetup"]
    ]);
  ("unnamed/part_000",
    [
     guarded_exports
       ["TestRunner"; "Assertions"; "MockFactory"; "TestDoubles";
        "AsyncTestUtils"; "UserService"; "UserServiceTests";
        "EventEmitterTests"; "AsyncTests"]
    ]);
  ("unnamed/part_001", []);
  ("unnamed/part_002",
    [
     guarded_exports
       ["StringBasics"; "StringMethods"; "RegExpBasics";
        "AdvancedStringOperations"; "StringOptimization";
        "StringInterviewQuestions"; "StringBuilder"; "TemplateEngine";
        "SimpleParser"]
    ]);
  ("unnamed/part_003", []);
  ("unnamed/part_004",
    [
     guarded_exports
       ["ParameterExamples"; "ScopeExamples"; "ThisContextExamples";
        "AdvancedFunctions"; "FunctionPatterns"; "InterviewQuestions";
        "pipeline"; "retry"; "EventEmitter"]
    ]);
  ("unnamed/part_005",
    [
     guarded_exports
       ["ArrayBasics"; "ArrayMethods"; "AdvancedArrayOperations";
        "ArrayOptimization"; "ArrayInterviewQuestions";
        "CircularBuffer"; "SparseArray"; "ArrayPool"]
    ]);
  ("unnamed/part_006", []);
  ("unnamed/part_007",
    [
     guarded_exports
       ["StorageAPIs"; "GeolocationAPI"; "NotificationAPI";
        "MediaAPIs"; "CanvasAPI"]
    ]);
  ("unnamed/part_008",
    [
     guarded_exports
       ["WorkerManager"; "DedicatedWorker"; "SharedWorkerManager";
        "ServiceWorkerManager"; "WorkerUtils"; "imageProcessingWorker";
        "dataProcessingWorker"; "serviceWorkerCache"]
    ])
].

(** Induction on statements, through the bodies of [if]. *)
Definition stmt_ind (P : stmt → Prop)
    (Hassign : ∀ names, P (AssignModuleExports names))
    (Hif : ∀ cond body, Forall P body → P (IfStmt cond body)) : ∀ s, P s :=
  fix go (s : stmt) : P s :=
    match s with
    | AssignModuleExports names => Hassign names
    | IfStmt cond body =>
        Hif cond body
          ((fix go_all (l : list stmt) : Forall P l :=
              match l with
              | [] => Forall_nil_2 P
              | s1 :: rest => Forall_cons_2 P s1 rest (go s1) (go_all rest)
              end) body)
    end.

(** [module] is not bound, or is bound to [undefined]. *)
Definition module_undefined (ρ : env) : Prop :=
  default "undefined" (ρ "module") = "undefined".

(** A plain script: the classes of the file are bound, [module] is not. *)
Definition script_env : env :=
  λ ident, if bool_decide (ident = "module") then None else Some "function".

(** A CommonJS module: [module] is bound to an object as well. *)
Definition commonjs_env : env :=
  λ ident, if bool_decide (ident = "module") then Some "object" else Some "function".

Definition memory_management_exports : list stmt :=
  [guarded_exports
     ["MemoryLifecycle"; "MemoryLeaks"; "MemoryOptimization"; "GarbageCollection";
      "MemoryMonitoring"; "LRUCache"; "MemoryEfficientEmitter"; "MemoryMonitor"]].

End Exports.
(** * Further models

    The rest of the classes and helpers of the same files. *)

(** ** LRUCache: the history of a cache *)
Module LRUCacheHistory.
Import LRUCache.

(** The key that an operation uses: a put always uses its key, a get only
    when it finds it. *)
Definition touch (c : t) (o : op) : list val :=
  match o with
  | Put key _ => [key]
  | Get key => if jsmap_has key (cache c) then [key] else []
  end.

(** The keys used by [ops], oldest first, starting from cache [c]. *)
Fixpoint touched (ops : list op) (c : t) : list val :=
  match ops with
  | [] => []
  | o :: rest => touch c o ++ touched rest (step c o)
  end.

(** The value of the last [put] of [key] among [ops]. *)
Definition last_put (key : val) (ops : list op) : option val :=
  foldl (λ acc o,
           match o with
           | Put k v => if decide (k = key) then Some v else acc
           | Get _ => acc
           end) None ops.

(** The used keys in order of last use end with the keys of the cache;
    keys older than those exist only when the cache is full. *)
Definition holds_most_recent (cap : Z) (recent keys : list val) : Prop :=
  ∃ older, recent = older ++ keys ∧
           Z.of_nat (length keys) ≤ cap ∧
           (Z.of_nat (length keys) < cap → older = []).

End LRUCacheHistory.

(** ** CircularBuffer: the queue behind the ring *)
Module CircularBufferQueue.
Import CircularBuffer.

(** The values that the reads of [ops] take from a first-in first-out
    queue holding [q]; a read of the empty queue gives null. *)
Fixpoint queue_reads (ops : list op) (q : list val) : list val :=
  match ops with
  | [] => []
  | Write value :: rest => queue_reads rest (q ++ [value])
  | Read :: rest =>
      match q with
      | [] => VNull :: queue_reads rest []
      | value :: q' => value :: queue_reads rest q'
      end
  end.

(** No write of [ops] finds the counted buffer full. *)
Fixpoint writes_fit (ops : list op) (b : Counted.t) : bool :=
  match ops with
  | [] => true
  | Write value :: rest =>
      bool_decide (Counted.count b < Z.of_nat (Counted.size b)) &&
      writes_fit rest (Counted.write value b)
  | Read :: rest => writes_fit rest (Counted.read b).2
  end.

(** The counted buffer [b] holds the queue [q]: its unread values start at
    the read pointer and wrap around the end of the array. *)
Definition holds_queue (b : Counted.t) (q : list val) : Prop :=
  ∃ r : nat,
    Counted.readPtr b = JSArray.Idx r ∧
    (r < Counted.size b)%nat ∧
    Counted.writePtr b = JSArray.Idx ((r + length q) `mod` Counted.size b)%nat ∧
    Counted.count b = Z.of_nat (length q) ∧
    (length q ≤ Counted.size b)%nat ∧
    length (JSArray.cells (Counted.buffer b)) = Counted.size b ∧
    ∀ (i : nat) (x : val),
      q !! i = Some x →
      JSArray.cells (Counted.buffer b) !! ((r + i) `mod` Counted.size b)%nat = Some x.

End CircularBufferQueue.

(** ** MemoryOptimization.createObjectPool (15_Memory_Management.js)

    The pool is an array of [size] objects [{ inUse }].  An object of the
    pool is known by its place in the array, so the pool is the list of the
    [inUse] flags. *)
Module MemoryOptimization.

(** [new Array(size).fill(null).map(() => ({ inUse: false }))] *)
Definition createObjectPool (size : nat) : list bool := replicate size false.

(** [acquire()]: the object handed out ([None] is null) and the pool. *)
Definition acquire (pool : list bool) : option nat * list bool :=
  match list_find (λ inUse, inUse = false) pool with
  | Some (i, _) => (Some i, <[i := true]> pool)
  | None => (None, pool)
  end.

(** [release(object)].  [Some i] is the object at place [i], or an object
    that is not of this pool when [i] is past the end; [None] is null, on
    which the assignment to [inUse] throws. *)
Definition release (object : option nat) (pool : list bool) : outcome (list bool) :=
  match object with
  | Some i => Return (<[i := false]> pool)
  | None => Throw (VError "TypeError")
  end.

Inductive op : Type :=
| Acquire
| Release (object : option nat).

(** One call on the pool.  Beside the pool the step keeps the list of the
    objects that were handed out and not released since. *)
Definition step (s : list bool * list nat) (o : op) : list bool * list nat :=
  match o with
  | Acquire =>
      match acquire s.1 with
      | (Some i, pool) => (pool, i :: s.2)
      | (None, pool) => (pool, s.2)
      end
  | Release object =>
      match release object s.1, object with
      | Return pool, Some i => (pool, filter (λ j, j ≠ i) s.2)
      | _, _ => s
      end
  end.

Definition run (ops : list op) (s : list bool * list nat) : list bool * list nat :=
  foldl step s ops.

(** The flags of the pool say exactly which objects are handed out. *)
Definition tracks (size : nat) (s : list bool * list nat) : Prop :=
  length s.1 = size ∧ NoDup s.2 ∧ ∀ i, i ∈ s.2 ↔ s.1 !! i = Some true.

End MemoryOptimization.

(** ** MemoryEfficientEmitter: subscribing and unsubscribing *)
Module MemoryEfficientEmitterOps.
Import MemoryEfficientEmitter.

Inductive op : Type :=
| On (event : val) (cb : callback)
| Off (event : val) (cb : callback).

Definition step (e : t) (o : op) : t :=
  match o with
  | On event cb => on event cb e
  | Off event cb => off event cb e
  end.

Definition run (ops : list op) (e : t) : t := foldl step e ops.

(** No event is kept without a callback, and no callback twice. *)
Definition tidy (e : t) : Prop :=
  jsmap_wf (events e) ∧ Forall (λ entry, entry.2 ≠ [] ∧ NoDup entry.2) (events e).

End MemoryEfficientEmitterOps.

(** ** EventSystem: listeners registered with [once] *)
Module EventSystemOnce.
Import EventSystem.


End EventSystemOnce.

(** ** Function helpers (unnamed/part_004)

    A function of several arguments is a closure over its argument list.
    The helpers below wrap such functions; the wrapped function is taken
    not to call its own wrapper. *)

(** *** pipeline: [functions.reduce((result, fn) => fn(result), input)] *)
Fixpoint pipeline {W : Type} (functions : list (val → closure W)) (input : val) (w : W)
  : W * outcome val :=
  match functions with
  | [] => (w, Return input)
  | fn :: rest =>
      match fn input w with
      | (w1, Return result) => pipeline rest result w1
      | (w1, Throw e) => (w1, Throw e)
      end
  end.

Module AdvancedFunctions.
Section WithWorld.
Context {W : Type}.

(** compose: [x => fns.reduceRight((y, f) => f(y), x)] *)
Fixpoint compose (fns : list (val → closure W)) (x : val) (w : W) : W * outcome val :=
  match fns with
  | [] => (w, Return x)
  | f :: rest =>
      match compose rest x w with
      | (w1, Return y) => f y w1
      | (w1, Throw e) => (w1, Throw e)
      end
  end.

(** memoize.  [stringify] is [JSON.stringify] on the argument list; the
    state of the returned closure is its [cache].  A call gives the cache
    and the world afterwards, the outcome, and the argument lists with
    which [fn] was invoked. *)
Variable stringify : list val → string.

Definition memoize (fn : list val → closure W) (args : list val)
    (cache : list (string * val)) (w : W)
  : list (string * val) * W * outcome val * list (list val) :=
  let key := stringify args in
  if negb (jsmap_has key cache) then
    match fn args w with
    | (w1, Return r) =>
        let cache1 := jsmap_set key r cache in
        (cache1, w1, Return (default VUndefined (jsmap_get key cache1)), [args])
    | (w1, Throw e) => (cache, w1, Throw e, [args])
    end
  else (cache, w, Return (default VUndefined (jsmap_get key cache)), []).

(** A series of calls of the memoized function, outcomes dropped. *)
Fixpoint memoize_calls (fn : list val → closure W) (calls : list (list val))
    (cache : list (string * val)) (w : W) : list (string * val) * W :=
  match calls with
  | [] => (cache, w)
  | args :: rest =>
      let '(cache1, w1, _, _) := memoize fn args cache w in
      memoize_calls fn rest cache1 w1
  end.

End WithWorld.
(** A counter as the world: [fn] counts its invocations and returns the
    count. *)
Definition counting : list val → closure nat :=
  λ _ n, (S n, Return (VNum (Z.of_nat (S n)))).

Definition by_length : list val → string :=
  λ args, if bool_decide (length args = 0%nat) then "[]" else "[...]".

End AdvancedFunctions.

Module FunctionPatterns.

(** curry.  [arity] is [fn.length].  [curried] is called with the groups of
    arguments one after the other, [args] being those collected so far: the
    result is either the arguments with which [fn] is finally called and
    the groups not used, or the arguments held by the function that is
    still waiting. *)
Fixpoint curried (arity : nat) (args : list val) (groups : list (list val))
  : list val * list (list val) + list val :=
  match groups with
  | [] => inr args
  | moreArgs :: rest =>
      let args1 := args ++ moreArgs in
      if bool_decide (arity ≤ length args1)%nat then inl (args1, rest)
      else curried arity args1 rest
  end.

End FunctionPatterns.

Module InterviewQuestions.

(** What happens to a wrapper built on a timer: it is called, or the host
    runs the callback of a timer that is due. *)
Inductive timer_event : Type :=
| Called (args : list val)
| TimerFired.

Section WithWorld.
Context {W : Type}.

(** once: the variables [called] and [result] of the closure. *)
Record once_state : Type := mk_once { called : bool; result : val }.

Definition once_initial : once_state := {| called := false; result := VUndefined |}.

Definition once (fn : list val → closure W) (args : list val) (s : once_state) (w : W)
  : once_state * W * outcome val * list (list val) :=
  if negb (called s) then
    match fn args w with
    | (w1, Return r) => ({| called := true; result := r |}, w1, Return r, [args])
    | (w1, Throw e) => ({| called := true; result := result s |}, w1, Throw e, [args])
    end
  else (s, w, Return (result s), []).

(** A series of calls: their outcomes, the invocations of [fn], the world. *)
Fixpoint once_calls (fn : list val → closure W) (calls : list (list val))
    (s : once_state) (w : W) : list (outcome val) * list (list val) * W :=
  match calls with
  | [] => ([], [], w)
  | args :: rest =>
      let '(s1, w1, o, invoked) := once fn args s w in
      let '(os, invoked_rest, w2) := once_calls fn rest s1 w1 in
      (o :: os, invoked ++ invoked_rest, w2)
  end.

(** throttle: the variable [inThrottle] and the number of reset timers
    that are set and have not fired. *)
Record throttle_state : Type := mk_throttle { inThrottle : bool; timers : nat }.

Definition throttle_initial : throttle_state := {| inThrottle := false; timers := 0 |}.

(** What a wrapper does in answer to an event. *)
Inductive timer_log : Type :=
| Invoked (args : list val) (o : outcome val)     (* [fn.apply(this, args)] *)
| Reset.                                          (* [inThrottle = false] *)

(** One event: the state and world afterwards and what was done.  When
    [fn] throws, the statements after the call are not reached.  The host
    fires only timers that are set. *)
Definition throttle (fn : list val → closure W) (ev : timer_event)
    (s : throttle_state) (w : W) : throttle_state * W * list timer_log :=
  match ev with
  | Called args =>
      if negb (inThrottle s) then
        match fn args w with
        | (w1, Return r) =>
            ({| inThrottle := true; timers := S (timers s) |}, w1,
             [Invoked args (Return r)])
        | (w1, Throw e) => (s, w1, [Invoked args (Throw e)])
        end
      else (s, w, [])
  | TimerFired =>
      match timers s with
      | S n => ({| inThrottle := false; timers := n |}, w, [Reset])
      | O => (s, w, [])
      end
  end.

Fixpoint throttle_run (fn : list val → closure W) (evs : list timer_event)
    (s : throttle_state) (w : W) : throttle_state * W * list timer_log :=
  match evs with
  | [] => (s, w, [])
  | ev :: rest =>
      let '(s1, w1, log) := throttle fn ev s w in
      let '(s2, w2, log_rest) := throttle_run fn rest s1 w1 in
      (s2, w2, log ++ log_rest)
  end.

(** debounce: the timer that [timeoutId] names, if it is still to fire,
    with the arguments that its callback holds.  A call clears that timer
    and sets a new one. *)
Definition debounce (fn : list val → closure W) (ev : timer_event)
    (pending : option (list val)) (w : W)
  : option (list val) * W * list timer_log :=
  match ev with
  | Called args => (Some args, w, [])
  | TimerFired =>
      match pending with
      | Some args => let '(w1, o) := fn args w in (None, w1, [Invoked args o])
      | None => (None, w, [])
      end
  end.

Fixpoint debounce_run (fn : list val → closure W) (evs : list timer_event)
    (pending : option (list val)) (w : W)
  : option (list val) * W * list timer_log :=
  match evs with
  | [] => (pending, w, [])
  | ev :: rest =>
      let '(p1, w1, log) := debounce fn ev pending w in
      let '(p2, w2, log_rest) := debounce_run fn rest p1 w1 in
      (p2, w2, log ++ log_rest)
  end.

End WithWorld.

(** At most one reset timer is set, and [inThrottle] says whether. *)
Definition throttle_ok (s : throttle_state) : Prop :=
  (timers s ≤ 1)%nat ∧ (inThrottle s = true ↔ timers s = 1%nat).

(** The invocations of a log that returned, and its resets. *)
Definition is_returned (entry : timer_log) : bool :=
  match entry with Invoked _ (Return _) => true | _ => false end.

Definition is_reset (entry : timer_log) : bool :=
  match entry with Reset => true | _ => false end.

Definition returned (log : list timer_log) : nat :=
  length (filter (λ entry, is_returned entry = true) log).

Definition resets (log : list timer_log) : nat :=
  length (filter (λ entry, is_reset entry = true) log).

End InterviewQuestions.

(** ** SparseArray and findDuplicates (unnamed/part_005) *)
Module SparseArray.

(** Indices are whole numbers; a negative one is a key like any other.
    [index + 1] is a sum of doubles, hence rounded: past [2^53] it need
    not exceed [index]. *)
Record t : Type := mk { data : list (Z * val); length : Z }.

Definition new : t := {| data := []; length := 0 |}.

Definition set (index : Z) (value : val) (a : t) : t :=
  {| data := jsmap_set index value (data a);
     length := Z.max (length a) (JSNumber.round_whole (index + 1)) |}.

(** [Map.prototype.get] answers undefined for a key that is not there. *)
Definition get (index : Z) (a : t) : val :=
  default VUndefined (jsmap_get index (data a)).

(** A series of [set] calls, first to last. *)
Definition fill (sets : list (Z * val)) (a : t) : t :=
  foldl (λ a s, set s.1 s.2 a) a sets.

End SparseArray.

Module ArrayInterviewQuestions.
Section WithValues.
(** Values that [===] tells apart exactly when they differ. *)
Context {A : Type} `{EqDecision A}.

(** [arr.indexOf(item)]; [None] is -1. *)
Definition indexOf (item : A) (arr : list A) : option nat :=
  fst <$> list_find (λ x, x = item) arr.

(** [arr.filter((item, index) => arr.indexOf(item) !== index)] *)
Definition findDuplicates (arr : list A) : list A :=
  (filter (λ p, indexOf p.2 arr ≠ Some p.1) (imap pair arr)).*2.

(** How often [x] occurs in [l]. *)
Definition occurrences (x : A) (l : list A) : nat :=
  List.length (filter (λ y, y = x) l).

End WithValues.
End ArrayInterviewQuestions.

(** ** TestRunner: suites whose tests all pass *)
Module TestRunnerSuites.
Import TestRunner.



End TestRunnerSuites.

(** ** circuitBreaker: a series of calls *)
Module CircuitBreakerRuns.
Import AdvancedErrorHandling.

Section WithWorld.
Context {W : Type}.
Variable now : W → Z.
Variable operation : list val → closure W.
Variable threshold : Z.

(** [n] calls with the same arguments, one after the other. *)
Fixpoint repeat_calls (n : nat) (args : list val) (s : state) (w : W) : state * W :=
  match n with
  | O => (s, w)
  | S k =>
      let '(s1, w1, _, _) := circuitBreaker now operation threshold args s w in
      repeat_calls k args s1 w1
  end.

(** The operation fails on every call. *)
Definition always_throws : Prop :=
  ∀ args w, ∃ w1 e, operation args w = (w1, Throw e).

End WithWorld.
End CircuitBreakerRuns.

(** ** RateLimiter (01_JS_Introduction.js)

    One caller at a time: a call of [throttle] is taken to finish before
    the next one starts. *)
Module RateLimiter.
Section WithWorld.
Context {W : Type}.
Variable now : W → Z.                 (* [Date.now()] *)
(** The world once a timer of [waitTime] ms has fired; [None] is the NaN
    that the subtraction gives when there is no oldest request. *)
Variable sleep : option Z → W → W.

Record t : Type := mk { maxRequests : Z; timeWindow : Z; requests : list Z }.

Definition new (maxRequests timeWindow : Z) : t :=
  {| maxRequests := maxRequests; timeWindow := timeWindow; requests := [] |}.

(** The limiter and the world afterwards, the outcome of [fn], and the
    waits made. *)
Definition throttle (fn : closure W) (l : t) (w : W)
  : t * W * outcome val * list (option Z) :=
  let now_ := now w in
  let requests1 := filter (λ time, now_ - time < timeWindow l) (requests l) in
  let '(w1, waits) :=
    if bool_decide (maxRequests l ≤ Z.of_nat (length requests1)) then
      let waitTime :=
        match requests1 with
        | oldestRequest :: _ => Some (timeWindow l - (now_ - oldestRequest))
        | [] => None
        end in
      (sleep waitTime w, [waitTime])
    else (w, []) in
  let requests2 := requests1 ++ [now_] in
  let '(w2, o) := fn w1 in
  ({| maxRequests := maxRequests l; timeWindow := timeWindow l; requests := requests2 |},
   w2, o, waits).

End WithWorld.

(** The world is the clock; waiting advances it, [fn] takes no time. *)
Definition tick : option Z → Z → Z := λ d t, t + default 0 d.
Definition instant : closure Z := λ t, (t, Return VUndefined).

End RateLimiter.

(** * Properties *)

Section JSMapFacts.
Context {K V : Type} `{EqDecision K}.
Implicit Types (m : list (K * V)) (k : K) (v : V).

Lemma jsmap_has_true k m : jsmap_has k m = true ↔ k ∈ jsmap_keys m.
Proof. unfold jsmap_has. apply bool_decide_eq_true. Qed.

Lemma jsmap_get_None k m : jsmap_get k m = None ↔ k ∉ jsmap_keys m.
Proof.
  induction m as [|[k' v'] m IH]; simpl.
  - split; [intros _; apply not_elem_of_nil | done].
  - destruct (decide (k = k')) as [->|Hne].
    + split; [done | intros Hn; exfalso; apply Hn; left].
    + rewrite IH, not_elem_of_cons. tauto.
Qed.

Lemma jsmap_get_Some_has k m v : jsmap_get k m = Some v → jsmap_has k m = true.
Proof.
  intros Hg. apply jsmap_has_true.
  destruct (decide (k ∈ jsmap_keys m)) as [|Hn]; [done|].
  apply jsmap_get_None in Hn. congruence.
Qed.

Lemma jsmap_get_None_has k m : jsmap_get k m = None → jsmap_has k m = false.
Proof.
  intros Hg. apply jsmap_get_None in Hg.
  unfold jsmap_has. by apply bool_decide_eq_false.
Qed.

Lemma jsmap_keys_delete k m :
  jsmap_keys (jsmap_delete k m) = filter (λ k', k' ≠ k) (jsmap_keys m).
Proof.
  unfold jsmap_keys, jsmap_delete.
  induction m as [|[k' v'] m IH]; [done|].
  rewrite fmap_cons, !filter_cons. cbn [fst].
  destruct (decide (k' ≠ k)); [rewrite fmap_cons; cbn [fst]|]; by rewrite IH.
Qed.

Lemma jsmap_delete_not_in k m : k ∉ jsmap_keys (jsmap_delete k m).
Proof. rewrite jsmap_keys_delete, list_elem_of_filter. intros [Hne _]. by apply Hne. Qed.

Lemma jsmap_delete_absent k m : k ∉ jsmap_keys m → jsmap_delete k m = m.
Proof.
  unfold jsmap_keys, jsmap_delete.
  induction m as [|[k' v'] m IH]; [done|].
  rewrite fmap_cons, not_elem_of_cons. cbn [fst]. intros [Hne Hn].
  rewrite filter_cons. cbn [fst].
  destruct (decide (k' ≠ k)) as [|Hk]; [by rewrite IH|].
  exfalso. apply Hk. congruence.
Qed.

Lemma jsmap_delete_wf k m : jsmap_wf m → jsmap_wf (jsmap_delete k m).
Proof. unfold jsmap_wf. rewrite jsmap_keys_delete. apply NoDup_filter. Qed.

Lemma jsmap_delete_length k m : (length (jsmap_delete k m) ≤ length m)%nat.
Proof. apply length_filter. Qed.

(** Deleting the key of the first entry of a well-formed map removes
    that entry and nothing else. *)
Lemma jsmap_delete_head k v m :
  jsmap_wf ((k, v) :: m) → jsmap_delete k ((k, v) :: m) = m.
Proof.
  unfold jsmap_wf. simpl. intros Hnd. apply NoDup_cons in Hnd as [Hn _].
  unfold jsmap_delete. rewrite filter_cons. simpl.
  destruct (decide (k ≠ k)); [congruence|]. by apply jsmap_delete_absent.
Qed.

Lemma jsmap_set_absent k v m : k ∉ jsmap_keys m → jsmap_set k v m = m ++ [(k, v)].
Proof.
  induction m as [|[k' v'] m IH]; [done|]. simpl.
  rewrite not_elem_of_cons. intros [Hne Hn].
  destruct (decide (k = k')); [congruence|]. by rewrite IH.
Qed.

Lemma jsmap_keys_set k v m :
  jsmap_keys (jsmap_set k v m) =
    if jsmap_has k m then jsmap_keys m else jsmap_keys m ++ [k].
Proof.
  unfold jsmap_has, jsmap_keys. induction m as [|[k' v'] m IH].
  - rewrite bool_decide_eq_false_2; [done | apply not_elem_of_nil].
  - cbn [jsmap_set]. destruct (decide (k = k')) as [->|Hne].
    + rewrite bool_decide_eq_true_2; [done | rewrite fmap_cons; left].
    + rewrite !fmap_cons, IH. cbn [fst].
      case_bool_decide as H1; case_bool_decide as H2; try done.
      * exfalso. apply H2. by right.
      * apply elem_of_cons in H2 as [?|?]; done.
Qed.

Lemma jsmap_set_wf k v m : jsmap_wf m → jsmap_wf (jsmap_set k v m).
Proof.
  unfold jsmap_wf. rewrite jsmap_keys_set. unfold jsmap_has.
  case_bool_decide as Hin; [done|].
  intros Hnd. apply NoDup_app. split_and!; [done | | apply NoDup_singleton].
  intros x Hx Hx'. apply list_elem_of_singleton in Hx'. congruence.
Qed.

Lemma jsmap_set_length k v m :
  length (jsmap_set k v m) = if jsmap_has k m then length m else S (length m).
Proof.
  rewrite <- (length_fmap fst (jsmap_set k v m)).
  change (fst <$> jsmap_set k v m) with (jsmap_keys (jsmap_set k v m)).
  rewrite jsmap_keys_set. unfold jsmap_keys.
  destruct (jsmap_has k m); [by rewrite length_fmap|].
  rewrite length_app, length_fmap. simpl. lia.
Qed.

Lemma jsmap_get_app k m1 m2 :
  jsmap_get k (m1 ++ m2) =
    match jsmap_get k m1 with Some v => Some v | None => jsmap_get k m2 end.
Proof.
  induction m1 as [|[k' v'] m1 IH]; [done|]. simpl.
  destruct (decide (k = k')); done.
Qed.

Lemma jsmap_get_delete k k' m :
  jsmap_get k' (jsmap_delete k m) = if decide (k' = k) then None else jsmap_get k' m.
Proof.
  destruct (decide (k' = k)) as [->|Hne].
  - apply jsmap_get_None, jsmap_delete_not_in.
  - unfold jsmap_delete. induction m as [|[k0 v0] m IH]; [done|].
    rewrite filter_cons. simpl.
    destruct (decide (k0 ≠ k)) as [Hk|Hk]; simpl.
    + rewrite IH. done.
    + rewrite IH. destruct (decide (k' = k0)) as [->|]; [|done].
      exfalso. apply Hk. congruence.
Qed.
End JSMapFacts.

Section JSMapMoreFacts.
Context {K V : Type} `{EqDecision K}.
Implicit Types (m : list (K * V)) (k : K) (v : V).

Lemma jsmap_get_set k k' v m :
  jsmap_get k' (jsmap_set k v m) = if decide (k' = k) then Some v else jsmap_get k' m.
Proof.
  induction m as [|[k0 v0] m IH]; simpl.
  - destruct (decide (k' = k)); done.
  - destruct (decide (k = k0)) as [->|Hne]; simpl.
    + destruct (decide (k' = k0)); done.
    + rewrite IH. destruct (decide (k' = k0)) as [->|]; [|done].
      destruct (decide (k0 = k)); [congruence | done].
Qed.

Lemma jsmap_delete_length_lt k m :
  k ∈ jsmap_keys m → (length (jsmap_delete k m) < length m)%nat.
Proof.
  unfold jsmap_keys, jsmap_delete.
  induction m as [|[k0 v0] m IH]; [intros Hin; by apply elem_of_nil in Hin|].
  rewrite fmap_cons, elem_of_cons, filter_cons. cbn [fst length].
  destruct (decide (k0 ≠ k)) as [Hk|Hk]; cbn [length].
  - intros [->|Hin]; [done|]. specialize (IH Hin). lia.
  - intros _. pose proof (length_filter (λ p : K * V, p.1 ≠ k) m). lia.
Qed.

Lemma jsmap_first_key_in k m : jsmap_first_key m = Some k → k ∈ jsmap_keys m.
Proof.
  unfold jsmap_first_key. destruct (jsmap_keys m) as [|k0 ks]; [done|].
  simpl. intros [= ->]. left.
Qed.

Lemma jsmap_last_key_snoc k v m : last (jsmap_keys (m ++ [(k, v)])) = Some k.
Proof. unfold jsmap_keys. rewrite fmap_app. apply last_snoc. Qed.

(** Moving a key to the back: delete it, then set it. *)
Lemma jsmap_set_delete k v m :
  jsmap_set k v (jsmap_delete k m) = jsmap_delete k m ++ [(k, v)].
Proof. apply jsmap_set_absent, jsmap_delete_not_in. Qed.
End JSMapMoreFacts.

(** ** JavaScript numbers *)
Module JSNumberFacts.
Import JSNumber.

Lemma denominator_pos e : 0 < denominator e.
Proof. unfold denominator. apply Z.pow_pos_nonneg; lia. Qed.

Lemma compare_whole s m e :
  compare (of_Z s) (Finite m e) = Some (s * denominator e ?= numerator m e).
Proof. done. Qed.

Lemma compare_whole_r s m e :
  compare (Finite m e) (of_Z s) = Some (numerator m e ?= s * denominator e).
Proof. unfold compare, of_Z, numerator, denominator. by rewrite (Z.min_comm e 0). Qed.

Lemma lt_whole s m e : lt (of_Z s) (Finite m e) = true ↔ s * denominator e < numerator m e.
Proof.
  unfold lt. rewrite compare_whole.
  destruct (Z.compare_spec (s * denominator e) (numerator m e)); split; (done || lia).
Qed.

Lemma le_whole s m e : le (of_Z s) (Finite m e) = true ↔ s * denominator e ≤ numerator m e.
Proof.
  unfold le. rewrite compare_whole.
  destruct (Z.compare_spec (s * denominator e) (numerator m e)); split; (done || lia).
Qed.

Lemma ge_whole s m e : ge (of_Z s) (Finite m e) = true ↔ numerator m e ≤ s * denominator e.
Proof.
  unfold ge, le. rewrite compare_whole_r.
  destruct (Z.compare_spec (numerator m e) (s * denominator e)); split; (done || lia).
Qed.

Lemma strict_eq_whole s m e :
  strict_eq (Finite m e) (of_Z s) = true ↔ numerator m e = s * denominator e.
Proof.
  unfold strict_eq. rewrite compare_whole_r.
  destruct (Z.compare_spec (numerator m e) (s * denominator e)); split; (done || lia).
Qed.

Lemma compare_of_Z a b : compare (of_Z a) (of_Z b) = Some (a ?= b).
Proof. unfold compare, of_Z. simpl. by rewrite !Z.mul_1_r. Qed.

Lemma lt_of_Z a b : lt (of_Z a) (of_Z b) = bool_decide (a < b).
Proof.
  unfold lt. rewrite compare_of_Z.
  destruct (Z.compare_spec a b); case_bool_decide; (done || lia).
Qed.

Lemma le_of_Z a b : le (of_Z a) (of_Z b) = bool_decide (a ≤ b).
Proof.
  unfold le. rewrite compare_of_Z.
  destruct (Z.compare_spec a b); case_bool_decide; (done || lia).
Qed.

Lemma strict_eq_of_Z a b : strict_eq (of_Z a) (of_Z b) = bool_decide (a = b).
Proof.
  unfold strict_eq. rewrite compare_of_Z.
  destruct (Z.compare_spec a b); case_bool_decide; (done || lia).
Qed.

Lemma log2_safe z : Z.abs z < 2 ^ 53 → Z.log2 (Z.abs z) - 52 ≤ 0.
Proof.
  intros Hz. destruct (decide (Z.abs z = 0)) as [->|Hne]; [done|].
  assert (Z.log2 (Z.abs z) < 53); [|lia].
  apply Z.log2_lt_pow2; lia.
Qed.

(** Below [2^53] in size every whole number is a double. *)
Lemma round53_safe m e : Z.abs m < 2 ^ 53 → round53 m e = Finite m e.
Proof.
  intros Hm. unfold round53. pose proof (log2_safe m Hm) as Hk.
  by rewrite (proj2 (Z.leb_le _ _) Hk).
Qed.

Lemma round_whole_safe z : Z.abs z ≤ 2 ^ 53 → round_whole z = z.
Proof.
  intros Hz. destruct (decide (Z.abs z = 2 ^ 53)) as [Heq|Hne].
  - assert (z = 2 ^ 53 ∨ z = - 2 ^ 53) as [-> | ->] by lia; reflexivity.
  - unfold round_whole.
    assert (Hk : Z.log2 (Z.abs z) - 52 ≤ 0) by (apply log2_safe; lia).
    by rewrite (proj2 (Z.leb_le _ _) Hk).
Qed.

Lemma sub1_of_Z n : Z.abs (n - 1) < 2 ^ 53 → sub1 (of_Z n) = of_Z (n - 1).
Proof.
  intros Hn. unfold sub1, of_Z. simpl. rewrite Z.mul_1_r.
  by apply round53_safe.
Qed.

Lemma denominator_nonpos e : e ≤ 0 → denominator e = 2 ^ (- e).
Proof. intros He. unfold denominator. f_equal. lia. Qed.

Lemma numerator_nonpos m e : e ≤ 0 → numerator m e = m.
Proof.
  intros He. unfold numerator. replace (e - Z.min 0 e) with 0 by lia. lia.
Qed.

(** Comparing a whole number with a number whose value is whole. *)
Lemma compare_whole_value i m e n :
  numerator m e = n * denominator e →
  compare (of_Z i) (Finite m e) = Some (i ?= n).
Proof.
  intros Hn. rewrite compare_whole, Hn. f_equal.
  pose proof (denominator_pos e) as Hpos.
  destruct (Z.compare_spec (i * denominator e) (n * denominator e)),
           (Z.compare_spec i n); (done || nia).
Qed.

(** One less than a number whose value is a whole number [1 ≤ n ≤ 2^53]
    has the value [n - 1]: the subtraction is exact. *)
Lemma sub1_whole m e n i :
  numerator m e = n * denominator e →
  1 ≤ n ≤ 2 ^ 53 →
  compare (of_Z i) (sub1 (Finite m e)) = Some (i ?= n - 1).
Proof.
  intros Hn Hsafe. unfold sub1.
  set (j := 0 - Z.min 0 e).
  assert (Hj : 0 ≤ j) by lia.
  replace (Z.min e 0) with (- j) by lia.
  replace (m * 2 ^ (e - - j)) with (numerator m e)
    by (unfold numerator; do 2 f_equal; lia).
  replace (0 - - j) with j by lia.
  rewrite Hn. change (denominator e) with (2 ^ j).
  replace (n * 2 ^ j - 2 ^ j) with ((n - 1) * 2 ^ j) by lia.
  assert (Hpow : 0 < 2 ^ j) by (apply Z.pow_pos_nonneg; lia).
  unfold round53.
  destruct (Z.leb_spec (Z.log2 (Z.abs ((n - 1) * 2 ^ j)) - 52) 0) as [Hk|Hk].
  - apply compare_whole_value.
    rewrite numerator_nonpos, denominator_nonpos by lia. by rewrite Z.opp_involutive.
  - rewrite Z.abs_eq in Hk |- * by nia.
    assert (Hpos : 0 < n - 1).
    { destruct (decide (n - 1 = 0)) as [Hz|]; [|lia].
      rewrite Hz in Hk. simpl in Hk. lia. }
    rewrite Z.log2_mul_pow2 in Hk |- * by lia.
    assert (Hlog : Z.log2 (n - 1) < 53) by (apply Z.log2_lt_pow2; lia).
    set (k := j + Z.log2 (n - 1) - 52) in *.
    assert (Hsplit : (n - 1) * 2 ^ j = (n - 1) * 2 ^ (j - k) * 2 ^ k).
    { rewrite <- Z.mul_assoc, <- Z.pow_add_r by lia. do 2 f_equal. lia. }
    assert (Hpk : 0 < 2 ^ k) by (apply Z.pow_pos_nonneg; lia).
    unfold round_half_even. rewrite Hsplit.
    rewrite Z.div_mul, Z.mod_mul by lia.
    rewrite (proj2 (Z.ltb_lt _ _)) by lia.
    apply compare_whole_value.
    rewrite numerator_nonpos, denominator_nonpos by lia.
    do 2 f_equal. lia.
Qed.

(** Comparisons of a whole number with a number whose value is the whole
    number [n]. *)
Lemma whole_numerator x n :
  strict_eq x (of_Z n) = true →
  ∃ m e, x = Finite m e ∧ numerator m e = n * denominator e.
Proof.
  destruct x as [m e|[|]|]; try done.
  intros Hx. exists m, e. split; [done|]. by apply strict_eq_whole.
Qed.

Lemma whole_lt i x n : strict_eq x (of_Z n) = true → lt (of_Z i) x = bool_decide (i < n).
Proof.
  intros (m & e & -> & Hn)%whole_numerator.
  unfold lt. rewrite (compare_whole_value i m e n Hn).
  destruct (Z.compare_spec i n); case_bool_decide; (done || lia).
Qed.

Lemma whole_le i x n : strict_eq x (of_Z n) = true → le (of_Z i) x = bool_decide (i ≤ n).
Proof.
  intros (m & e & -> & Hn)%whole_numerator.
  unfold le. rewrite (compare_whole_value i m e n Hn).
  destruct (Z.compare_spec i n); case_bool_decide; (done || lia).
Qed.

Lemma whole_strict_eq i x n :
  strict_eq x (of_Z n) = true → strict_eq (of_Z i) x = bool_decide (i = n).
Proof.
  intros (m & e & -> & Hn)%whole_numerator.
  unfold strict_eq. rewrite (compare_whole_value i m e n Hn).
  destruct (Z.compare_spec i n); case_bool_decide; (done || lia).
Qed.

Lemma whole_sub1 i x n :
  strict_eq x (of_Z n) = true → 1 ≤ n ≤ 2 ^ 53 →
  strict_eq (of_Z i) (sub1 x) = bool_decide (i = n - 1).
Proof.
  intros (m & e & -> & Hn)%whole_numerator Hsafe.
  unfold strict_eq. rewrite (sub1_whole m e n i Hn Hsafe).
  destruct (Z.compare_spec i (n - 1)); case_bool_decide; (done || lia).
Qed.

(** [round_whole] is [round53] on whole numbers. *)
Lemma round_whole_round53 z : strict_eq (of_Z (round_whole z)) (round53 z 0) = true.
Proof.
  unfold round_whole, round53, strict_eq.
  destruct (Z.leb_spec (Z.log2 (Z.abs z) - 52) 0) as [Hk|Hk].
  - unfold compare, of_Z. by rewrite Z.compare_refl.
  - rewrite compare_whole. unfold denominator, numerator.
    rewrite Z.min_l by lia. replace (0 - 0) with 0 by lia.
    replace (0 + (Z.log2 (Z.abs z) - 52) - 0) with (Z.log2 (Z.abs z) - 52) by lia.
    by rewrite Z.mul_1_r, Z.compare_refl.
Qed.

(** The successor of [2^53] is not a double: it is rounded back. *)
Example round_whole_beyond_safe :
  round_whole (2 ^ 53 + 1) = 2 ^ 53 ∧ round_whole (2 ^ 53 + 3) = 2 ^ 53 + 4.
Proof. split; reflexivity. Qed.

(** On the samples, the rounding and the subtraction of the model give the
    doubles that the Standard Library's IEEE 754 operations give. *)
Example rounding_is_IEEE :
  Forall (λ s, strict_eq (round53 s.1 s.2) (of_spec_float (double s.1 s.2)) = true)
         rounding_samples.
Proof. repeat constructor. Qed.

Example subtraction_is_IEEE :
  Forall (λ s, strict_eq (sub1 (Finite s.1 s.2))
                 (of_spec_float (double_sub (double s.1 s.2) (double 1 0))) = true)
         subtraction_samples.
Proof. repeat constructor. Qed.

End JSNumberFacts.

(** ** LRUCache *)
Module LRUCacheFacts.
Import LRUCache.

Lemma get_capacity key c : capacity (get key c).2 = capacity c.
Proof. unfold get. destruct (jsmap_has key (cache c)); done. Qed.

Lemma put_capacity key value c : capacity (put key value c) = capacity c.
Proof. done. Qed.

Lemma step_capacity c o : capacity (step c o) = capacity c.
Proof. destruct o; [apply get_capacity | apply put_capacity]. Qed.

Lemma get_wf key c : jsmap_wf (cache c) → jsmap_wf (cache (get key c).2).
Proof.
  intros Hwf. unfold get. destruct (jsmap_has key (cache c)); [|done].
  simpl. by apply jsmap_set_wf, jsmap_delete_wf.
Qed.

Lemma put_wf key value c : jsmap_wf (cache c) → jsmap_wf (cache (put key value c)).
Proof.
  intros Hwf. unfold put. simpl. apply jsmap_set_wf.
  destruct (jsmap_has key (cache c)); [by apply jsmap_delete_wf|].
  case_bool_decide; [|done].
  destruct (jsmap_first_key (cache c)); [by apply jsmap_delete_wf | done].
Qed.

Lemma step_wf c o : jsmap_wf (cache c) → jsmap_wf (cache (step c o)).
Proof. destruct o; [apply get_wf | apply put_wf]. Qed.

(** Re-inserting a key that was present does not grow the Map. *)
Lemma refresh_length (key value : val) (m : list (val * val)) :
  jsmap_has key m = true →
  (length (jsmap_set key value (jsmap_delete key m)) ≤ length m)%nat.
Proof.
  intros Hhas. apply jsmap_has_true in Hhas.
  rewrite jsmap_set_delete, length_app. simpl.
  pose proof (jsmap_delete_length_lt key m Hhas). lia.
Qed.

Lemma get_size key c :
  (jsmap_size (cache (get key c).2) ≤ jsmap_size (cache c))%nat.
Proof.
  unfold get, jsmap_size.
  destruct (jsmap_has key (cache c)) eqn:Hhas; [|done].
  simpl. by apply refresh_length.
Qed.

Lemma put_size key value c :
  1 ≤ capacity c →
  Z.of_nat (jsmap_size (cache c)) ≤ capacity c →
  Z.of_nat (jsmap_size (cache (put key value c))) ≤ capacity c.
Proof.
  intros Hcap Hsize. unfold put, jsmap_size in *. simpl.
  destruct (jsmap_has key (cache c)) eqn:Hhas.
  - pose proof (refresh_length key value _ Hhas). lia.
  - rewrite jsmap_set_length.
    case_bool_decide as Hfull.
    + destruct (jsmap_first_key (cache c)) as [firstKey|] eqn:Hfirst.
      * apply jsmap_first_key_in in Hfirst.
        pose proof (jsmap_delete_length_lt firstKey _ Hfirst).
        destruct (jsmap_has key (jsmap_delete firstKey (cache c))); lia.
      * destruct (cache c); [simpl in *; lia | done].
    + rewrite Hhas. lia.
Qed.

Lemma step_size c o :
  1 ≤ capacity c →
  Z.of_nat (jsmap_size (cache c)) ≤ capacity c →
  Z.of_nat (jsmap_size (cache (step c o))) ≤ capacity (step c o).
Proof.
  intros Hcap Hsize. rewrite step_capacity. destruct o as [key|key value]; simpl.
  - pose proof (get_size key c). lia.
  - by apply put_size.
Qed.

Lemma invariant_new cap : 1 ≤ cap → invariant cap (new cap).
Proof.
  intros Hcap. unfold invariant, new, jsmap_wf. simpl.
  split_and!; [done | apply NoDup_nil_2 | lia].
Qed.

Lemma invariant_step cap c o : 1 ≤ cap → invariant cap c → invariant cap (step c o).
Proof.
  intros Hcap (Hc & Hwf & Hsize). unfold invariant.
  pose proof (step_capacity c o) as Hc'.
  split_and!; [congruence | by apply step_wf |].
  rewrite <- Hc, <- Hc'. apply step_size; lia.
Qed.

Lemma invariant_run cap ops c : 1 ≤ cap → invariant cap c → invariant cap (run ops c).
Proof.
  intros Hcap. revert c. unfold run.
  induction ops as [|o ops IH]; intros c Hinv; [done|].
  simpl. apply IH. by apply invariant_step.
Qed.

Lemma reachable_invariant cap c : 1 ≤ cap → reachable cap c → invariant cap c.
Proof.
  intros Hcap [ops ->]. apply invariant_run; [done|]. by apply invariant_new.
Qed.

(** C1. For a cache built with capacity at least 1 and then used through
    get and put: get of a present key returns the stored value and moves
    the key to the most recent end, every other entry keeping its place
    and value; get of an absent key returns -1 and changes nothing; put of
    a present key replaces the value and moves the key to the most recent
    end, no other entry being removed; put of a new key into a cache that
    holds capacity entries removes the first entry in insertion order
    and only that one, then adds the new entry at the most recent end. *)
Theorem lru_get_put_spec (cap : Z) (c : t) :
  1 ≤ cap →
  reachable cap c →
  (∀ key v, jsmap_get key (cache c) = Some v →
     (get key c).1 = v ∧
     cache (get key c).2 = jsmap_delete key (cache c) ++ [(key, v)] ∧
     most_recent (get key c).2 = Some key) ∧
  (∀ key, jsmap_get key (cache c) = None → get key c = (VNum (-1), c)) ∧
  (∀ key value old, jsmap_get key (cache c) = Some old →
     cache (put key value c) = jsmap_delete key (cache c) ++ [(key, value)] ∧
     most_recent (put key value c) = Some key) ∧
  (∀ key value, jsmap_get key (cache c) = None →
     Z.of_nat (jsmap_size (cache c)) = cap →
     ∃ firstKey firstValue rest,
       cache c = (firstKey, firstValue) :: rest ∧
       cache (put key value c) = rest ++ [(key, value)] ∧
       jsmap_get firstKey (cache (put key value c)) = None ∧
       (∀ k, k ≠ firstKey → k ≠ key →
          jsmap_get k (cache (put key value c)) = jsmap_get k (cache c))).
Proof.
  intros Hcap Hreach.
  destruct (reachable_invariant cap c Hcap Hreach) as (Hc & Hwf & Hsize).
  split_and!.
  - intros key v Hget. unfold get, most_recent.
    rewrite (jsmap_get_Some_has _ _ _ Hget), Hget. simpl.
    rewrite jsmap_set_delete. split_and!; [done | done |].
    apply jsmap_last_key_snoc.
  - intros key Hget. unfold get. by rewrite (jsmap_get_None_has _ _ Hget).
  - intros key value old Hget. unfold put, most_recent.
    rewrite (jsmap_get_Some_has _ _ _ Hget). simpl.
    rewrite jsmap_set_delete. split; [done|].
    apply jsmap_last_key_snoc.
  - intros key value Hget Hfull. unfold put.
    rewrite (jsmap_get_None_has _ _ Hget).
    rewrite bool_decide_eq_true_2 by lia.
    destruct (cache c) as [|[firstKey firstValue] rest] eqn:Hcache.
    { unfold jsmap_size in Hfull. simpl in Hfull. lia. }
    exists firstKey, firstValue, rest.
    assert (Hne : key ≠ firstKey).
    { intros ->. simpl in Hget. by rewrite decide_True in Hget. }
    assert (Hrest : key ∉ jsmap_keys rest).
    { apply jsmap_get_None. simpl in Hget. by rewrite decide_False in Hget. }
    assert (Hfirst : firstKey ∉ jsmap_keys rest).
    { unfold jsmap_wf in Hwf. simpl in Hwf. by apply NoDup_cons in Hwf as [? _]. }
    cbn [jsmap_first_key jsmap_keys fmap list_fmap fst head].
    simpl. rewrite (jsmap_delete_head _ _ _ Hwf).
    rewrite (jsmap_set_absent _ _ _ Hrest).
    split_and!; [done | done | |].
    + rewrite jsmap_get_app. simpl.
      apply jsmap_get_None in Hfirst. rewrite Hfirst.
      by rewrite decide_False by congruence.
    + intros k Hk1 Hk2. rewrite jsmap_get_app. simpl.
      rewrite !(decide_False _ _) by done.
      by destruct (jsmap_get k rest).
Qed.

End LRUCacheFacts.

Module LRUCacheExamples.
Import LRUCache LRUCacheFacts.

Lemma lru_get_put_spec_witness :
  1 ≤ 2 ∧ reachable 2 two_entries ∧
  (get (VNum 1) two_entries).1 = VStr "a" ∧
  cache (put (VNum 3) (VStr "c") two_entries) =
    [(VNum 2, VStr "b"); (VNum 3, VStr "c")].
Proof.
  assert (Hcap : 1 ≤ 2) by lia.
  assert (Hreach : reachable 2 two_entries) by (eexists; reflexivity).
  destruct (lru_get_put_spec 2 two_entries Hcap Hreach) as (Hget & _ & _ & Hput).
  split_and!; [done | done | |].
  - by apply (Hget (VNum 1) (VStr "a")).
  - reflexivity.
Defined.

(** The textbook trace: reading key 1 saves it from the next eviction. *)
Example lru_get_protects :
  cache (run [Put (VNum 1) (VStr "a"); Put (VNum 2) (VStr "b");
              Get (VNum 1); Put (VNum 3) (VStr "c")] (new 2)) =
    [(VNum 1, VStr "a"); (VNum 3, VStr "c")].
Proof. reflexivity. Qed.

End LRUCacheExamples.

(** ** LRUCache with any capacity *)
Module LRUCacheCapacityFacts.
Import JSNumber JSNumberFacts LRUCache LRUCacheAnyCapacity.

Lemma any_get_capacity key c : capacity (get key c).2 = capacity c.
Proof. unfold get. destruct (jsmap_has key (cache c)); done. Qed.

Lemma any_step_capacity c o : capacity (step c o) = capacity c.
Proof. destruct o; [apply any_get_capacity | done]. Qed.

Lemma any_get_size key c : size (get key c).2 ≤ size c.
Proof.
  unfold get, size, jsmap_size.
  destruct (jsmap_has key (cache c)) eqn:Hhas; [|done].
  simpl. pose proof (LRUCacheFacts.refresh_length key
    (default VUndefined (jsmap_get key (cache c))) _ Hhas). lia.
Qed.

(** A put adds at most one entry, and none to a cache that [put] finds
    full, unless it is empty. *)
Lemma any_put_size key value c :
  size (put key value c) ≤ size c + 1 ∧
  (jsmap_has key (cache c) = true → size (put key value c) ≤ size c) ∧
  (ge (of_Z (size c)) (capacity c) = true → 1 ≤ size c →
     size (put key value c) ≤ size c).
Proof.
  unfold put, size, jsmap_size. cbn [cache].
  destruct (jsmap_has key (cache c)) eqn:Hhas.
  - pose proof (LRUCacheFacts.refresh_length key value _ Hhas).
    split_and!; intros; lia.
  - split_and!; [| done |].
    + rewrite jsmap_set_length. 
      destruct (ge _ _).
      * destruct (jsmap_first_key (cache c)) as [firstKey|] eqn:Hfirst.
        -- apply jsmap_first_key_in in Hfirst.
           pose proof (jsmap_delete_length_lt firstKey _ Hfirst).
           destruct (jsmap_has key (jsmap_delete firstKey (cache c))); lia.
        -- rewrite Hhas. lia.
      * rewrite Hhas. lia.
    + intros -> Hsome. rewrite jsmap_set_length.
      destruct (jsmap_first_key (cache c)) as [firstKey|] eqn:Hfirst.
      * apply jsmap_first_key_in in Hfirst.
        pose proof (jsmap_delete_length_lt firstKey _ Hfirst).
        destruct (jsmap_has key (jsmap_delete firstKey (cache c))); lia.
      * destruct (cache c); [simpl in Hsome; lia | done].
Qed.

(** What every operation preserves: the cache holds fewer than
    capacity + 1 entries. *)
Lemma step_fits c o :
  le (of_Z 1) (capacity c) = true →
  lt (of_Z (size c - 1)) (capacity c) = true →
  lt (of_Z (size (step c o) - 1)) (capacity (step c o)) = true.
Proof.
  intros Hcap Hfits. rewrite any_step_capacity.
  destruct (capacity c) as [m e|[|]|] eqn:Hc; try done.
  apply lt_whole in Hfits. apply le_whole in Hcap. apply lt_whole.
  pose proof (denominator_pos e) as HP.
  destruct o as [key|key value]; cbn [step].
  - pose proof (any_get_size key c). nia.
  - destruct (any_put_size key value c) as (Hone & _ & Hfull).
    assert (Hsize : 0 ≤ size c) by (unfold size; lia).
    destruct (ge (of_Z (size c)) (capacity c)) eqn:Hge.
    + destruct (decide (1 ≤ size c)) as [Hsome|Hnone].
      * specialize (Hfull eq_refl Hsome). nia.
      * nia.
    + rewrite Hc in Hge.
      assert (Hlt : size c * denominator e < numerator m e).
      { destruct (Z.lt_ge_cases (size c * denominator e) (numerator m e)) as [|Hle]; [done|].
        apply Z.ge_le_iff in Hle. apply Z.ge_le in Hle.
        apply ge_whole in Hle. congruence. }
      nia.
Qed.

Lemma run_fits ops c :
  le (of_Z 1) (capacity c) = true →
  lt (of_Z (size c - 1)) (capacity c) = true →
  lt (of_Z (size (run ops c) - 1)) (capacity c) = true ∧
  capacity (run ops c) = capacity c.
Proof.
  revert c. unfold run. induction ops as [|o ops IH]; intros c Hcap Hfits; [done|].
  simpl. pose proof (any_step_capacity c o) as Hc.
  destruct (IH (step c o)) as [Hrun Hcrun].
  - by rewrite Hc.
  - by apply step_fits.
  - rewrite Hc in Hrun, Hcrun. done.
Qed.

(** With a whole or an infinite capacity, fewer than capacity + 1 entries
    are at most capacity entries. *)
Lemma fits_whole s cap :
  is_whole cap ∨ cap = Infinity false →
  lt (of_Z (s - 1)) cap = true ↔ le (of_Z s) cap = true.
Proof.
  intros [[n Hn] | ->]; [|done].
  destruct cap as [m e|[|]|]; try done.
  apply strict_eq_whole in Hn. rewrite lt_whole, le_whole.
  pose proof (denominator_pos e) as HP. rewrite Hn.
  rewrite <- (Z.mul_lt_mono_pos_r _ _ _ HP), <- (Z.mul_le_mono_pos_r _ _ _ HP). lia.
Qed.

(** With a whole capacity the cache is the cache of [LRUCache]. *)
Lemma of_whole_step c o : step (of_whole c) o = of_whole (LRUCache.step c o).
Proof.
  destruct o as [key|key value]; cbn [step LRUCache.step].
  - unfold get, LRUCache.get, of_whole. cbn [cache capacity].
    by destruct (jsmap_has key (LRUCache.cache c)).
  - unfold put, LRUCache.put, of_whole, ge. cbn [cache capacity LRUCache.cache LRUCache.capacity].
    by rewrite le_of_Z.
Qed.

Lemma of_whole_run ops c : run ops (of_whole c) = of_whole (LRUCache.run ops c).
Proof.
  revert c. unfold run, LRUCache.run.
  induction ops as [|o ops IH]; intros c; [done|].
  simpl. by rewrite of_whole_step, IH.
Qed.

(** C8, as the code has it.  Built with a capacity of at least 1, the cache
    holds fewer than capacity + 1 entries whatever gets and puts are applied
    to it; so it never holds more than capacity entries when the capacity is
    a whole number or infinite, and every single get and put keeps that
    bound. *)
Theorem lru_size_bounded (cap : number) (ops : list op) :
  le (of_Z 1) cap = true →
  lt (of_Z (size (run ops (new cap)) - 1)) cap = true ∧
  (is_whole cap ∨ cap = Infinity false →
     le (of_Z (size (run ops (new cap)))) cap = true ∧
     ∀ c o, capacity c = cap →
       le (of_Z (size c)) cap = true →
       le (of_Z (size (step c o))) cap = true ∧ capacity (step c o) = cap).
Proof.
  intros Hcap.
  assert (Hnew : lt (of_Z (size (new cap) - 1)) (capacity (new cap)) = true).
  { change (lt (of_Z (0 - 1)) cap = true).
    destruct cap as [m e|[|]|]; try done.
    apply lt_whole. apply le_whole in Hcap.
    pose proof (denominator_pos e). lia. }
  destruct (run_fits ops (new cap) Hcap Hnew) as [Hrun _]. cbn [capacity new] in Hrun.
  split; [done|]. intros Hwhole. split; [by apply fits_whole|].
  intros c o Hc Hsize. pose proof (any_step_capacity c o) as Hc'.
  split; [|congruence].
  apply fits_whole; [done|]. rewrite <- Hc, <- Hc'.
  apply step_fits; rewrite Hc; [done|]. by apply fits_whole.
Qed.

Lemma lru_size_bounded_witness :
  le (of_Z 1) (of_Z 2) = true ∧
  (is_whole (of_Z 2) ∨ of_Z 2 = Infinity false) ∧
  le (of_Z (size (run [Put (VNum 1) VNull; Put (VNum 2) VNull;
                       Get (VNum 1); Put (VNum 3) VNull] (new (of_Z 2)))))
     (of_Z 2) = true.
Proof.
  assert (Hcap : le (of_Z 1) (of_Z 2) = true) by reflexivity.
  assert (Hwhole : is_whole (of_Z 2) ∨ of_Z 2 = Infinity false)
    by (left; exists 2; reflexivity).
  split_and!; [done | done |].
  exact (proj1 (proj2 (lru_size_bounded (of_Z 2)
                  [Put (VNum 1) VNull; Put (VNum 2) VNull; Get (VNum 1);
                   Put (VNum 3) VNull] Hcap) Hwhole)).
Defined.

(** A capacity of one and a half is at least 1, and after two puts the
    cache holds two entries: more than its capacity. *)
Lemma lru_fractional_capacity :
  le (of_Z 1) one_and_a_half = true ∧
  size (run [Put (VNum 1) VNull; Put (VNum 2) VNull] (new one_and_a_half)) = 2 ∧
  le (of_Z (size (run [Put (VNum 1) VNull; Put (VNum 2) VNull] (new one_and_a_half))))
     one_and_a_half = false.
Proof. split_and!; reflexivity. Qed.

End LRUCacheCapacityFacts.

(** ** Event emitters *)
Module EmitterFacts.
Import Emitter.




(** *** Calling the callbacks one after the other *)
Section Dispatch.
Context {W : Type}.
Variable body : callback → list val → closure W.




Lemma never_throw_all_return args cbs w :
  never_throw body args cbs → all_return body args cbs w.
Proof.
  revert w. induction cbs as [|cb rest IH]; intros w Hnever; [done|].
  destruct (Hnever cb w) as (w1 & r & Hcb); [left|].
  exists w1, r. split; [done|]. apply IH.
  intros c w' Hc. apply Hnever. by right.
Qed.








End Dispatch.


Lemma first_occurrences_spec (l : list callback) :
  NoDup (first_occurrences l) ∧ ∀ cb, cb ∈ first_occurrences l ↔ cb ∈ l.
Proof.
  induction l as [|x rest [IHnd IHin]]; simpl.
  - split; [apply NoDup_nil_2 | done].
  - split.
    + apply NoDup_cons. split; [|by apply NoDup_filter].
      rewrite list_elem_of_filter. intros [Hne _]. by apply Hne.
    + intros cb. rewrite !elem_of_cons, list_elem_of_filter, IHin.
      destruct (decide (cb = x)); tauto.
Qed.










(** With [once], EventSystem's emit does change the emitter: the
    listener is called and then gone. *)
Example event_system_once :
  let e := EventSystem.on (VStr "tick") 7%nat (EventSystem.mk_options true)
             EventSystem.new in
  EventSystem.emit logging (VStr "tick") VNull e [] =
    Emitted [(7%nat, [VNull])] (EventSystem.mk [(VStr "tick", [])]) [7%nat]
            (Return VUndefined).
Proof. reflexivity. Qed.

End EmitterFacts.

(** ** TestRunner *)
Module TestRunnerFacts.
Import TestRunner.

Section WithWorld.
Context {W : Type}.
Implicit Types (r : t W) (w : W) (res : @results).

(** A test that passes: both hooks ran around it. *)
Lemma try_block_passes r name testFn hookB hookA w w1 w2 w3 a b c :
  beforeEach r = Some hookB → afterEach r = Some hookA →
  hookB w = (w1, Return a) → testFn w1 = (w2, Return b) → hookA w2 = (w3, Return c) →
  try_block r name testFn w =
    (w3, [RanBeforeEach; RanTest name; RanAfterEach], Return tt).
Proof.
  intros HB HA H1 H2 H3.
  unfold try_block, bind, await_hook, await_call.
  by rewrite HB, HA, H1, H2, H3.
Qed.

(** A test that throws: the [catch] is entered straight from the test, and
    the afterEach hook is not run. *)
Lemma try_block_test_throws r name testFn hookB w w1 w2 a error :
  beforeEach r = Some hookB →
  hookB w = (w1, Return a) → testFn w1 = (w2, Throw error) →
  try_block r name testFn w = (w2, [RanBeforeEach; RanTest name], Throw error).
Proof.
  intros HB H1 H2.
  unfold try_block, bind, await_hook, await_call.
  by rewrite HB, H1, H2.
Qed.






(** The only way for runTests itself to throw is the [error.message] of a
    thrown [undefined] or [null]. *)
Lemma run_each_throws r entries res w w' tr e :
  run_each r entries res w = (w', tr, Throw e) → e = VError "TypeError".
Proof.
  revert res w w' tr.
  induction entries as [|[name testFn] rest IH]; intros res w w' tr Hrun.
  - done.
  - cbn [run_each] in Hrun.
    destruct (try_block r name testFn w) as [[w1 tr1] [[]|error]].
    + destruct (run_each r rest _ w1) as [[w2 tr2] o] eqn:Hrest.
      injection Hrun as <- <- ->. by eapply IH.
    + destruct error; simpl in Hrun;
        try (by injection Hrun as <- <- <-);
        destruct (run_each r rest _ w1) as [[w2 tr2] o] eqn:Hrest;
        injection Hrun as <- <- ->; by eapply IH.
Qed.

End WithWorld.

Example runTests_passing :
  runTests passing_suite [] =
    (["setup"; "works"; "cleanup"],
     [RanBeforeEach; RanTest (VStr "works"); RanAfterEach; LoggedPass (VStr "works")],
     Return {| passed := 1; failed := 0; total := 1; failures := [] |}).
Proof. reflexivity. Qed.

(** A test that throws [null] takes the runner down with it. *)
Example runTests_throws_on_null :
  runTests (test (VStr "odd") (log_and "odd" (Throw VNull)) new) [] =
    (["odd"], [RanTest (VStr "odd")], Throw (VError "TypeError")).
Proof. reflexivity. Qed.

(** C3, where the code departs from it.  The suite registers one test that
    throws, with a beforeEach and an afterEach hook.  runTests counts the
    failure and records its name and error, but the afterEach hook never
    runs: the world shows no cleanup and the trace no RanAfterEach. *)
Theorem runTests_skips_afterEach_on_failure :
  runTests failing_suite [] =
    (["setup"; "breaks"],
     [RanBeforeEach; RanTest (VStr "breaks");
      LoggedFail (VStr "breaks") (VError "boom")],
     Return {| passed := 0; failed := 1; total := 1;
               failures := [(VStr "breaks", VError "boom")] |}) ∧
  RanAfterEach ∉ (runTests failing_suite []).1.2.
Proof.
  split; [reflexivity|].
  vm_compute. intros H.
  repeat (apply elem_of_cons in H as [H|H]; [discriminate H|]).
  by apply elem_of_nil in H.
Qed.

End TestRunnerFacts.

(** ** Assertions.assertThrows *)
Module AssertionsFacts.
Import Assertions.

(** C9, as the code has it.  assertThrows never throws.  If fn throws, the
    value that it threw is returned, whatever it is; if fn returns, the
    error 'Expected function to throw' raised inside the try block is caught
    by the same catch and returned.  So an Error is returned when fn returned
    or threw an Error, and only then. *)
Theorem assertThrows_returns {W : Type} (fn : closure W) (w : W) :
  ∃ error, (assertThrows fn w).2 = Return error ∧
    (assertThrows fn w).1 = (fn w).1 ∧
    match (fn w).2 with
    | Throw e => error = e
    | Return _ => error = VError "Expected function to throw"
    end ∧
    (is_Error error ↔
       (∃ r, (fn w).2 = Return r) ∨ (∃ msg, (fn w).2 = Throw (VError msg))).
Proof.
  unfold assertThrows, assertThrows_try, is_Error.
  destruct (fn w) as [w1 [r|e]]; simpl.
  - eexists. split_and!; [done | done | done |]. split; [eauto|]. eauto.
  - exists e. split_and!; [done | done | done |]. split.
    + intros [msg ->]. right. by exists msg.
    + intros [[r Hr]|[msg [= ->]]]; [done | by exists msg].
Qed.

(** A function that throws undefined: assertThrows returns undefined,
    which is no Error. *)
Lemma assertThrows_not_an_Error :
  assertThrows (λ w : unit, (w, Throw VUndefined)) tt = (tt, Return VUndefined) ∧
  ¬ is_Error VUndefined ∧
  ¬ returns_an_Error (λ w : unit, (w, Throw VUndefined)) tt.
Proof.
  split_and!; [reflexivity | by intros [msg Hmsg] |].
  intros (error & Hreturn & msg & ->). discriminate Hreturn.
Qed.

Example assertThrows_on_throw :
  assertThrows (λ w : unit, (w, Throw (VError "bad input"))) tt =
    (tt, Return (VError "bad input")).
Proof. reflexivity. Qed.

Example assertThrows_on_return :
  assertThrows (λ w : unit, (w, Return (VNum 1))) tt =
    (tt, Return (VError "Expected function to throw")).
Proof. reflexivity. Qed.

End AssertionsFacts.

(** ** CircularBuffer *)
Module CircularBufferFacts.
Import CircularBuffer.

(** *** The counted buffer *)
Lemma counted_write_size value b : Counted.size (Counted.write value b) = Counted.size b.
Proof. done. Qed.

Lemma counted_read_size b : Counted.size (Counted.read b).2 = Counted.size b.
Proof. unfold Counted.read. by case_bool_decide. Qed.

Lemma counted_write_range value b : count_in_range b → count_in_range (Counted.write value b).
Proof. unfold count_in_range. simpl. lia. Qed.

Lemma counted_read_range b : count_in_range b → count_in_range (Counted.read b).2.
Proof.
  unfold count_in_range, Counted.read.
  case_bool_decide; simpl; lia.
Qed.

Lemma counted_run_range ops b :
  count_in_range b →
  count_in_range (Counted.run ops b).2 ∧
  Counted.size (Counted.run ops b).2 = Counted.size b.
Proof.
  revert b. induction ops as [|[value|] rest IH]; intros b Hb; simpl.
  - done.
  - destruct (IH (Counted.write value b)) as [Hr Hs].
    { by apply counted_write_range. }
    split; [done|]. by rewrite Hs.
  - pose proof (counted_read_range b Hb) as Hb1.
    pose proof (counted_read_size b) as Hs1.
    destruct (Counted.read b) as [value b1]. simpl in *.
    destruct (IH b1 Hb1) as [Hr Hs].
    destruct (Counted.run rest b1) as [values b2]. simpl in *.
    split; [done | congruence].
Qed.

Lemma counted_read_empty b : Counted.count b = 0 → Counted.read b = (VNull, b).
Proof. intros H0. unfold Counted.read. by rewrite bool_decide_eq_true_2. Qed.

(** C10. Whatever writes and reads are applied to a new counted buffer,
    its count stays between 0 and its size; and read on a buffer whose
    count is 0 returns null and hands back the buffer as it was (array,
    both pointers and count). *)
Theorem counted_buffer_invariant (size : nat) (ops : list op) :
  let b := (Counted.run ops (Counted.new size)).2 in
  Counted.size b = size ∧
  0 ≤ Counted.count b ≤ Z.of_nat size ∧
  (Counted.count b = 0 → Counted.read b = (VNull, b)).
Proof.
  intros b.
  destruct (counted_run_range ops (Counted.new size)) as [Hr Hs].
  { unfold count_in_range. simpl. lia. }
  fold b in Hr, Hs. unfold count_in_range in Hr. rewrite Hs in Hr. simpl in *.
  split_and!; [done | lia | lia | apply counted_read_empty].
Qed.

Lemma counted_buffer_invariant_witness :
  let b := (Counted.run [Write (VNum 1); Read] (Counted.new 2)).2 in
  Counted.count b = 0 ∧ Counted.read b = (VNull, b).
Proof.
  split; [reflexivity|].
  apply (counted_buffer_invariant 2 [Write (VNum 1); Read]). reflexivity.
Defined.

(** *** The two classes side by side *)
Lemma same_state_new size : same_state (Counted.new size) (Plain.new size).
Proof. done. Qed.

Lemma same_state_write value c p :
  same_state c p → same_state (Counted.write value c) (Plain.write value p).
Proof.
  intros (Hs & Hb & Hw & Hr). unfold same_state. simpl.
  by rewrite Hs, Hb, Hw, Hr.
Qed.

Lemma same_state_read c p :
  same_state c p → Counted.count c ≠ 0 →
  (Counted.read c).1 = (Plain.read p).1 ∧
  same_state (Counted.read c).2 (Plain.read p).2.
Proof.
  intros (Hs & Hb & Hw & Hr) Hne. unfold same_state, Counted.read, Plain.read.
  rewrite bool_decide_eq_false_2 by done. simpl.
  by rewrite Hs, Hb, Hw, Hr.
Qed.

Lemma run_agree ops c p :
  same_state c p →
  Counted.reads_nonempty ops c = true →
  (Counted.run ops c).1 = (Plain.run ops p).1 ∧
  same_state (Counted.run ops c).2 (Plain.run ops p).2.
Proof.
  revert c p. induction ops as [|[value|] rest IH]; intros c p Hsame Hne;
    cbn [Counted.run Plain.run Counted.reads_nonempty] in *.
  - done.
  - apply IH; [by apply same_state_write | done].
  - apply andb_true_iff in Hne as [Hcount Hrest].
    apply negb_true_iff, bool_decide_eq_false in Hcount.
    destruct (same_state_read c p Hsame Hcount) as [Hval Hsame1].
    destruct (Counted.read c) as [v1 c1], (Plain.read p) as [v2 p1]. simpl in *.
    destruct (IH c1 p1 Hsame1 Hrest) as [Hvals Hsame2].
    destruct (Counted.run rest c1) as [vs1 c2], (Plain.run rest p1) as [vs2 p2].
    simpl in *. split; [congruence | done].
Qed.

(** C4, as the code has it.  The sources define CircularBuffer twice, once
    with a count and once without.  On buffers of one size, and for every
    sequence of writes and reads in which no read finds the counted buffer
    empty, the two return the same values from their reads and end with
    the same size, array, write pointer and read pointer. *)
Theorem circular_buffers_agree (size : nat) (ops : list op) :
  Counted.reads_nonempty ops (Counted.new size) = true →
  length implementations = 2%nat ∧
  (Counted.run ops (Counted.new size)).1 = (Plain.run ops (Plain.new size)).1 ∧
  same_state (Counted.run ops (Counted.new size)).2 (Plain.run ops (Plain.new size)).2.
Proof.
  intros Hne. split; [done|].
  apply run_agree; [apply same_state_new | done].
Qed.

Lemma circular_buffers_agree_witness :
  Counted.reads_nonempty fill_and_drain (Counted.new 2) = true ∧
  (Counted.run fill_and_drain (Counted.new 2)).1 = [VNum 1; VNum 2; VNum 3] ∧
  (Plain.run fill_and_drain (Plain.new 2)).1 = [VNum 1; VNum 2; VNum 3].
Proof.
  assert (Hne : Counted.reads_nonempty fill_and_drain (Counted.new 2) = true)
    by reflexivity.
  destruct (circular_buffers_agree 2 fill_and_drain Hne) as (_ & Hvals & _).
  split_and!; [done | reflexivity | by rewrite <- Hvals].
Defined.

(** A read before the first write: the counted buffer answers null and
    stays put, the other answers the hole it points at and moves on, so
    the next read finds the written value in one and a hole in the
    other. *)
Lemma circular_buffers_differ :
  let ops := [Read; Write (VNum 1); Read] in
  length implementations = 2%nat ∧
  (Counted.run ops (Counted.new 2)).1 = [VNull; VNum 1] ∧
  (Plain.run ops (Plain.new 2)).1 = [VUndefined; VUndefined] ∧
  Counted.readPtr (Counted.run ops (Counted.new 2)).2 = JSArray.Idx 1 ∧
  Plain.readPtr (Plain.run ops (Plain.new 2)).2 = JSArray.Idx 0 ∧
  ¬ identical_behaviour ∧
  ¬ three_implementations.
Proof.
  split_and!; try reflexivity.
  - intros H. destruct (H 2%nat [Read; Write (VNum 1); Read]) as [Hvals _].
    vm_compute in Hvals. discriminate Hvals.
  - intros Hthree. discriminate Hthree.
Qed.

(** A buffer of size 0 never counts anything: its pointers turn into NaN
    and every read returns null. *)
Example counted_size_zero :
  Counted.run [Write (VNum 1); Read] (Counted.new 0) =
    ([VNull],
     {| Counted.size := 0;
        Counted.buffer := {| JSArray.cells := [VNum 1]; JSArray.nan_slot := VUndefined |};
        Counted.writePtr := JSArray.NaN;
        Counted.readPtr := JSArray.Idx 0;
        Counted.count := 0 |}).
Proof. reflexivity. Qed.

End CircularBufferFacts.

(** ** circuitBreaker *)
Module CircuitBreakerFacts.
Import AdvancedErrorHandling.

Section CircuitBreaker.
Context {W : Type}.
Variable now : W → Z.
Variable operation : list val → closure W.
Variable threshold : Z.

(** C5. With at least threshold failures counted and less than 60000 ms
    since the last one, a call throws 'Circuit breaker open', leaves the
    counter and the world alone and does not invoke operation.  With at
    least 60000 ms since the last failure the counter is reset to 0 and
    the call goes on to invoke operation.  Whenever the invoked operation
    throws, the counter goes up by one, the time of the failure is
    recorded and the same error is thrown to the caller. *)
Theorem circuit_breaker_spec (args : list val) (s : state) (w : W) :
  (threshold ≤ failures s →
   now w - to_number (lastFailure s) < 60000 →
   circuitBreaker now operation threshold args s w =
     (s, w, Throw (VError "Circuit breaker open"), [])) ∧
  (threshold ≤ failures s →
   60000 ≤ now w - to_number (lastFailure s) →
   circuitBreaker now operation threshold args s w =
     try_operation now operation args
       {| failures := 0; lastFailure := lastFailure s |} w) ∧
  (failures s < threshold →
   circuitBreaker now operation threshold args s w =
     try_operation now operation args s w) ∧
  (∀ s0 w1 error,
     operation args w = (w1, Throw error) →
     try_operation now operation args s0 w =
       ({| failures := failures s0 + 1; lastFailure := Some (now w1) |},
        w1, Throw error, [args])) ∧
  (∀ s0 w1 r,
     operation args w = (w1, Return r) →
     try_operation now operation args s0 w = (s0, w1, Return r, [args])).
Proof.
  unfold circuitBreaker, try_operation.
  split_and!.
  - intros Hopen Hrecent.
    by rewrite bool_decide_eq_true_2, bool_decide_eq_true_2.
  - intros Hopen Hlate.
    rewrite bool_decide_eq_true_2 by done.
    rewrite bool_decide_eq_false_2 by lia. done.
  - intros Hclosed. rewrite bool_decide_eq_false_2 by lia. done.
  - intros s0 w1 error ->. done.
  - intros s0 w1 r ->. done.
Qed.

End CircuitBreaker.

Lemma circuit_breaker_spec_witness :
  2 ≤ failures tripped ∧ id 5000 - to_number (lastFailure tripped) < 60000 ∧
  circuitBreaker id down 2 [] tripped 5000 =
    (tripped, 5000, Throw (VError "Circuit breaker open"), []).
Proof.
  assert (Hopen : 2 ≤ failures tripped) by (simpl; lia).
  assert (Hrecent : id 5000 - to_number (lastFailure tripped) < 60000)
    by (simpl; unfold id; lia).
  split_and!; [done | done |].
  by apply (circuit_breaker_spec id down 2 [] tripped 5000).
Defined.

(** A minute later the breaker lets the call through again; the call
    fails, so one failure is counted afresh. *)
Example circuit_breaker_half_open :
  circuitBreaker id down 2 [] tripped 61000 =
    ({| failures := 1; lastFailure := Some 61010 |}, 61010,
     Throw (VError "service down"), [[]]).
Proof. reflexivity. Qed.

(** Before any failure [lastFailure] is null: with a threshold of 0 the
    gate compares the clock itself with 60000. *)
Example circuit_breaker_threshold_zero :
  circuitBreaker id down 0 [] initial 61000 =
    ({| failures := 1; lastFailure := Some 61010 |}, 61010,
     Throw (VError "service down"), [[]]).
Proof. reflexivity. Qed.

End CircuitBreakerFacts.

(** ** The retry helpers *)
Module RetryFacts.
Import JSNumber JSNumberFacts RetryHelpers.

Lemma safe_succ i n : 0 ≤ i < n → n ≤ MAX_SAFE_INTEGER → round_whole (i + 1) = i + 1.
Proof. unfold MAX_SAFE_INTEGER. intros Hi Hn. apply round_whole_safe. lia. Qed.

(** The two class methods warn alike. *)
Lemma failed_attempts_same maxAttempts delay attempt errors :
  failed_attempts TheRetryOperation maxAttempts delay attempt errors =
    failed_attempts TheRetryMechanism maxAttempts delay attempt errors.
Proof.
  revert attempt. induction errors as [|error errors IH]; intros attempt; [done|].
  cbn [failed_attempts warns]. by rewrite IH.
Qed.

Section WithWorld.
Context {W : Type}.
Variable sleep : Z → W → W.

(** The loop of retry with [S k] values of [i] still to come. *)
Lemma retry_loop_spec fn attempts n delay (k : nat) (i : Z) fuel w :
  strict_eq attempts (of_Z n) = true →
  0 ≤ i → i + Z.of_nat (S k) = n → n ≤ MAX_SAFE_INTEGER → (S k ≤ fuel)%nat →
  ∃ errors wk w' last,
    failed_from sleep fn delay w errors wk ∧
    fn wk = (w', last) ∧
    retry_loop sleep fuel fn attempts delay i w =
      Some (w',
            failed_attempts TheRetryFunction attempts delay (i + 1) errors ++
              [Invoked last],
            last) ∧
    (length errors ≤ k)%nat ∧
    (∀ error, last = Throw error → length errors = k).
Proof.
  intros Hattempts. assert (H53 : MAX_SAFE_INTEGER = 2 ^ 53 - 1) by done.
  revert i fuel w. induction k as [|k IH]; intros i fuel w Hi Hn Hsafe Hfuel;
    (destruct fuel as [|fuel]; [lia|]); cbn [retry_loop];
    rewrite (whole_lt i attempts n Hattempts), bool_decide_eq_true_2 by lia;
    destruct (fn w) as [w1 [r|error]] eqn:Hfn.
  - exists [], w, w1, (Return r). split_and!; [constructor | done | done | done | done].
  - rewrite (whole_sub1 i attempts n Hattempts), bool_decide_eq_true_2 by lia.
    exists [], w, w1, (Throw error).
    split_and!; [constructor | done | done | done | done].
  - exists [], w, w1, (Return r).
    split_and!; [constructor | done | done | simpl; lia | done].
  - rewrite (whole_sub1 i attempts n Hattempts), bool_decide_eq_false_2 by lia.
    rewrite (safe_succ i n) by lia.
    destruct (IH (i + 1) fuel (sleep delay w1))
      as (errors & wk & w' & last & Hfailed & Hlast & -> & Hlen & Hthrow);
      [lia | lia | done | lia |].
    exists (error :: errors), wk, w', last.
    split_and!; [by econstructor | done | done | simpl; lia |].
    intros e He. simpl. by rewrite (Hthrow e He).
Qed.

(** The loop of RetryMechanism.retry with [S k] values of [attempt] still
    to come. *)
Lemma retry_mechanism_loop_spec operation maxAttempts n delay (k : nat)
    (attempt : Z) fuel w :
  strict_eq maxAttempts (of_Z n) = true →
  1 ≤ attempt → attempt + Z.of_nat k = n → n ≤ MAX_SAFE_INTEGER → (S k ≤ fuel)%nat →
  ∃ errors wk w' last,
    failed_from sleep operation delay w errors wk ∧
    operation wk = (w', last) ∧
    RetryMechanism.retry_loop sleep fuel operation maxAttempts delay attempt w =
      Some (w',
            failed_attempts TheRetryMechanism maxAttempts delay attempt errors ++
              [Invoked last],
            last) ∧
    (length errors ≤ k)%nat ∧
    (∀ error, last = Throw error → length errors = k).
Proof.
  intros Hmax. revert attempt fuel w.
  induction k as [|k IH]; intros attempt fuel w Hi Hn Hsafe Hfuel;
    (destruct fuel as [|fuel]; [lia|]); cbn [RetryMechanism.retry_loop];
    rewrite (whole_le attempt maxAttempts n Hmax), bool_decide_eq_true_2 by lia;
    destruct (operation w) as [w1 [r|error]] eqn:Hfn.
  - exists [], w, w1, (Return r). split_and!; [constructor | done | done | done | done].
  - rewrite (whole_strict_eq attempt maxAttempts n Hmax), bool_decide_eq_true_2 by lia.
    exists [], w, w1, (Throw error).
    split_and!; [constructor | done | done | done | done].
  - exists [], w, w1, (Return r).
    split_and!; [constructor | done | done | simpl; lia | done].
  - rewrite (whole_strict_eq attempt maxAttempts n Hmax), bool_decide_eq_false_2 by lia.
    rewrite (safe_succ attempt n) by lia.
    destruct (IH (attempt + 1) fuel (sleep delay w1))
      as (errors & wk & w' & last & Hfailed & Hlast & -> & Hlen & Hthrow);
      [lia | lia | done | lia |].
    exists (error :: errors), wk, w', last.
    split_and!; [by econstructor | done | done | simpl; lia |].
    intros e He. simpl. by rewrite (Hthrow e He).
Qed.

(** ErrorPatterns.retryOperation is RetryMechanism.retry, statement for
    statement. *)
Lemma retryOperation_loop_same fuel operation maxAttempts delay attempt w :
  ErrorPatterns.retryOperation_loop sleep fuel operation maxAttempts delay attempt w =
    RetryMechanism.retry_loop sleep fuel operation maxAttempts delay attempt w.
Proof.
  revert attempt w. induction fuel as [|fuel IH]; intros attempt w; [done|].
  simpl. destruct (le (of_Z attempt) maxAttempts); [|done].
  destruct (operation w) as [w1 [r|error]]; [done|].
  destruct (strict_eq (of_Z attempt) maxAttempts); [done|]. by rewrite IH.
Qed.

(** C6, as the code has it.  With a whole number of attempts n, at least 1
    and at most Number.MAX_SAFE_INTEGER, each retry helper returns (fuel
    for n turns of its loop is enough) and does this: it invokes fn again
    and again, each time in the world that the last failure and the wait
    after it have left, until an invocation succeeds or n invocations have
    failed; after each failed invocation but the n-th it waits once, for the
    delay it was given (the class methods then warn); its result is the
    result of its last invocation, so the value of the first success, or the
    error of the n-th failure rethrown; and the world it leaves is the one
    that this last invocation left. *)
Theorem retry_helpers_spec (h : helper) (fn : closure W) (attempts : number)
    (n delay : Z) (w : W) (fuel : nat) :
  strict_eq attempts (of_Z n) = true →
  1 ≤ n ≤ MAX_SAFE_INTEGER →
  (Z.to_nat n ≤ fuel)%nat →
  ∃ errors wk w' last,
    failed_from sleep fn delay w errors wk ∧
    fn wk = (w', last) ∧
    run_helper sleep fuel h fn attempts delay w =
      Some (w', failed_attempts h attempts delay 1 errors ++ [Invoked last], last) ∧
    Z.of_nat (length errors) < n ∧
    (∀ error, last = Throw error → Z.of_nat (length errors) = n - 1).
Proof.
  intros Hattempts Hn Hfuel.
  assert (Hk : S (Z.to_nat (n - 1)) = Z.to_nat n) by lia.
  destruct h; unfold run_helper.
  - destruct (retry_loop_spec fn attempts n delay (Z.to_nat (n - 1)) 0 fuel w)
      as (errors & wk & w' & last & Hfailed & Hlast & Hrun & Hlen & Hthrow);
      [done | lia | lia | lia | lia |].
    exists errors, wk, w', last. unfold retry.
    split_and!; [done | done | done | lia |].
    intros error He. rewrite (Hthrow error He). lia.
  - destruct (retry_mechanism_loop_spec fn attempts n delay (Z.to_nat (n - 1)) 1 fuel w)
      as (errors & wk & w' & last & Hfailed & Hlast & Hrun & Hlen & Hthrow);
      [done | lia | lia | lia | lia |].
    exists errors, wk, w', last. unfold RetryMechanism.retry.
    split_and!; [done | done | done | lia |].
    intros error He. rewrite (Hthrow error He). lia.
  - destruct (retry_mechanism_loop_spec fn attempts n delay (Z.to_nat (n - 1)) 1 fuel w)
      as (errors & wk & w' & last & Hfailed & Hlast & Hrun & Hlen & Hthrow);
      [done | lia | lia | lia | lia |].
    exists errors, wk, w', last.
    unfold ErrorPatterns.retryOperation.
    rewrite retryOperation_loop_same, failed_attempts_same.
    split_and!; [done | done | done | lia |].
    intros error He. rewrite (Hthrow error He). lia.
Qed.

End WithWorld.

Lemma retry_helpers_spec_witness :
  strict_eq (of_Z 3) (of_Z 3) = true ∧
  1 ≤ 3 ≤ MAX_SAFE_INTEGER ∧ (Z.to_nat 3 ≤ 3)%nat ∧
  ∃ errors wk w' last,
    failed_from no_sleep flaky 1000 0%nat errors wk ∧
    flaky wk = (w', last) ∧
    run_helper no_sleep 3 TheRetryMechanism flaky (of_Z 3) 1000 0%nat =
      Some (w',
            failed_attempts TheRetryMechanism (of_Z 3) 1000 1 errors ++ [Invoked last],
            last) ∧
    Z.of_nat (length errors) < 3 ∧
    (∀ error, last = Throw error → Z.of_nat (length errors) = 3 - 1).
Proof.
  assert (Hattempts : strict_eq (of_Z 3) (of_Z 3) = true) by reflexivity.
  assert (Hn : 1 ≤ 3 ≤ MAX_SAFE_INTEGER) by (vm_compute; split; discriminate).
  assert (Hfuel : (Z.to_nat 3 ≤ 3)%nat) by (vm_compute; lia).
  split_and!; [done | apply Hn | apply Hn | done |].
  exact (retry_helpers_spec no_sleep TheRetryMechanism flaky (of_Z 3) 3 1000 0%nat 3
           Hattempts Hn Hfuel).
Defined.

(** One and a half attempts are at least 1.  With them, retry invokes an
    operation that always fails twice, which is more than one and a half
    times, and RetryMechanism.retry once; and both return undefined where
    the error of the last attempt was to be rethrown. *)
Lemma retry_fractional_attempts :
  le (of_Z 1) one_and_a_half = true ∧
  retry no_sleep 5 hopeless one_and_a_half 1000 0%nat =
    Some (2%nat,
          [Invoked (Throw (VError "hopeless")); Waited 1000;
           Invoked (Throw (VError "hopeless")); Waited 1000],
          Return VUndefined) ∧
  lt one_and_a_half (of_Z 2) = true ∧
  RetryMechanism.retry no_sleep 5 hopeless one_and_a_half 1000 0%nat =
    Some (1%nat,
          [Invoked (Throw (VError "hopeless")); Waited 1000; Warned 1 one_and_a_half],
          Return VUndefined).
Proof. split_and!; reflexivity. Qed.

Example retry_third_time_lucky :
  retry no_sleep 3 flaky (of_Z 3) 1000 0%nat =
    Some (3%nat,
          [Invoked (Throw (VError "flaky")); Waited 1000;
           Invoked (Throw (VError "flaky")); Waited 1000;
           Invoked (Return (VNum 2))],
          Return (VNum 2)).
Proof. reflexivity. Qed.

Example retry_gives_up :
  RetryMechanism.retry no_sleep 2 flaky (of_Z 2) 500 0%nat =
    Some (2%nat,
          [Invoked (Throw (VError "flaky")); Waited 500; Warned 1 (of_Z 2);
           Invoked (Throw (VError "flaky"))],
          Throw (VError "flaky")).
Proof. reflexivity. Qed.

(** Without a positive number of attempts the loop body never runs and
    the helper returns undefined. *)
Example retry_zero_attempts :
  retry no_sleep 1 flaky (of_Z 0) 1000 0%nat = Some (0%nat, [], Return VUndefined).
Proof. reflexivity. Qed.

(** With infinitely many attempts and an operation that never succeeds,
    retry does not return: no amount of fuel is enough. *)
Lemma retry_without_end fuel i n :
  retry_loop no_sleep fuel hopeless (Infinity false) 1000 i n = None.
Proof.
  revert i n. induction fuel as [|fuel IH]; intros i n; [done|].
  cbn [retry_loop]. change (lt (of_Z i) (Infinity false)) with true.
  cbn [hopeless]. change (strict_eq (of_Z i) (sub1 (Infinity false))) with false.
  cbn iota. by rewrite IH.
Qed.

(** Past the safe integers the counter stalls: [2^53 + 1] is no
    double, so [i++] leaves [i] at [2^53].  With [2^53 + 4] attempts and an
    operation that never succeeds, retry does not return once it is there. *)
Lemma retry_counter_stalls fuel n :
  retry_loop no_sleep fuel hopeless (of_Z (2 ^ 53 + 4)) 1000 (2 ^ 53) n = None.
Proof.
  revert n. induction fuel as [|fuel IH]; intros n; [done|].
  cbn [retry_loop].
  change (lt (of_Z (2 ^ 53)) (of_Z (2 ^ 53 + 4))) with true.
  cbn [hopeless].
  change (strict_eq (of_Z (2 ^ 53)) (sub1 (of_Z (2 ^ 53 + 4)))) with false.
  cbn iota. change (round_whole (2 ^ 53 + 1)) with (2 ^ 53). by rewrite IH.
Qed.

End RetryFacts.

(** ** Export guards *)
Module ExportsFacts.
Import Exports.
#[local] Open Scope string_scope.

Lemma guard_false ρ : module_undefined ρ → truthy (eval ρ guard) = false.
Proof.
  unfold module_undefined, guard. simpl. intros ->.
  by rewrite bool_decide_eq_true_2.
Qed.

Lemma exec_body ρ body :
  Forall (λ s, exec ρ s = Return tt) body →
  exec ρ (IfStmt (Str "run") body) = Return tt.
Proof.
  simpl. induction 1 as [|s rest Hs _ IH]; [done|]. by rewrite Hs.
Qed.

(** A statement whose export assignments all stand under the guard runs
    to its end when [module] is undefined. *)
Lemma exec_guarded ρ s :
  module_undefined ρ → assigns_guarded false s = true → exec ρ s = Return tt.
Proof.
  intros Hmod. induction s as [names|cond body IH] using stmt_ind; [done|].
  cbn [assigns_guarded orb]. intros Hbody.
  destruct (decide (cond = guard)) as [->|Hne].
  - cbn [exec]. by rewrite guard_false.
  - rewrite bool_decide_eq_false_2 in Hbody by done.
    cbn [exec]. destruct (truthy (eval ρ cond)); [|done].
    apply (exec_body ρ body). revert Hbody.
    induction IH as [|s rest Hs _ IHrest]; [done|].
    cbn [forallb]. intros [Hs1 Hrest]%andb_true_iff.
    apply Forall_cons. split; [by apply Hs | by apply IHrest].
Qed.

Lemma exec_all_guarded ρ l :
  module_undefined ρ →
  forallb (assigns_guarded false) l = true → exec_all ρ l = Return tt.
Proof.
  intros Hmod. induction l as [|s rest IH]; [done|].
  simpl. intros [Hs Hrest]%andb_true_iff.
  by rewrite exec_guarded, IH.
Qed.

Lemma source_files_guarded :
  forallb (λ f, forallb (assigns_guarded false) f.2) source_files = true.
Proof. vm_compute. reflexivity. Qed.

(** C7. In every source file, each assignment to module.exports stands
    under the check that module is defined; so with module undefined the
    export statements of any file run to their end without a reference
    error. *)
Theorem exports_guarded (file : string) (stmts : list stmt) (ρ : env) :
  (file, stmts) ∈ source_files →
  module_undefined ρ →
  forallb (assigns_guarded false) stmts = true ∧
  exec_all ρ stmts = Return tt.
Proof.
  intros Hin Hmod.
  assert (Hguarded : forallb (assigns_guarded false) stmts = true).
  { pose proof source_files_guarded as Hall.
    rewrite forallb_forall in Hall.
    by apply (Hall (file, stmts)), list_elem_of_In. }
  split; [done | by apply exec_all_guarded].
Qed.

Lemma exports_guarded_witness :
  ("15_Memory_Management.js", memory_management_exports) ∈ source_files ∧
  module_undefined script_env ∧
  exec_all script_env memory_management_exports = Return tt.
Proof.
  assert (Hin : ("15_Memory_Management.js", memory_management_exports) ∈ source_files).
  { apply list_elem_of_In. vm_compute. tauto. }
  assert (Hmod : module_undefined script_env) by reflexivity.
  split_and!; [done | done |].
  apply (exports_guarded "15_Memory_Management.js" memory_management_exports
           script_env Hin Hmod).
Defined.

(** What the guard is for: the bare assignment fails in a script and
    succeeds in a module. *)
Example bare_assignment_in_script :
  exec script_env (AssignModuleExports ["LRUCache"]) =
    Throw (VError "module is not defined").
Proof. reflexivity. Qed.

Example guarded_assignment_in_module :
  exec commonjs_env (guarded_exports ["LRUCache"]) = Return tt.
Proof. reflexivity. Qed.

End ExportsFacts.

(** * Further properties *)

(** ** LRUCache: round trip, recency and edge capacities *)
Module LRUCacheMoreFacts.
Import LRUCache LRUCacheHistory.

(** X1. A value that was just put is what get returns, whatever the capacity
    and whatever the cache held. *)
Theorem lru_put_then_get (c : t) (key value : val) :
  (get key (put key value c)).1 = value ∧
  jsmap_get key (cache (put key value c)) = Some value.
Proof.
  assert (Hget : jsmap_get key (cache (put key value c)) = Some value).
  { unfold put. simpl. by rewrite jsmap_get_set, decide_True. }
  split; [|done].
  unfold get. by rewrite (jsmap_get_Some_has _ _ _ Hget), Hget.
Qed.

Lemma keys_get key c :
  jsmap_keys (cache (get key c).2) =
    if jsmap_has key (cache c)
    then filter (λ k, k ≠ key) (jsmap_keys (cache c)) ++ [key]
    else jsmap_keys (cache c).
Proof.
  unfold get. destruct (jsmap_has key (cache c)); simpl; [|done].
  rewrite jsmap_set_delete. unfold jsmap_keys at 1.
  rewrite fmap_app. simpl. f_equal. apply jsmap_keys_delete.
Qed.

Lemma keys_put key value c :
  jsmap_wf (cache c) →
  jsmap_keys (cache (put key value c)) =
    if jsmap_has key (cache c)
    then filter (λ k, k ≠ key) (jsmap_keys (cache c)) ++ [key]
    else if bool_decide (capacity c ≤ Z.of_nat (length (jsmap_keys (cache c))))
         then tail (jsmap_keys (cache c)) ++ [key]
         else jsmap_keys (cache c) ++ [key].
Proof.
  intros Hwf. unfold put. cbn [cache].
  destruct (jsmap_has key (cache c)) eqn:Hhas.
  - rewrite jsmap_set_delete. unfold jsmap_keys at 1.
    rewrite fmap_app. simpl. f_equal. apply jsmap_keys_delete.
  - assert (Habsent : key ∉ jsmap_keys (cache c)).
    { intros Hin. apply jsmap_has_true in Hin. congruence. }
    unfold jsmap_size.
    replace (length (jsmap_keys (cache c))) with (length (cache c))
      by (unfold jsmap_keys; by rewrite length_fmap).
    case_bool_decide as Hfull.
    + destruct (cache c) as [|[firstKey firstValue] rest] eqn:Hcache.
      * done.
      * cbn [jsmap_first_key jsmap_keys fmap list_fmap fst head].
        rewrite (jsmap_delete_head _ _ _ Hwf).
        rewrite jsmap_set_absent.
        -- unfold jsmap_keys. by rewrite fmap_app.
        -- intros Hin. apply Habsent. by right.
    + rewrite jsmap_set_absent by done. unfold jsmap_keys. by rewrite fmap_app.
Qed.

Lemma run_snoc ops o c : run (ops ++ [o]) c = step (run ops c) o.
Proof. unfold run. by rewrite foldl_snoc. Qed.

Lemma touched_snoc ops o c :
  touched (ops ++ [o]) c = touched ops c ++ touch (run ops c) o.
Proof.
  revert c. induction ops as [|o1 ops IH]; intros c; simpl.
  - by rewrite app_nil_r.
  - by rewrite IH, app_assoc.
Qed.

Lemma remove_dups_snoc (l : list val) (k : val) :
  remove_dups (l ++ [k]) = filter (λ x, x ≠ k) (remove_dups l) ++ [k].
Proof.
  induction l as [|x l IH]; simpl; [done|].
  destruct (decide_rel elem_of x (l ++ [k])) as [Hin|Hn],
           (decide_rel elem_of x l) as [Hin'|Hn'].
  - exact IH.
  - apply elem_of_app in Hin as [Hin|Hin%list_elem_of_singleton]; [done|].
    subst x. rewrite filter_cons_False by (intros Hk; by apply Hk). exact IH.
  - exfalso. apply Hn, elem_of_app. by left.
  - rewrite filter_cons_True.
    + simpl. by rewrite IH.
    + intros ->. apply Hn, elem_of_app. right. left.
Qed.

Lemma filter_absent (k : val) (l : list val) : k ∉ l → filter (λ x, x ≠ k) l = l.
Proof.
  intros Hn. induction l as [|x l IH]; [done|].
  apply not_elem_of_cons in Hn as [Hne Hn].
  rewrite filter_cons_True by congruence. by rewrite IH.
Qed.

Lemma filter_present_length (k : val) (l : list val) :
  NoDup l → k ∈ l → S (length (filter (λ x, x ≠ k) l)) = length l.
Proof.
  induction 1 as [|x l Hx Hnd IH]; [intros Hin; by apply elem_of_nil in Hin|].
  intros [->|Hin]%elem_of_cons.
  - rewrite filter_cons_False by (intros Hk; by apply Hk).
    by rewrite filter_absent.
  - rewrite filter_cons_True by (intros ->; done). simpl. by rewrite IH.
Qed.

Lemma holds_most_recent_refresh cap recent keys key :
  NoDup recent → key ∈ keys →
  holds_most_recent cap recent keys →
  holds_most_recent cap (filter (λ k, k ≠ key) recent ++ [key])
                        (filter (λ k, k ≠ key) keys ++ [key]).
Proof.
  intros Hnd Hin (older & -> & Hlen & Hfull).
  apply NoDup_app in Hnd as (_ & Hdisj & Hnd).
  exists older. rewrite filter_app, <- app_assoc.
  rewrite (filter_absent key older) by (intros Ho; by apply (Hdisj key)).
  pose proof (filter_present_length key keys Hnd Hin) as Hf.
  rewrite length_app. simpl. split_and!; [done | lia |].
  intros Hlt. apply Hfull. lia.
Qed.

Lemma holds_most_recent_evict cap recent keys key :
  1 ≤ cap → key ∉ keys → cap ≤ Z.of_nat (length keys) →
  holds_most_recent cap recent keys →
  holds_most_recent cap (filter (λ k, k ≠ key) recent ++ [key]) (tail keys ++ [key]).
Proof.
  intros Hcap Hn Hfull (older & -> & Hlen & _).
  destruct keys as [|k0 keys]; [simpl in *; lia|].
  exists (filter (λ k, k ≠ key) older ++ [k0]).
  rewrite filter_app, (filter_absent key (k0 :: keys)) by done.
  simpl. rewrite length_app. simpl in *.
  split_and!; [by rewrite <- !app_assoc | lia | lia].
Qed.

Lemma holds_most_recent_append cap recent keys key :
  key ∉ keys → Z.of_nat (length keys) < cap →
  holds_most_recent cap recent keys →
  holds_most_recent cap (filter (λ k, k ≠ key) recent ++ [key]) (keys ++ [key]).
Proof.
  intros Hn Hroom (older & -> & Hlen & Hfull).
  rewrite (Hfull Hroom). exists []. simpl.
  rewrite filter_absent by done. rewrite length_app. simpl.
  split_and!; [done | lia | done].
Qed.

Lemma holds_most_recent_run cap ops :
  1 ≤ cap →
  holds_most_recent cap (remove_dups (touched ops (new cap)))
                        (jsmap_keys (cache (run ops (new cap)))).
Proof.
  intros Hcap. induction ops as [|o ops IH] using rev_ind.
  - exists []. simpl. split_and!; [done | lia | done].
  - destruct (LRUCacheFacts.invariant_run cap ops (new cap) Hcap
                (LRUCacheFacts.invariant_new cap Hcap)) as (Hc & Hwf & Hsize).
    rewrite run_snoc, touched_snoc.
    set (c := run ops (new cap)) in *.
    pose proof (NoDup_remove_dups (touched ops (new cap))) as Hnd.
    destruct o as [key|key value]; cbn [step touch].
    + rewrite keys_get.
      destruct (jsmap_has key (cache c)) eqn:Hhas.
      * rewrite remove_dups_snoc.
        apply holds_most_recent_refresh; [done | by apply jsmap_has_true | done].
      * by rewrite app_nil_r.
    + rewrite remove_dups_snoc, keys_put by done.
      destruct (jsmap_has key (cache c)) eqn:Hhas.
      * apply holds_most_recent_refresh; [done | by apply jsmap_has_true | done].
      * assert (Habsent : key ∉ jsmap_keys (cache c)).
        { intros Hin. apply jsmap_has_true in Hin. congruence. }
        rewrite Hc. case_bool_decide as Hfull.
        -- by apply holds_most_recent_evict.
        -- apply holds_most_recent_append; [done | lia | done].
Qed.

(** X2. The cache holds the most recently used keys.  List the keys that the
    operations used (put always, get when it hit), keep each at its last
    use: the keys of the cache, oldest first, are the last capacity keys of
    that list, or all of them if they are fewer. *)
Theorem lru_holds_most_recent (cap : Z) (ops : list op) :
  1 ≤ cap →
  let recent := remove_dups (touched ops (new cap)) in
  jsmap_keys (cache (run ops (new cap))) =
    drop (length recent - Z.to_nat cap) recent.
Proof.
  intros Hcap recent.
  destruct (holds_most_recent_run cap ops Hcap) as (older & Hrecent & Hlen & Hfull).
  fold recent in Hrecent. rewrite Hrecent, length_app.
  destruct (decide (Z.of_nat (length (jsmap_keys (cache (run ops (new cap))))) < cap))
    as [Hlt|Hge].
  - rewrite (Hfull Hlt). simpl.
    by replace (_ - _)%nat with 0%nat by lia.
  - replace (_ - _)%nat with (length older) by lia.
    by rewrite drop_app_length.
Qed.

Lemma lru_holds_most_recent_witness :
  1 ≤ 2 ∧
  jsmap_keys (cache (run [Put (VNum 1) VNull; Put (VNum 2) VNull; Get (VNum 1);
                          Put (VNum 3) VNull; Get (VNum 2)] (new 2))) =
    [VNum 1; VNum 3].
Proof.
  assert (Hcap : 1 ≤ 2) by lia.
  split; [done|].
  by rewrite (lru_holds_most_recent 2 _ Hcap).
Defined.

Lemma last_put_snoc key ops o :
  last_put key (ops ++ [o]) =
    match o with
    | Put k v => if decide (k = key) then Some v else last_put key ops
    | Get _ => last_put key ops
    end.
Proof. unfold last_put. by rewrite foldl_snoc. Qed.

Lemma get_keeps_values key k c v :
  jsmap_get k (cache (get key c).2) = Some v → jsmap_get k (cache c) = Some v.
Proof.
  unfold get. destruct (jsmap_has key (cache c)) eqn:Hhas; [|done].
  cbn [negb snd cache]. rewrite jsmap_get_set, jsmap_get_delete.
  destruct (decide (k = key)) as [->|Hne]; [|done].
  apply jsmap_has_true in Hhas.
  destruct (jsmap_get key (cache c)) as [v0|] eqn:Hget; [done|].
  by apply jsmap_get_None in Hget.
Qed.

Lemma put_keeps_values key value k c v :
  k ≠ key →
  jsmap_get k (cache (put key value c)) = Some v → jsmap_get k (cache c) = Some v.
Proof.
  intros Hne. unfold put. cbn [cache].
  rewrite jsmap_get_set, decide_False by done.
  destruct (jsmap_has key (cache c)).
  - rewrite jsmap_get_delete. by case_decide.
  - case_bool_decide; [|done].
    destruct (jsmap_first_key (cache c)); [|done].
    rewrite jsmap_get_delete. by case_decide.
Qed.

(** X3. The cache never answers with a stale value: what it stores for a key
    is the value of the last put of that key. *)
Theorem lru_value_is_last_put (cap : Z) (ops : list op) (key v : val) :
  jsmap_get key (cache (run ops (new cap))) = Some v →
  last_put key ops = Some v.
Proof.
  revert v. induction ops as [|o ops IH] using rev_ind; intros v; [done|].
  rewrite run_snoc, last_put_snoc.
  destruct o as [k|k value]; cbn [step].
  - intros Hget. by apply IH, (get_keeps_values k).
  - destruct (decide (k = key)) as [->|Hne].
    + destruct (lru_put_then_get (run ops (new cap)) key value) as [_ Hput].
      rewrite Hput. done.
    + intros Hget. apply IH. by apply (put_keeps_values k value).
Qed.

Lemma lru_value_is_last_put_witness :
  jsmap_get (VNum 1)
    (cache (run [Put (VNum 1) (VStr "old"); Put (VNum 2) (VStr "b");
                 Put (VNum 1) (VStr "new")] (new 2))) = Some (VStr "new") ∧
  last_put (VNum 1)
    [Put (VNum 1) (VStr "old"); Put (VNum 2) (VStr "b"); Put (VNum 1) (VStr "new")] =
    Some (VStr "new").
Proof.
  assert (Hget : jsmap_get (VNum 1)
            (cache (run [Put (VNum 1) (VStr "old"); Put (VNum 2) (VStr "b");
                         Put (VNum 1) (VStr "new")] (new 2))) = Some (VStr "new"))
    by reflexivity.
  split; [done|].
  exact (lru_value_is_last_put 2 _ (VNum 1) (VStr "new") Hget).
Defined.

Lemma put_into_small key value c :
  capacity c ≤ 1 → (length (cache c) ≤ 1)%nat →
  cache (put key value c) = [(key, value)].
Proof.
  intros Hcap Hlen. unfold put, jsmap_has, jsmap_size, jsmap_first_key, jsmap_keys.
  destruct (cache c) as [|[k0 v0] [|e rest]]; [| |simpl in Hlen; lia]; cbn [cache].
  - rewrite bool_decide_eq_false_2 by apply not_elem_of_nil.
    by case_bool_decide.
  - cbn [fmap list_fmap fst head length].
    case_bool_decide as Hin.
    + apply list_elem_of_singleton in Hin as ->.
      unfold jsmap_delete. by rewrite filter_cons_False by (intros Hk; by apply Hk).
    + rewrite bool_decide_eq_true_2 by lia.
      unfold jsmap_delete. by rewrite filter_cons_False by (intros Hk; by apply Hk).
Qed.

(** X4. A capacity of 1, 0 or less leaves room for one entry: after a put the
    cache holds that entry and nothing else. *)
Theorem lru_capacity_at_most_one (cap : Z) (ops : list op) (key value : val) :
  cap ≤ 1 →
  cache (run (ops ++ [Put key value]) (new cap)) = [(key, value)].
Proof.
  intros Hcap. rewrite run_snoc. cbn [step].
  assert (Hinv : capacity (run ops (new cap)) = cap ∧
                 (length (cache (run ops (new cap))) ≤ 1)%nat).
  { induction ops as [|o ops [Hc Hlen]] using rev_ind.
    - split; [done | simpl; lia].
    - rewrite run_snoc. split.
      + by rewrite LRUCacheFacts.step_capacity.
      + destruct o as [k|k v]; cbn [step].
        * pose proof (LRUCacheFacts.get_size k (run ops (new cap))) as Hsize.
          unfold jsmap_size in Hsize. lia.
        * rewrite put_into_small; [simpl; lia | lia | done]. }
  destruct Hinv as [Hc Hlen]. apply put_into_small; [lia | done].
Qed.

Lemma lru_capacity_at_most_one_witness :
  0 ≤ 1 ∧
  cache (run ([Put (VNum 1) VNull; Get (VNum 1)] ++ [Put (VNum 2) (VStr "b")]) (new 0)) =
    [(VNum 2, VStr "b")].
Proof.
  assert (Hcap : 0 ≤ 1) by lia.
  split; [done|].
  exact (lru_capacity_at_most_one 0 [Put (VNum 1) VNull; Get (VNum 1)]
           (VNum 2) (VStr "b") Hcap).
Defined.

End LRUCacheMoreFacts.

(** ** CircularBuffer: first in, first out *)
Module CircularBufferQueueFacts.
Import CircularBuffer CircularBufferQueue.

Lemma mod_wrap (a n : nat) :
  (a < 2 * n)%nat → (a `mod` n)%nat = if decide (a < n)%nat then a else (a - n)%nat.
Proof.
  intros Ha. case_decide as Hlt.
  - by apply Nat.mod_small.
  - replace a with ((a - n) + 1 * n)%nat at 1 by lia.
    rewrite Nat.Div0.mod_add. apply Nat.mod_small. lia.
Qed.

Lemma mod_slots_differ (r i j n : nat) :
  (r < n)%nat → (i < j)%nat → (j < n)%nat →
  ((r + i) `mod` n)%nat ≠ ((r + j) `mod` n)%nat.
Proof.
  intros Hr Hij Hj. rewrite !mod_wrap by lia.
  repeat case_decide; lia.
Qed.

Lemma holds_queue_new (size : nat) : (0 < size)%nat → holds_queue (Counted.new size) [].
Proof.
  intros Hpos. exists 0%nat. simpl.
  split_and!; [done | done | | done | lia | by rewrite length_replicate | done].
  by rewrite Nat.Div0.mod_0_l.
Qed.

Lemma holds_queue_write b q value :
  holds_queue b q →
  Counted.count b < Z.of_nat (Counted.size b) →
  holds_queue (Counted.write value b) (q ++ [value]).
Proof.
  intros (r & Hread & Hr & Hwrite & Hcount & Hlen & Hcells & Hslots) Hroom.
  assert (Hq : (length q < Counted.size b)%nat) by lia.
  assert (Hw : ((r + length q) `mod` Counted.size b < Counted.size b)%nat)
    by (apply Nat.mod_upper_bound; lia).
  exists r. unfold Counted.write. cbn [Counted.readPtr Counted.size Counted.writePtr
    Counted.count Counted.buffer]. rewrite Hwrite. cbn [JSArray.set JSArray.next].
  rewrite (bool_decide_eq_true_2 (_ < _)%nat) by lia.
  rewrite bool_decide_eq_false_2 by lia.
  cbn [JSArray.cells]. rewrite length_app, length_insert. simpl.
  split_and!; [done | done | | lia | lia | done |].
  - f_equal. rewrite Nat.Div0.add_mod_idemp_l. f_equal. lia.
  - intros i x Hi.
    destruct (decide (i < length q)%nat) as [Hlt|Hge].
    + rewrite lookup_app_l in Hi by done.
      rewrite list_lookup_insert_ne; [by apply Hslots|].
      apply not_eq_sym, mod_slots_differ; lia.
    + assert (i = length q) as ->.
      { apply lookup_lt_Some in Hi. rewrite length_app in Hi. simpl in Hi. lia. }
      rewrite lookup_app_r, Nat.sub_diag in Hi by lia. simpl in Hi.
      injection Hi as ->. apply list_lookup_insert_eq. lia.
Qed.

Lemma holds_queue_read b value q :
  holds_queue b (value :: q) →
  (Counted.read b).1 = value ∧ holds_queue (Counted.read b).2 q.
Proof.
  intros (r & Hread & Hr & Hwrite & Hcount & Hlen & Hcells & Hslots).
  simpl in Hcount, Hlen.
  unfold Counted.read. rewrite bool_decide_eq_false_2 by lia.
  cbn [fst snd]. rewrite Hread. split.
  - cbn [JSArray.get]. specialize (Hslots 0%nat value eq_refl).
    rewrite Nat.add_0_r, Nat.mod_small in Hslots by done. by rewrite Hslots.
  - exists ((r + 1) `mod` Counted.size b)%nat.
    cbn [Counted.readPtr Counted.size Counted.writePtr Counted.count Counted.buffer
         JSArray.next].
    rewrite bool_decide_eq_false_2 by lia.
    split_and!; [done | apply Nat.mod_upper_bound; lia | | lia | lia | done |].
    + rewrite Hwrite. f_equal. rewrite Nat.Div0.add_mod_idemp_l. f_equal. simpl. lia.
    + intros i x Hi. rewrite Nat.Div0.add_mod_idemp_l.
      replace (r + 1 + i)%nat with (r + S i)%nat by lia.
      by apply Hslots.
Qed.

Lemma holds_queue_read_empty b : holds_queue b [] → Counted.read b = (VNull, b).
Proof.
  intros (r & _ & _ & _ & Hcount & _). simpl in Hcount.
  by apply CircularBufferFacts.counted_read_empty.
Qed.

Lemma counted_run_queue ops b q :
  holds_queue b q → writes_fit ops b = true →
  (Counted.run ops b).1 = queue_reads ops q.
Proof.
  revert b q. induction ops as [|[value|] rest IH]; intros b q Hq Hfit;
    cbn [Counted.run queue_reads writes_fit] in *.
  - done.
  - apply andb_true_iff in Hfit as [Hroom Hfit].
    apply bool_decide_eq_true in Hroom.
    apply IH; [by apply holds_queue_write | done].
  - destruct q as [|value q].
    + rewrite (holds_queue_read_empty b Hq) in *. cbn [snd] in Hfit.
      specialize (IH b [] Hq Hfit).
      destruct (Counted.run rest b) as [values b2]. simpl in *. by rewrite IH.
    + destruct (holds_queue_read b value q Hq) as [Hval Hq1].
      destruct (Counted.read b) as [v1 b1]. simpl in *. subst v1.
      specialize (IH b1 q Hq1 Hfit).
      destruct (Counted.run rest b1) as [values b2]. simpl in *. by rewrite IH.
Qed.

(** A buffer of size 0 takes no write and answers every read with null. *)
Lemma counted_run_size_zero ops b :
  Counted.size b = 0%nat → Counted.count b = 0 → writes_fit ops b = true →
  (Counted.run ops b).1 = queue_reads ops [].
Proof.
  intros Hsize Hcount. induction ops as [|[value|] rest IH]; intros Hfit;
    cbn [Counted.run queue_reads writes_fit] in *.
  - done.
  - apply andb_true_iff in Hfit as [Hroom _].
    apply bool_decide_eq_true in Hroom. lia.
  - rewrite (CircularBufferFacts.counted_read_empty b Hcount) in *.
    cbn [snd] in Hfit. specialize (IH Hfit).
    destruct (Counted.run rest b) as [values b2]. simpl in *. by rewrite IH.
Qed.

(** X5. The counted buffer is a first-in first-out queue for as long as no
    write finds it full: its reads return the written values in the order
    they were written, each once, and null when nothing is unread. *)
Theorem counted_buffer_is_fifo (size : nat) (ops : list op) :
  writes_fit ops (Counted.new size) = true →
  (Counted.run ops (Counted.new size)).1 = queue_reads ops [].
Proof.
  intros Hfit. destruct size as [|size].
  - by apply counted_run_size_zero.
  - apply counted_run_queue; [apply holds_queue_new; lia | done].
Qed.

Lemma counted_buffer_is_fifo_witness :
  writes_fit [Write (VNum 1); Write (VNum 2); Read; Write (VNum 3); Read; Read; Read]
             (Counted.new 2) = true ∧
  (Counted.run [Write (VNum 1); Write (VNum 2); Read; Write (VNum 3); Read; Read; Read]
               (Counted.new 2)).1 = [VNum 1; VNum 2; VNum 3; VNull].
Proof.
  assert (Hfit : writes_fit [Write (VNum 1); Write (VNum 2); Read; Write (VNum 3);
                             Read; Read; Read] (Counted.new 2) = true) by reflexivity.
  split; [done|].
  by rewrite (counted_buffer_is_fifo 2 _ Hfit).
Defined.

(** X6. The buffer without a count is the same queue as long as, in addition,
    no read is issued when nothing is unread. *)
Theorem plain_buffer_is_fifo (size : nat) (ops : list op) :
  writes_fit ops (Counted.new size) = true →
  Counted.reads_nonempty ops (Counted.new size) = true →
  (Plain.run ops (Plain.new size)).1 = queue_reads ops [].
Proof.
  intros Hfit Hne.
  destruct (CircularBufferFacts.run_agree ops (Counted.new size) (Plain.new size)
              (CircularBufferFacts.same_state_new size) Hne) as [Hvals _].
  rewrite <- Hvals. by apply counted_buffer_is_fifo.
Qed.

Lemma plain_buffer_is_fifo_witness :
  writes_fit fill_and_drain (Counted.new 2) = true ∧
  Counted.reads_nonempty fill_and_drain (Counted.new 2) = true ∧
  (Plain.run fill_and_drain (Plain.new 2)).1 = [VNum 1; VNum 2; VNum 3].
Proof.
  assert (Hfit : writes_fit fill_and_drain (Counted.new 2) = true) by reflexivity.
  assert (Hne : Counted.reads_nonempty fill_and_drain (Counted.new 2) = true)
    by reflexivity.
  split_and!; [done | done |].
  by rewrite (plain_buffer_is_fifo 2 fill_and_drain Hfit Hne).
Defined.

(** Past its size the counted buffer overwrites the oldest unread value
    without moving the read pointer: the reads then come out of order. *)
Example counted_overflow_reorders :
  (Counted.run [Write (VNum 1); Write (VNum 2); Write (VNum 3); Read; Read]
               (Counted.new 2)).1 = [VNum 3; VNum 2].
Proof. reflexivity. Qed.

End CircularBufferQueueFacts.

(** ** createObjectPool *)
Module ObjectPoolFacts.
Import MemoryOptimization.

Lemma tracks_new size : tracks size (createObjectPool size, []).
Proof.
  unfold tracks, createObjectPool. simpl.
  split_and!; [apply length_replicate | apply NoDup_nil_2 |].
  intros i. split; [intros Hin; by apply elem_of_nil in Hin|].
  intros [Hx _]%lookup_replicate. done.
Qed.

Lemma tracks_step size s o : tracks size s → tracks size (step s o).
Proof.
  destruct s as [pool held]. intros (Hlen & Hnd & Hheld). simpl in *.
  destruct o as [|[i|]]; cbn [step fst snd release]; [| |done].
  - unfold acquire.
    destruct (list_find (λ inUse, inUse = false) pool) as [[i x]|] eqn:Hfind;
      [|done].
    apply list_find_Some in Hfind as (Hi & -> & _).
    pose proof (lookup_lt_Some _ _ _ Hi) as Hlt.
    unfold tracks. cbn [fst snd]. rewrite length_insert.
    split_and!; [done | |].
    + apply NoDup_cons. split; [|done].
      rewrite Hheld, Hi. done.
    + intros j. rewrite elem_of_cons.
      destruct (decide (j = i)) as [->|Hne].
      * rewrite list_lookup_insert_eq by done. tauto.
      * rewrite list_lookup_insert_ne by done. rewrite Hheld. tauto.
  - unfold tracks. cbn [fst snd]. rewrite length_insert.
    split_and!; [done | by apply NoDup_filter |].
    intros j. rewrite list_elem_of_filter.
    destruct (decide (j = i)) as [->|Hne].
    + split; [tauto|]. intros Hj. exfalso.
      destruct (decide (i < length pool)%nat) as [Hlt|Hge].
      * rewrite list_lookup_insert_eq in Hj by done. done.
      * rewrite list_insert_ge in Hj by lia.
        apply lookup_lt_Some in Hj. lia.
    + rewrite list_lookup_insert_ne by done. rewrite Hheld. tauto.
Qed.

Lemma tracks_run size ops s : tracks size s → tracks size (run ops s).
Proof.
  revert s. unfold run. induction ops as [|o ops IH]; intros s Hs; [done|].
  simpl. by apply IH, tracks_step.
Qed.

Lemma tracks_held_bound size pool held :
  tracks size (pool, held) → held ⊆+ seq 0 size.
Proof.
  intros (Hlen & Hnd & Hheld). simpl in *.
  apply NoDup_submseteq; [done|].
  intros i Hi. apply Hheld, lookup_lt_Some in Hi.
  apply elem_of_seq. lia.
Qed.

(** X7. The pool never hands out an object twice.  After any calls of acquire
    and release on a pool of [size] objects, the objects flagged in use are
    exactly those handed out and not released since, at most [size] of
    them; acquire then returns an object that is not handed out, and null
    exactly when all [size] objects are. *)
Theorem object_pool_never_shares (size : nat) (ops : list op) :
  let s := run ops (createObjectPool size, []) in
  NoDup s.2 ∧
  (∀ i, i ∈ s.2 ↔ s.1 !! i = Some true) ∧
  (length s.2 ≤ size)%nat ∧
  (∀ i, (acquire s.1).1 = Some i → (i ∉ s.2) ∧ (i < size)%nat) ∧
  ((acquire s.1).1 = None ↔ length s.2 = size).
Proof.
  intros s.
  pose proof (tracks_run size ops _ (tracks_new size)) as Htracks. fold s in Htracks.
  destruct s as [pool held].
  pose proof (tracks_held_bound size pool held Htracks) as Hsub.
  destruct Htracks as (Hlen & Hnd & Hheld). simpl in *.
  pose proof (submseteq_length _ _ Hsub) as Hbound. rewrite length_seq in Hbound.
  split_and!; [done | done | done | |].
  - intros i. unfold acquire.
    destruct (list_find (λ inUse, inUse = false) pool) as [[j x]|] eqn:Hfind;
      [|done].
    simpl. intros [= ->].
    apply list_find_Some in Hfind as (Hi & -> & _).
    split; [rewrite Hheld, Hi; done|].
    apply lookup_lt_Some in Hi. lia.
  - unfold acquire.
    destruct (list_find (λ inUse, inUse = false) pool) as [[j x]|] eqn:Hfind; simpl.
    + split; [done|]. intros Hfull. exfalso.
      apply list_find_Some in Hfind as (Hj & -> & _).
      assert (Hperm : held ≡ₚ seq 0 size).
      { apply submseteq_length_Permutation; [done|]. rewrite length_seq. lia. }
      assert (Hin : j ∈ held).
      { rewrite Hperm. apply elem_of_seq. apply lookup_lt_Some in Hj. lia. }
      apply Hheld in Hin. congruence.
    + split; [|done]. intros _.
      apply list_find_None in Hfind. rewrite Forall_forall in Hfind.
      assert (Hsup : seq 0 size ⊆+ held).
      { apply NoDup_submseteq; [apply NoDup_seq|].
        intros i Hi%elem_of_seq. apply Hheld.
        destruct (lookup_lt_is_Some_2 pool i) as [x Hx]; [lia|].
        destruct x; [done|]. exfalso.
        apply (Hfind false); [by eapply list_elem_of_lookup_2 | done]. }
      apply submseteq_length in Hsup. rewrite length_seq in Hsup. lia.
Qed.

Lemma object_pool_never_shares_witness :
  let s := run [Acquire; Acquire; Release (Some 0%nat)] (createObjectPool 2, []) in
  (acquire s.1).1 = Some 0%nat ∧ (0%nat ∉ s.2) ∧ (0 < 2)%nat.
Proof.
  intros s.
  assert (Hnext : (acquire s.1).1 = Some 0%nat) by reflexivity.
  split; [done|].
  destruct (object_pool_never_shares 2 [Acquire; Acquire; Release (Some 0%nat)])
    as (_ & _ & _ & Hfree & _).
  exact (Hfree 0%nat Hnext).
Defined.

Lemma acquire_after_taken (k : nat) (rest : list bool) :
  acquire (replicate k true ++ false :: rest) =
    (Some k, replicate k true ++ true :: rest).
Proof.
  unfold acquire.
  assert (Hfind : list_find (λ inUse, inUse = false) (replicate k true ++ false :: rest)
                  = Some (k, false)).
  { apply list_find_Some. split_and!.
    - rewrite lookup_app_r, length_replicate, Nat.sub_diag
        by (rewrite length_replicate; lia). done.
    - done.
    - intros j y Hj Hlt. rewrite lookup_app_l in Hj by (rewrite length_replicate; lia).
      apply lookup_replicate in Hj as [-> _]. done. }
  rewrite Hfind. f_equal.
  rewrite insert_app_r_alt, length_replicate, Nat.sub_diag
    by (rewrite length_replicate; lia). done.
Qed.

(** X8. A fresh pool hands out its objects in array order: after the first
    [k] acquires the next one returns object [k], and null once all [size]
    objects are out. *)
Theorem object_pool_hands_out_in_order (size k : nat) :
  (k ≤ size)%nat →
  let s := run (replicate k Acquire) (createObjectPool size, []) in
  s.1 = replicate k true ++ replicate (size - k) false ∧
  s.2 = reverse (seq 0 k) ∧
  (acquire s.1).1 = if decide (k < size)%nat then Some k else None.
Proof.
  intros Hk s.
  assert (Hs : s = (replicate k true ++ replicate (size - k) false, reverse (seq 0 k))).
  { subst s. induction k as [|k IH].
    - unfold run, createObjectPool. simpl. by rewrite Nat.sub_0_r.
    - replace (replicate (S k) Acquire) with (replicate k Acquire ++ [Acquire])
        by (by rewrite <- replicate_S_end).
      unfold run in *. rewrite foldl_snoc, IH by lia. cbn [step fst snd].
      replace (size - k)%nat with (S (size - S k)) by lia. cbn [replicate].
      rewrite acquire_after_taken. f_equal.
      + change (true :: replicate k true) with (replicate (S k) true).
        rewrite replicate_S_end, <- app_assoc. done.
      + by rewrite seq_S, reverse_snoc. }
  rewrite Hs. cbn [fst snd]. split_and!; [done | done |].
  case_decide as Hlt.
  - replace (size - k)%nat with (S (size - S k)) by lia. cbn [replicate].
    by rewrite acquire_after_taken.
  - replace (size - k)%nat with 0%nat by lia. simpl. rewrite app_nil_r.
    unfold acquire.
    assert (Hnone : list_find (λ inUse, inUse = false) (replicate k true) = None).
    { apply list_find_None, Forall_forall. intros x [-> _]%elem_of_replicate. done. }
    by rewrite Hnone.
Qed.

Lemma object_pool_hands_out_in_order_witness :
  (2 ≤ 2)%nat ∧
  (acquire (run (replicate 2 Acquire) (createObjectPool 2, [])).1).1 = None.
Proof.
  assert (Hk : (2 ≤ 2)%nat) by lia.
  split; [done|].
  destruct (object_pool_hands_out_in_order 2 2 Hk) as (_ & _ & Hnext).
  exact Hnext.
Defined.

(** Releasing null throws: the pool returns null when it is exhausted, and
    handing that back fails. *)
Example release_null_throws :
  release (acquire (createObjectPool 0)).1 (createObjectPool 0) =
    Throw (VError "TypeError").
Proof. reflexivity. Qed.

End ObjectPoolFacts.

(** ** MemoryEfficientEmitter: on and off *)
Module MemoryEfficientEmitterFacts.
Import MemoryEfficientEmitter MemoryEfficientEmitterOps.

Lemma jsmap_set_set {V} (k : val) (v1 v2 : V) (m : list (val * V)) :
  jsmap_set k v2 (jsmap_set k v1 m) = jsmap_set k v2 m.
Proof.
  induction m as [|[k0 v0] m IH]; simpl.
  - by rewrite decide_True.
  - destruct (decide (k = k0)) as [->|Hne]; simpl.
    + by rewrite decide_True.
    + by rewrite decide_False, IH.
Qed.

Lemma jsmap_set_same {V} (k : val) (v : V) (m : list (val * V)) :
  jsmap_get k m = Some v → jsmap_set k v m = m.
Proof.
  induction m as [|[k0 v0] m IH]; simpl; [done|].
  destruct (decide (k = k0)) as [->|Hne].
  - by intros [= ->].
  - intros Hget. by rewrite IH.
Qed.

Lemma jsmap_delete_snoc {V} (k : val) (v : V) (m : list (val * V)) :
  k ∉ jsmap_keys m → jsmap_delete k (m ++ [(k, v)]) = m.
Proof.
  intros Hn. unfold jsmap_delete. rewrite filter_app.
  fold (jsmap_delete k m). rewrite (jsmap_delete_absent k m Hn).
  rewrite filter_cons_False by (simpl; intros Hk; by apply Hk).
  by rewrite filter_nil, app_nil_r.
Qed.

Lemma jsmap_set_Forall {V} (P : val * V → Prop) (k : val) (v : V) (m : list (val * V)) :
  P (k, v) → Forall P m → Forall P (jsmap_set k v m).
Proof.
  intros Hkv. induction 1 as [|[k0 v0] m H0 Hm IH]; simpl.
  - by apply Forall_singleton.
  - destruct (decide (k = k0)); apply Forall_cons; split; done.
Qed.

Lemma jsmap_get_Forall {V} (P : val * V → Prop) (k : val) (v : V) (m : list (val * V)) :
  Forall P m → jsmap_get k m = Some v → P (k, v).
Proof.
  induction 1 as [|[k0 v0] m H0 Hm IH]; simpl; [done|].
  destruct (decide (k = k0)) as [->|Hne]; [by intros [= ->] | done].
Qed.

Lemma filter_without_absent (cb : callback) (s : list callback) :
  cb ∉ s → filter (λ c, c ≠ cb) s = s.
Proof.
  intros Hn. induction s as [|x s IH]; [done|].
  apply not_elem_of_cons in Hn as [Hne Hn].
  rewrite filter_cons_True by congruence. by rewrite IH.
Qed.

Lemma set_delete_add cb s : cb ∉ s → set_delete cb (set_add cb s) = s.
Proof.
  intros Hn. unfold set_add, set_delete.
  rewrite bool_decide_eq_false_2 by done.
  rewrite filter_app, filter_cons_False, filter_nil, app_nil_r
    by (intros Hk; by apply Hk).
  by apply filter_without_absent.
Qed.

Lemma set_add_NoDup cb s : NoDup s → NoDup (set_add cb s).
Proof.
  intros Hnd. unfold set_add. case_bool_decide as Hin; [done|].
  apply NoDup_app. split_and!; [done | | apply NoDup_singleton].
  intros x Hx Hx'%list_elem_of_singleton. congruence.
Qed.

Lemma set_add_nonempty cb s : set_add cb s ≠ [].
Proof.
  unfold set_add. case_bool_decide as Hin.
  - intros ->. by apply elem_of_nil in Hin.
  - by destruct s.
Qed.

Lemma tidy_on event cb e : tidy e → tidy (on event cb e).
Proof.
  intros [Hwf Hall]. unfold tidy, on. cbn [events].
  set (m1 := if negb (jsmap_has event (events e))
             then jsmap_set event [] (events e) else events e).
  assert (Hwf1 : jsmap_wf m1).
  { subst m1. destruct (jsmap_has event (events e)); simpl; [done|].
    by apply jsmap_set_wf. }
  split; [by apply jsmap_set_wf|].
  assert (Hslot : NoDup (default [] (jsmap_get event m1))).
  { subst m1. destruct (jsmap_has event (events e)) eqn:Hhas; simpl.
    - destruct (jsmap_get event (events e)) as [s|] eqn:Hget; [|apply NoDup_nil_2].
      by destruct (jsmap_get_Forall _ _ _ _ Hall Hget).
    - rewrite jsmap_get_set, decide_True by done. apply NoDup_nil_2. }
  assert (Hnew : set_add cb (default [] (jsmap_get event m1)) ≠ [] ∧
                 NoDup (set_add cb (default [] (jsmap_get event m1))))
    by (split; [apply set_add_nonempty | by apply set_add_NoDup]).
  subst m1. destruct (jsmap_has event (events e)); simpl in *.
  - by apply (jsmap_set_Forall (λ entry, entry.2 ≠ [] ∧ NoDup entry.2)).
  - rewrite jsmap_set_set.
    by apply (jsmap_set_Forall (λ entry, entry.2 ≠ [] ∧ NoDup entry.2)).
Qed.

Lemma tidy_off event cb e : tidy e → tidy (off event cb e).
Proof.
  intros [Hwf Hall]. unfold tidy, off.
  destruct (jsmap_get event (events e)) as [callbacks|] eqn:Hget; [|done].
  destruct (jsmap_get_Forall _ _ _ _ Hall Hget) as [_ Hnd]. simpl in Hnd.
  case_bool_decide as Hempty; cbn [events].
  - split; [by apply jsmap_delete_wf|].
    unfold jsmap_delete. rewrite Forall_forall in Hall. apply Forall_forall.
    intros entry [_ Hin]%list_elem_of_filter. by apply Hall.
  - split; [by apply jsmap_set_wf|].
    apply (jsmap_set_Forall (λ entry, entry.2 ≠ [] ∧ NoDup entry.2)); [|done].
    simpl. split; [|by apply NoDup_filter].
    intros Hnil. apply Hempty. by rewrite Hnil.
Qed.

(** X9. The emitter keeps no empty Set behind.  After any calls of on and off,
    every event that the Map still holds has at least one callback, no
    callback twice, and appears once in the Map. *)
Theorem memory_emitter_stays_tidy (ops : list op) :
  jsmap_wf (events (run ops new)) ∧
  Forall (λ entry, entry.2 ≠ [] ∧ NoDup entry.2) (events (run ops new)).
Proof.
  change (tidy (run ops new)).
  assert (Hnew : tidy new) by (split; [apply NoDup_nil_2 | apply Forall_nil_2]).
  revert Hnew. generalize new. unfold run.
  induction ops as [|o ops IH]; intros e He; [done|].
  simpl. apply IH. destruct o; [by apply tidy_on | by apply tidy_off].
Qed.




(** X11. Unsubscribing undoes subscribing: on an emitter reached by on and off
    calls, registering a callback that the event does not have yet and then
    removing it gives back the emitter as it was. *)
Theorem memory_emitter_unsubscribe_undoes (ops : list op) (event : val) (cb : callback) :
  cb ∉ slot event (events (run ops new)) →
  off event cb (on event cb (run ops new)) = run ops new.
Proof.
  destruct (memory_emitter_stays_tidy ops) as [Hwf Hall].
  generalize dependent (run ops new). intros [m] Hwf Hall Hfresh. simpl in *.
  unfold on. cbn [events].
  destruct (jsmap_has event m) eqn:Hhas; cbn [negb].
  - destruct (jsmap_get event m) as [s|] eqn:Hget.
    2:{ apply jsmap_get_None_has in Hget. congruence. }
    unfold slot in Hfresh. rewrite Hget in Hfresh. simpl in Hfresh.
    destruct (jsmap_get_Forall _ _ _ _ Hall Hget) as [Hne _]. simpl in Hne.
    unfold off. cbn [events]. rewrite jsmap_get_set, decide_True by done.
    cbn [default]. rewrite set_delete_add by done.
    rewrite bool_decide_eq_false_2 by (by destruct s).
    by rewrite jsmap_set_set, jsmap_set_same.
  - assert (Habsent : event ∉ jsmap_keys m).
    { intros Hin. apply jsmap_has_true in Hin. congruence. }
    rewrite jsmap_get_set, decide_True by done. cbn [default].
    rewrite jsmap_set_set, (jsmap_set_absent _ _ _ Habsent).
    unfold off. cbn [events].
    rewrite jsmap_get_app, (proj2 (jsmap_get_None event m) Habsent).
    cbn [jsmap_get]. rewrite decide_True by done.
    rewrite set_delete_add by apply not_elem_of_nil.
    rewrite bool_decide_eq_true_2 by done.
    by rewrite jsmap_delete_snoc.
Qed.

Lemma memory_emitter_unsubscribe_undoes_witness :
  (7%nat ∉ slot (VStr "tick") (events (run [On (VStr "tick") 3%nat] new))) ∧
  off (VStr "tick") 7%nat (on (VStr "tick") 7%nat (run [On (VStr "tick") 3%nat] new)) =
    run [On (VStr "tick") 3%nat] new.
Proof.
  assert (Hfresh : 7%nat ∉ slot (VStr "tick")
                     (events (run [On (VStr "tick") 3%nat] new))).
  { vm_compute. intros Hin. apply list_elem_of_singleton in Hin. discriminate Hin. }
  split; [done|].
  exact (memory_emitter_unsubscribe_undoes [On (VStr "tick") 3%nat] (VStr "tick")
           7%nat Hfresh).
Defined.

End MemoryEfficientEmitterFacts.

(** ** EventSystem: off and once *)
Module EventSystemFacts.
Import EventSystem EventSystemOnce.



Section WithCallbacks.
Context {W : Type}.
Variable body : callback → list val → closure W.






End WithCallbacks.


(** Callback 7 registered plainly and then with once: both listeners are
    called by the first emit and both are gone for the second. *)
Example event_system_once_takes_all :
  let e := on (VStr "tick") 7%nat (mk_options true)
             (on (VStr "tick") 7%nat default_options new) in
  calls_made (emit Emitter.logging (VStr "tick") VNull e []) =
    [(7%nat, [VNull]); (7%nat, [VNull])] ∧
  calls_made (emit Emitter.logging (VStr "tick") VNull
                (emitter_after (emit Emitter.logging (VStr "tick") VNull e [])) []) = [].
Proof. split; reflexivity. Qed.

(** A listener registered with once that throws is gone all the same, and
    the listener after it was neither called nor taken off. *)
Example event_system_once_throws :
  let e := on (VStr "tick") 8%nat (mk_options true)
             (on (VStr "tick") 7%nat (mk_options true) new) in
  emit (Emitter.failing 7%nat) (VStr "tick") VNull e [] =
    Emitted [(7%nat, [VNull])]
            (mk [(VStr "tick", [mk_listener 8%nat (mk_options true)])])
            [7%nat] (Throw (VError "listener failed")).
Proof. reflexivity. Qed.

End EventSystemFacts.

(** ** pipeline and compose *)
Module CompositionFacts.
Import AdvancedFunctions.

Section WithWorld.
Context {W : Type}.
Implicit Types (fs gs : list (val → closure W)) (x : val) (w : W).

Lemma pipeline_snoc fs (f : val → closure W) x w :
  pipeline (fs ++ [f]) x w =
    match pipeline fs x w with
    | (w1, Return y) => f y w1
    | (w1, Throw e) => (w1, Throw e)
    end.
Proof.
  revert x w. induction fs as [|g fs IH]; intros x w; simpl.
  - by destruct (f x w) as [w1 [y|e]].
  - destruct (g x w) as [w1 [y|e]]; [apply IH | done].
Qed.

(** X14. Pipelines chain: the pipeline of [fs ++ gs] is the pipeline of [fs]
    followed, if it returns, by the pipeline of [gs] on its result; a throw
    ends the pipeline where it occurs, and the empty pipeline returns its
    input. *)
Theorem pipeline_concatenates fs gs x w :
  pipeline (fs ++ gs) x w =
    match pipeline fs x w with
    | (w1, Return y) => pipeline gs y w1
    | (w1, Throw e) => (w1, Throw e)
    end ∧
  pipeline [] x w = (w, Return x).
Proof.
  split; [|done].
  revert x w. induction fs as [|f fs IH]; intros x w; simpl; [done|].
  destruct (f x w) as [w1 [y|e]]; [apply IH | done].
Qed.

(** X15. compose applies the same functions as pipeline, last one first:
    composing a list is running the reversed list as a pipeline. *)
Theorem compose_is_reversed_pipeline fs x w :
  compose fs x w = pipeline (reverse fs) x w.
Proof.
  induction fs as [|f fs IH]; [done|].
  rewrite reverse_cons, pipeline_snoc. simpl. by rewrite IH.
Qed.

End WithWorld.
End CompositionFacts.

(** ** memoize *)
Module MemoizeFacts.
Import AdvancedFunctions.

Section WithWorld.
Context {W : Type}.
Variable stringify : list val → string.
Implicit Types (fn : list val → closure W) (cache : list (string * val)) (w : W).

Lemma memoize_hit fn args cache w v :
  jsmap_get (stringify args) cache = Some v →
  memoize stringify fn args cache w = (cache, w, Return v, []).
Proof.
  intros Hget. unfold memoize.
  by rewrite (jsmap_get_Some_has _ _ _ Hget), Hget.
Qed.

Lemma memoize_keeps fn args cache w key v :
  jsmap_get key cache = Some v →
  jsmap_get key (memoize stringify fn args cache w).1.1.1 = Some v.
Proof.
  intros Hget. unfold memoize.
  destruct (jsmap_has (stringify args) cache) eqn:Hhas; cbn [negb]; [done|].
  destruct (fn args w) as [w1 [r|e]]; cbn [fst]; [|done].
  rewrite jsmap_get_set, decide_False; [done|].
  intros ->. apply jsmap_get_Some_has in Hget. congruence.
Qed.

Lemma memoize_calls_keep fn calls cache w key v :
  jsmap_get key cache = Some v →
  jsmap_get key (memoize_calls stringify fn calls cache w).1 = Some v.
Proof.
  revert cache w. induction calls as [|args rest IH]; intros cache w Hget; [done|].
  cbn [memoize_calls].
  pose proof (memoize_keeps fn args cache w key v Hget) as Hkeep.
  destruct (memoize stringify fn args cache w) as [[[cache1 w1] o] invoked].
  by apply IH.
Qed.

Lemma memoize_returned fn args cache w r :
  (memoize stringify fn args cache w).1.2 = Return r →
  jsmap_get (stringify args) (memoize stringify fn args cache w).1.1.1 = Some r.
Proof.
  unfold memoize.
  destruct (jsmap_has (stringify args) cache) eqn:Hhas; cbn [negb].
  - cbn [fst snd]. apply jsmap_has_true in Hhas.
    destruct (jsmap_get (stringify args) cache) as [v|] eqn:Hget.
    + simpl. by intros [= ->].
    + by apply jsmap_get_None in Hget.
  - destruct (fn args w) as [w1 [r1|e]]; cbn [fst snd]; [|done].
    rewrite jsmap_get_set, decide_True by done. simpl. by intros [= ->].
Qed.

(** X16. What a memoized function has returned it returns again.  Once a call
    returned [r], every later call whose arguments stringify to the same
    key returns [r] without invoking [fn] and without touching the world or
    the cache, whatever calls were made in between. *)
Theorem memoize_remembers fn (args args' : list val) (between : list (list val))
    cache w (r : val) :
  (memoize stringify fn args cache w).1.2 = Return r →
  stringify args' = stringify args →
  let first := memoize stringify fn args cache w in
  let later := memoize_calls stringify fn between first.1.1.1 first.1.1.2 in
  memoize stringify fn args' later.1 later.2 = (later.1, later.2, Return r, []).
Proof.
  intros Hret Hkey first later.
  apply memoize_hit. rewrite Hkey. subst later.
  apply memoize_calls_keep. subst first. by apply memoize_returned.
Qed.

End WithWorld.

Lemma memoize_remembers_witness :
  (memoize by_length counting [VNum 1] [] 0%nat).1.2 = Return (VNum 1) ∧
  by_length [VNum 2] = by_length [VNum 1] ∧
  memoize by_length counting [VNum 2] [("[...]", VNum 1); ("[]", VNum 2)] 2%nat =
    ([("[...]", VNum 1); ("[]", VNum 2)], 2%nat, Return (VNum 1), []).
Proof.
  assert (Hret : (memoize by_length counting [VNum 1] [] 0%nat).1.2 = Return (VNum 1))
    by reflexivity.
  assert (Hkey : by_length [VNum 2] = by_length [VNum 1]) by reflexivity.
  split_and!; [done | done |].
  exact (memoize_remembers by_length counting [VNum 1] [VNum 2] [[]] [] 0%nat
           (VNum 1) Hret Hkey).
Defined.

End MemoizeFacts.

(** ** curry *)
Module CurryFacts.
Import FunctionPatterns.

Lemma curried_waits arity args groups :
  (length (args ++ concat groups) < arity)%nat →
  curried arity args groups = inr (args ++ concat groups).
Proof.
  revert args. induction groups as [|g groups IH]; intros args Hlen; simpl in *.
  - by rewrite app_nil_r.
  - rewrite app_assoc in Hlen.
    rewrite bool_decide_eq_false_2.
    + rewrite IH by done. by rewrite app_assoc.
    + rewrite !length_app in *. lia.
Qed.

(** X17. Currying loses no argument.  However the arguments are split over the
    successive calls, as long as they fall short of the arity before the
    last call and reach it with the last call, [fn] is called once, with
    all of them in order. *)
Theorem curried_collects (arity : nat) (groups : list (list val)) (last : list val) :
  (length (concat groups) < arity)%nat →
  (arity ≤ length (concat groups ++ last))%nat →
  curried arity [] (groups ++ [last]) = inl (concat groups ++ last, []).
Proof.
  change (concat groups) with ([] ++ concat groups) at 1 2 3.
  generalize (@nil val) as args.
  induction groups as [|g groups IH]; intros args Hshort Hfull; simpl in *.
  - rewrite app_nil_r in *. by rewrite bool_decide_eq_true_2.
  - rewrite app_assoc in Hshort.
    rewrite bool_decide_eq_false_2 by (rewrite !length_app in *; lia).
    rewrite IH; [by rewrite !app_assoc | done | by rewrite <- !app_assoc in *].
Qed.

Lemma curried_collects_witness :
  (length (concat [[VNum 1]; []; [VNum 2]]) < 3)%nat ∧
  (3 ≤ length (concat [[VNum 1]; []; [VNum 2]] ++ [VNum 3; VNum 4]))%nat ∧
  curried 3 [] ([[VNum 1]; []; [VNum 2]] ++ [[VNum 3; VNum 4]]) =
    inl ([VNum 1; VNum 2; VNum 3; VNum 4], []).
Proof.
  assert (Hshort : (length (concat [[VNum 1]; []; [VNum 2]]) < 3)%nat)
    by (simpl; lia).
  assert (Hfull : (3 ≤ length (concat [[VNum 1]; []; [VNum 2]] ++ [VNum 3; VNum 4]))%nat)
    by (simpl; lia).
  split_and!; [done | done |].
  exact (curried_collects 3 [[VNum 1]; []; [VNum 2]] [VNum 3; VNum 4] Hshort Hfull).
Defined.

End CurryFacts.

(** ** once, throttle and debounce *)
Module TimerWrapperFacts.
Import InterviewQuestions.

Section WithWorld.
Context {W : Type}.
Implicit Types (fn : list val → closure W) (w : W).

Lemma once_calls_called fn calls (s : once_state) w :
  called s = true →
  once_calls fn calls s w = (replicate (length calls) (Return (result s)), [], w).
Proof.
  intros Hcalled. induction calls as [|args rest IH]; [done|].
  cbn [once_calls]. unfold once. rewrite Hcalled. cbn [negb].
  by rewrite IH.
Qed.

(** X18. A function wrapped by once runs once.  Over any series of calls, [fn]
    is invoked for the first call only; the first call has the outcome of
    [fn], and every later call returns what [fn] returned, or undefined if
    [fn] threw. *)
Theorem once_invokes_once fn (args : list val) (rest : list (list val)) w :
  once_calls fn (args :: rest) once_initial w =
    (let '(w1, o) := fn args w in
     (o :: replicate (length rest)
             (Return (match o with Return r => r | Throw _ => VUndefined end)),
      [args], w1)).
Proof.
  cbn [once_calls]. unfold once at 1. cbn [called once_initial negb].
  destruct (fn args w) as [w1 [r|e]]; by rewrite once_calls_called.
Qed.

Lemma throttle_step fn ev (s : throttle_state) w :
  throttle_ok s →
  let '(s1, _, log) := throttle fn ev s w in
  throttle_ok s1 ∧ (returned log + timers s = resets log + timers s1)%nat.
Proof.
  intros [Hle Hiff]. destruct s as [flag n]. simpl in *.
  destruct ev as [args|]; unfold throttle; cbn [inThrottle timers].
  - destruct flag; cbn [negb].
    + split; [done | simpl; lia].
    + destruct (fn args w) as [w1 [r|e]].
      * assert (n = 0%nat) as ->.
        { destruct n as [|[|n]]; [done | | lia].
          by pose proof (proj2 Hiff eq_refl). }
        split; [split; [simpl; lia | done] | done].
      * split; [done | done].
  - destruct n as [|n].
    + split; [done | done].
    + assert (n = 0%nat) as -> by lia.
      split; [split; [simpl; lia | done] | done].
Qed.

Lemma throttle_run_ok fn evs (s : throttle_state) w :
  throttle_ok s →
  let '(s1, _, log) := throttle_run fn evs s w in
  throttle_ok s1 ∧ (returned log + timers s = resets log + timers s1)%nat.
Proof.
  revert s w. induction evs as [|ev rest IH]; intros s w Hs; cbn [throttle_run].
  - split; [done | done].
  - pose proof (throttle_step fn ev s w Hs) as Hstep.
    destruct (throttle fn ev s w) as [[s1 w1] log]. destruct Hstep as [Hs1 Hcount].
    specialize (IH s1 w1 Hs1).
    destruct (throttle_run fn rest s1 w1) as [[s2 w2] log_rest].
    destruct IH as [Hs2 Hcount2]. split; [done|].
    unfold returned, resets in *. rewrite !filter_app, !length_app. lia.
Qed.

(** X19. A throttled function waits for its timer.  Whatever calls and timer
    expiries follow one another, at most one reset timer is set at any
    time, [inThrottle] holds exactly while it is set, and the invocations
    of [fn] that returned are as many as the timers that fired, plus the
    one that is still set. *)
Theorem throttle_one_per_timer fn (evs : list timer_event) w :
  let '(s, _, log) := throttle_run fn evs throttle_initial w in
  (timers s ≤ 1)%nat ∧
  (inThrottle s = true ↔ timers s = 1%nat) ∧
  returned log = (resets log + timers s)%nat.
Proof.
  assert (Hinit : throttle_ok throttle_initial) by (split; [simpl; lia | done]).
  pose proof (throttle_run_ok fn evs throttle_initial w Hinit) as Hrun.
  destruct (throttle_run fn evs throttle_initial w) as [[s w1] log].
  destruct Hrun as [[Hle Hiff] Hcount]. simpl in Hcount.
  split_and!; [done | done | lia].
Qed.

Lemma debounce_run_calls fn (argss : list (list val)) (last : list val)
    (rest : list timer_event) pending w :
  debounce_run fn (map Called (argss ++ [last]) ++ rest) pending w =
    debounce_run fn rest (Some last) w.
Proof.
  revert pending. induction argss as [|args argss IH]; intros pending;
    cbn [app map debounce_run debounce].
  - by destruct (debounce_run fn rest (Some last) w) as [[p2 w2] log].
  - rewrite IH. by destruct (debounce_run fn rest (Some last) w) as [[p2 w2] log].
Qed.

(** X20. A debounced function runs once per burst.  Calls that follow one
    another before the timer fires lead to a single invocation of [fn],
    when the timer fires, with the arguments of the last call; the earlier
    calls of the burst and whatever timer was pending before it are
    dropped. *)
Theorem debounce_keeps_last fn (argss : list (list val)) (last : list val)
    (pending : option (list val)) w :
  debounce_run fn (map Called (argss ++ [last]) ++ [TimerFired]) pending w =
    (let '(w1, o) := fn last w in (None, w1, [Invoked last o])).
Proof.
  rewrite debounce_run_calls. cbn [debounce_run debounce].
  by destruct (fn last w) as [w1 o].
Qed.

End WithWorld.
End TimerWrapperFacts.

(** ** SparseArray *)
Module SparseArrayFacts.
Import JSNumber SparseArray.

Lemma fill_snoc sets index value a :
  fill (sets ++ [(index, value)]) a = set index value (fill sets a).
Proof. unfold fill. by rewrite foldl_snoc. Qed.

(** X21. As long as the indices set are safe integers, the length of a
    sparse array is one more than the largest index ever set, and 0 if none
    was set or all were negative: every index set is below it, it is
    reached by one of them unless it is 0, and nothing is found at or past
    it.  Whatever the indices, what was just set at an index is what get
    returns there, other indices keeping their value. *)
Theorem sparse_array_length (sets : list (Z * val)) :
  let a := fill sets new in
  (Forall (λ s, Z.abs s.1 ≤ MAX_SAFE_INTEGER) sets →
     0 ≤ length a ∧
     (∀ index value, (index, value) ∈ sets → index < length a) ∧
     (length a = 0 ∨ ∃ value, (length a - 1, value) ∈ sets) ∧
     (∀ index, length a ≤ index → get index a = VUndefined)) ∧
  (∀ index value other,
     get index (set index value a) = value ∧
     (other ≠ index → get other (set index value a) = get other a)).
Proof.
  intros a. split.
  - intros Hsafe.
    assert (Hinv : 0 ≤ length a ∧
              (∀ index value, (index, value) ∈ sets → index < length a) ∧
              (length a = 0 ∨ ∃ value, (length a - 1, value) ∈ sets) ∧
              (∀ index value, jsmap_get index (data a) = Some value → index < length a)).
    { subst a. induction sets as [|[i v] sets IH] using rev_ind.
      - simpl. split_and!; [done | | by left | done].
        intros index value Hin. by apply elem_of_nil in Hin.
      - apply Forall_app in Hsafe as [Hsafe Hi].
        apply Forall_inv in Hi. cbn [fst] in Hi.
        destruct (IH Hsafe) as (H0 & Hset & Hmax & Hdata).
        rewrite fill_snoc. unfold set. cbn [length data].
        rewrite JSNumberFacts.round_whole_safe by (unfold MAX_SAFE_INTEGER in Hi; lia).
        split_and!.
        + lia.
        + intros index value [Hin|Hin%list_elem_of_singleton]%elem_of_app.
          * specialize (Hset index value Hin). lia.
          * injection Hin as -> ->. lia.
        + destruct (decide (length (fill sets new) ≤ i)) as [Hle|Hgt].
          * right. exists v. rewrite Z.max_r by lia.
            replace (i + 1 - 1) with i by lia. apply elem_of_app. right. left.
          * rewrite Z.max_l by lia. destruct Hmax as [Hz|[value Hin]]; [by left|].
            right. exists value. apply elem_of_app. by left.
        + intros index value. rewrite jsmap_get_set.
          destruct (decide (index = i)) as [->|Hne]; [lia|].
          intros Hget. specialize (Hdata index value Hget). lia. }
    destruct Hinv as (H0 & Hset & Hmax & Hdata).
    split_and!; [done | done | done |].
    intros index Hle. unfold get.
    destruct (jsmap_get index (data a)) as [value|] eqn:Hget; [|done].
    specialize (Hdata index value Hget). lia.
  - intros index value other. unfold get, set. cbn [data].
    rewrite !jsmap_get_set, decide_True by done.
    split; [done|]. intros Hne. by rewrite decide_False.
Qed.

Lemma sparse_array_length_witness :
  let a := fill [(2, VStr "c"); (0, VStr "a")] new in
  Forall (λ s : Z * val, Z.abs s.1 ≤ MAX_SAFE_INTEGER) [(2, VStr "c"); (0, VStr "a")] ∧
  length a ≤ 3 ∧ get 3 a = VUndefined.
Proof.
  intros a.
  assert (Hsafe : Forall (λ s : Z * val, Z.abs s.1 ≤ MAX_SAFE_INTEGER)
                    [(2, VStr "c"); (0, VStr "a")]).
  { repeat constructor; vm_compute; discriminate. }
  assert (Hpast : length a ≤ 3) by (vm_compute; discriminate).
  split_and!; [done | done |].
  destruct (proj1 (sparse_array_length [(2, VStr "c"); (0, VStr "a")]) Hsafe)
    as (_ & _ & _ & Hout).
  exact (Hout 3 Hpast).
Defined.

(** A negative index is stored and found, but does not count. *)
Example sparse_array_negative_index :
  let a := set (-5) (VStr "x") new in
  get (-5) a = VStr "x" ∧ length a = 0.
Proof. split; reflexivity. Qed.

(** Past the safe integers the length no longer exceeds the index:
    [2^53 + 1] is no double, so at index [2^53] the length is [2^53] and
    the value is found at the length. *)
Example sparse_array_beyond_safe_integers :
  let a := set (2 ^ 53) (VStr "x") new in
  length a = 2 ^ 53 ∧ get (length a) a = VStr "x".
Proof. split; reflexivity. Qed.

End SparseArrayFacts.

(** ** findDuplicates *)
Module FindDuplicatesFacts.
Import ArrayInterviewQuestions.

Section WithValues.
Context {A : Type} `{EqDecision A}.
Implicit Types (x y : A) (l arr : list A).

Lemma filter_agree {B} (P Q : B → Prop) `{!∀ b, Decision (P b), !∀ b, Decision (Q b)}
    (bs : list B) :
  (∀ b, b ∈ bs → P b ↔ Q b) → filter P bs = filter Q bs.
Proof.
  induction bs as [|b bs IH]; intros Hagree; [done|].
  rewrite !filter_cons.
  destruct (decide (P b)) as [HP|HP], (decide (Q b)) as [HQ|HQ].
  - f_equal. apply IH. intros b' Hb'. apply Hagree. by right.
  - exfalso. apply HQ, Hagree; [left | done].
  - exfalso. apply HP, Hagree; [left | done].
  - apply IH. intros b' Hb'. apply Hagree. by right.
Qed.

Lemma indexOf_app_l x l y : x ∈ l → indexOf x (l ++ [y]) = indexOf x l.
Proof.
  intros Hin. unfold indexOf.
  destruct (list_find_elem_of (λ z, z = x) l x Hin eq_refl) as [[i z] Hfind].
  by rewrite (list_find_app_l _ _ _ _ _ Hfind), Hfind.
Qed.

Lemma indexOf_lt x l i : indexOf x l = Some i → (i < List.length l)%nat.
Proof.
  unfold indexOf. destruct (list_find (λ z, z = x) l) as [[j z]|] eqn:Hfind; [|done].
  simpl. intros [= <-]. apply list_find_Some in Hfind as (Hj & _).
  by apply lookup_lt_Some in Hj.
Qed.

Lemma indexOf_new x l : x ∉ l → indexOf x (l ++ [x]) = Some (List.length l).
Proof.
  intros Hn. unfold indexOf. rewrite list_find_app_r.
  - simpl. by rewrite decide_True.
  - apply list_find_None, Forall_forall. by intros z Hz ->.
Qed.

Lemma findDuplicates_snoc l x :
  findDuplicates (l ++ [x]) = findDuplicates l ++ (if decide (x ∈ l) then [x] else []).
Proof.
  unfold findDuplicates. rewrite imap_app, filter_app, fmap_app. f_equal.
  - f_equal. apply filter_agree. intros [i y] Hin.
    apply elem_of_lookup_imap_1 in Hin as (j & z & [= -> ->] & Hj). simpl.
    rewrite indexOf_app_l; [done|]. by eapply list_elem_of_lookup_2.
  - simpl. rewrite Nat.add_0_r, filter_cons, filter_nil. simpl.
    destruct (decide (x ∈ l)) as [Hin|Hn].
    + rewrite decide_True; [done|].
      rewrite indexOf_app_l by done. intros Hidx%indexOf_lt. lia.
    + rewrite decide_False; [done|]. intros Hne. apply Hne. by apply indexOf_new.
Qed.

Lemma occurrences_app x l1 l2 :
  occurrences x (l1 ++ l2) = (occurrences x l1 + occurrences x l2)%nat.
Proof. unfold occurrences. by rewrite filter_app, length_app. Qed.

Lemma occurrences_nil x : occurrences x [] = 0%nat.
Proof. done. Qed.

Lemma occurrences_absent x l : x ∉ l → occurrences x l = 0%nat.
Proof.
  intros Hn. unfold occurrences.
  induction l as [|y l IH]; [done|]. apply not_elem_of_cons in Hn as [Hne Hn].
  rewrite filter_cons_False by congruence. by apply IH.
Qed.

Lemma occurrences_present x l : x ∈ l → (1 ≤ occurrences x l)%nat.
Proof.
  unfold occurrences. induction 1 as [y l|y z l Hin IH].
  - rewrite filter_cons_True by done. simpl. lia.
  - rewrite filter_cons. destruct (decide (z = y)); simpl; lia.
Qed.

Lemma occurrences_single x y : occurrences x [y] = if decide (y = x) then 1%nat else 0%nat.
Proof. unfold occurrences. rewrite filter_cons, filter_nil. by case_decide. Qed.

(** X22. findDuplicates returns the repeats.  A value that occurs k times in the
    array occurs k - 1 times in the result (a value absent from the array
    is absent from the result), so the result is empty exactly when no
    value occurs twice. *)
Theorem findDuplicates_repeats arr :
  (∀ x, occurrences x (findDuplicates arr) = (occurrences x arr - 1)%nat) ∧
  (findDuplicates arr = [] ↔ NoDup arr).
Proof.
  induction arr as [|y l [IHocc IHnd]] using rev_ind.
  - split; [done|]. split; [intros _; apply NoDup_nil_2 | done].
  - rewrite findDuplicates_snoc. split.
    + intros x. rewrite !occurrences_app, IHocc, occurrences_single.
      destruct (decide (y ∈ l)) as [Hin|Hn].
      * rewrite occurrences_single. case_decide as Heq; [|lia].
        subst y. pose proof (occurrences_present x l Hin). lia.
      * rewrite occurrences_nil.
        case_decide as Heq; [|lia].
        subst y. rewrite (occurrences_absent x l Hn). lia.
    + rewrite NoDup_app. destruct (decide (y ∈ l)) as [Hin|Hn].
      * split; [intros Happ; by destruct (findDuplicates l)|].
        intros (_ & Hdisj & _). exfalso. apply (Hdisj y Hin). left.
      * rewrite app_nil_r, IHnd. split; [|tauto].
        intros Hnd. split_and!; [done | | apply NoDup_singleton].
        intros z Hz Hz'%list_elem_of_singleton. congruence.
Qed.

End WithValues.

Example findDuplicates_of_numbers :
  findDuplicates [1; 2; 1; 3; 2; 1] = [1; 2; 1].
Proof. reflexivity. Qed.

End FindDuplicatesFacts.

(** ** TestRunner: what a run reports *)
Module TestRunnerMoreFacts.
Import TestRunner TestRunnerSuites.

Section WithWorld.
Context {W : Type}.
Implicit Types (r : t W) (w : W).





End WithWorld.



End TestRunnerMoreFacts.

(** ** circuitBreaker: tripping *)
Module CircuitBreakerMoreFacts.
Import AdvancedErrorHandling CircuitBreakerRuns.

Section WithWorld.
Context {W : Type}.
Variable now : W → Z.
Variable operation : list val → closure W.

Lemma repeat_calls_failing threshold (k : nat) args (s : state) w :
  always_throws operation →
  failures s + Z.of_nat k ≤ threshold →
  let '(s1, w1) := repeat_calls now operation threshold k args s w in
  failures s1 = failures s + Z.of_nat k ∧
  (k = 0%nat → s1 = s) ∧
  ((0 < k)%nat → ∃ t, lastFailure s1 = Some t).
Proof.
  intros Hthrows. revert s w. induction k as [|k IH]; intros s w Hle.
  - simpl. split_and!; [lia | done | lia].
  - cbn [repeat_calls]. unfold circuitBreaker.
    rewrite bool_decide_eq_false_2 by lia.
    unfold try_operation. destruct (Hthrows args w) as (w1 & e & ->).
    specialize (IH {| failures := failures s + 1; lastFailure := Some (now w1) |} w1).
    cbn [failures lastFailure] in IH.
    destruct (repeat_calls now operation threshold k args _ w1) as [s2 w2].
    destruct IH as (Hf & Hsame & Hlast); [lia|].
    split_and!; [lia | lia |]. intros _. destruct k as [|k].
    + rewrite Hsame by done. by eexists.
    + apply Hlast. lia.
Qed.

(** X25. The breaker trips.  With an operation that fails on every call and a
    threshold of [n] at least 1, [n] calls on a new breaker leave [n]
    failures counted; from then on a call made
    less than 60000 ms after the last failure is turned away with 'Circuit
    breaker open' and the operation is left alone. *)
Theorem circuit_breaker_trips (n : nat) (args : list val) (w : W) :
  (1 ≤ n)%nat →
  always_throws operation →
  let after := repeat_calls now operation (Z.of_nat n) n args initial w in
  failures after.1 = Z.of_nat n ∧
  ∀ args' w',
    now w' - to_number (lastFailure after.1) < 60000 →
    circuitBreaker now operation (Z.of_nat n) args' after.1 w' =
      (after.1, w', Throw (VError "Circuit breaker open"), []).
Proof.
  intros Hn Hthrows after.
  pose proof (repeat_calls_failing (Z.of_nat n) n args initial w Hthrows) as Hrun.
  fold after in Hrun. destruct after as [s w1]. cbn [fst].
  destruct Hrun as (Hf & _ & _); [simpl; lia|]. simpl in Hf.
  split; [lia|]. intros args' w' Hrecent.
  unfold circuitBreaker.
  rewrite bool_decide_eq_true_2 by lia.
  by rewrite bool_decide_eq_true_2.
Qed.

End WithWorld.

Lemma circuit_breaker_trips_witness :
  (1 ≤ 2)%nat ∧ always_throws down ∧
  circuitBreaker id down 2 [] (repeat_calls id down 2 2 [] initial 1000).1 5000 =
    ({| failures := 2; lastFailure := Some 1020 |}, 5000,
     Throw (VError "Circuit breaker open"), []).
Proof.
  assert (Hn : (1 ≤ 2)%nat) by lia.
  assert (Hthrows : always_throws down) by (intros args w; eexists _, _; reflexivity).
  split_and!; [done | done |].
  destruct (circuit_breaker_trips id down 2 [] 1000 Hn Hthrows) as [_ Hopen].
  apply (Hopen [] 5000). vm_compute. reflexivity.
Defined.

End CircuitBreakerMoreFacts.

(** ** Retry helpers: nothing to attempt *)
Module RetryMoreFacts.
Import JSNumber JSNumberFacts RetryHelpers.

(** X26. With a number of attempts of 0 or less no helper invokes the operation
    or waits; each returns undefined, and does so without throwing. *)
Theorem retry_without_attempts {W : Type} (sleep : Z → W → W) (h : helper)
    (fn : closure W) (attempts : number) (delay : Z) (w : W) (fuel : nat) :
  le attempts (of_Z 0) = true →
  (1 ≤ fuel)%nat →
  run_helper sleep fuel h fn attempts delay w = Some (w, [], Return VUndefined).
Proof.
  intros Hnone Hfuel. destruct fuel as [|fuel]; [lia|].
  assert (Hlt : lt (of_Z 0) attempts = false ∧ le (of_Z 1) attempts = false).
  { destruct attempts as [m e|[|]|]; try done.
    change (ge (of_Z 0) (Finite m e) = true) in Hnone. apply ge_whole in Hnone.
    pose proof (denominator_pos e) as HP. split.
    - destruct (lt (of_Z 0) (Finite m e)) eqn:Hlt; [|done].
      apply lt_whole in Hlt. lia.
    - destruct (le (of_Z 1) (Finite m e)) eqn:Hle; [|done].
      apply le_whole in Hle. lia. }
  destruct Hlt as [Hlt Hle].
  destruct h; unfold run_helper.
  - unfold retry. cbn [retry_loop]. by rewrite Hlt.
  - unfold RetryMechanism.retry. cbn [RetryMechanism.retry_loop]. by rewrite Hle.
  - unfold ErrorPatterns.retryOperation. cbn [ErrorPatterns.retryOperation_loop].
    by rewrite Hle.
Qed.

Lemma retry_without_attempts_witness :
  le (of_Z (-1)) (of_Z 0) = true ∧ (1 ≤ 1)%nat ∧
  run_helper no_sleep 1 TheRetryFunction flaky (of_Z (-1)) 1000 0%nat =
    Some (0%nat, [], Return VUndefined).
Proof.
  assert (Hnone : le (of_Z (-1)) (of_Z 0) = true) by reflexivity.
  assert (Hfuel : (1 ≤ 1)%nat) by lia.
  split_and!; [done | done |].
  exact (retry_without_attempts no_sleep TheRetryFunction flaky (of_Z (-1)) 1000
           0%nat 1 Hnone Hfuel).
Defined.

End RetryMoreFacts.

(** ** RateLimiter *)
Module RateLimiterFacts.
Import RateLimiter.

Section WithWorld.
Context {W : Type}.
Variable now : W → Z.
Variable sleep : option Z → W → W.

(** X27. The limiter delays, it never refuses.  For a positive window and a
    clock that has not run backwards, a call of throttle leaves recorded
    only times within the window before the call, the time of the call
    last; it waits exactly when maxRequests or more of the earlier requests
    are within the window, then once, for a time that is positive and at
    most the window; and it calls [fn] in either case. *)
Theorem rate_limiter_delays (fn : closure W) (l : t) (w : W) :
  0 < timeWindow l →
  1 ≤ maxRequests l →
  Forall (λ time, time ≤ now w) (requests l) →
  let recent := filter (λ time, now w - time < timeWindow l) (requests l) in
  let '(l1, w2, o, waits) := throttle now sleep fn l w in
  requests l1 = recent ++ [now w] ∧
  Forall (λ time, 0 ≤ now w - time < timeWindow l) (requests l1) ∧
  (waits = [] ↔ Z.of_nat (length recent) < maxRequests l) ∧
  Forall (λ d, ∃ ms, d = Some ms ∧ 0 < ms ≤ timeWindow l) waits ∧
  (length waits ≤ 1)%nat ∧
  (w2, o) = fn (match waits with d :: _ => sleep d w | [] => w end).
Proof.
  intros Hwindow Hmax Hpast recent. unfold throttle. fold recent.
  assert (Hrecent : Forall (λ time, 0 ≤ now w - time < timeWindow l) recent).
  { apply Forall_forall. intros time [Hin Hmem]%list_elem_of_filter.
    rewrite Forall_forall in Hpast. specialize (Hpast time Hmem). lia. }
  case_bool_decide as Hfull.
  - destruct (fn (sleep _ w)) as [w2 o] eqn:Hfn. cbn [requests].
    split_and!; [done | | | | simpl; lia | by rewrite <- Hfn].
    + apply Forall_app. split; [done|]. apply Forall_singleton. lia.
    + split; [done | lia].
    + apply Forall_singleton. destruct recent as [|oldest rest] eqn:Hr.
      * simpl in Hfull. lia.
      * apply Forall_cons in Hrecent as [Hold _].
        eexists. split; [done | lia].
  - destruct (fn w) as [w2 o] eqn:Hfn. cbn [requests].
    split_and!; [done | | | apply Forall_nil_2 | simpl; lia | done].
    + apply Forall_app. split; [done|]. apply Forall_singleton. lia.
    + split; [lia | done].
Qed.

End WithWorld.

Lemma rate_limiter_delays_witness :
  0 < 1000 ∧ 1 ≤ 2 ∧ Forall (λ time, time ≤ id 1500) [100; 900; 1400] ∧
  requests (throttle id tick instant
              {| maxRequests := 2; timeWindow := 1000; requests := [100; 900; 1400] |}
              1500).1.1.1 = [900; 1400; 1500].
Proof.
  assert (Hwindow : 0 < 1000) by lia.
  assert (Hmax : 1 ≤ 2) by lia.
  assert (Hpast : Forall (λ time, time ≤ id 1500) [100; 900; 1400])
    by (repeat constructor; unfold id; lia).
  split_and!; [done | done | done |].
  pose proof (rate_limiter_delays id tick instant
                {| maxRequests := 2; timeWindow := 1000; requests := [100; 900; 1400] |}
                1500 Hwindow Hmax Hpast) as Hcall.
  vm_compute in Hcall. vm_compute. exact (proj1 Hcall).
Defined.

End RateLimiterFacts.
